(** * CleanWorld: a shallow embedding of the compiler pipeline and interpreter

    The development follows the repository module by module:
    - [Lexer]       (src/lexer/lexer.py)
    - [Parser]      (src/parser/parser.py, src/parser/cst.py)
    - [Converter]   (src/ast/converter.py)
    - [Scope], [Semantic] (src/ast/symbols.py, src/semantic/semantic.py)
    - [Environment], [GridWorld], [Interpreter], [Main]
                    (src/interpreter/interpreter.py)

    Python objects that are mutated in place are modelled by explicit state
    passing: a method [m] of an object of type [S] becomes a function
    [S -> S * outcome A] returning the object as it is when the call returns
    or raises.  Console output ([print], [display]) is not modelled.
    Source text is ASCII: a [string] is a list of 8-bit characters.

    Two recursions of the model are on a counter that the source does not
    have: the nesting of calls in the parser and the turns of the [while]
    loop in the interpreter.  An exhausted counter raises [RecursionError];
    [parse_program_total] and [execute_stmt_no_recursion] show that this
    never happens.

    The limits of the Python interpreter that the code can reach are
    modelled where they are fixed by CPython (64 bits, default settings):
    the index size in the repetition and the concatenation of strings
    ([Py.str_mul], [Py.str_add]) and the 4300 digits that [int] converts
    ([Converter.int]).  Two limits depend on the machine and on the calls
    around the code and are not modelled: the memory, which is taken to
    hold every integer and every string that CPython can address, and the
    recursion limit, so that [to_dict], the converter, the analysis and
    the interpreter follow trees of any depth, and the parser does when
    it is given the budget of [parse_program].  Statements on which
    exceptions the code can raise name [RecursionError] and [MemoryError]
    for them. *)

From Stdlib Require Import ZArith String Ascii List Lia.
From stdpp Require Import base gmap strings list pretty.

Open Scope string_scope.
Open Scope Z_scope.

#[local] Set Warnings "-clear-no-such-hyp".

(* ====================================================================== *)
(** ** Exceptions and outcomes *)
(* ====================================================================== *)

(** The Python exceptions that the modelled code can raise.  Those raised
    with a message by the source carry it. *)
Inductive exn : Type :=
| RuntimeError (msg : string)
| SyntaxError (msg : string)
| KeyError (arg : string)
| IndexError
| TypeError
| AttributeError
| ValueError
| ZeroDivisionError
| OverflowError
| MemoryError
| RecursionError.

Inductive outcome (A : Type) : Type :=
| Ok (a : A)
| Raise (e : exn).
Arguments Ok {A} a.
Arguments Raise {A} e.

Definition bind {A B : Type} (m : outcome A) (k : A -> outcome B) : outcome B :=
  match m with
  | Ok a => k a
  | Raise e => Raise e
  end.

Declare Scope py_scope.
Delimit Scope py_scope with py.
Notation "x <- m ;; k" := (bind m (fun x => k))
  (at level 100, m at next level, right associativity) : py_scope.
Open Scope py_scope.

Definition str_eq (a b : string) : bool := String.eqb a b.

(** [x in [a, b, ...]] on strings. *)
Definition str_in (x : string) (l : list string) : bool :=
  existsb (str_eq x) l.

(** [l[i]] for a non-negative constant index. *)
Definition subscript {A : Type} (l : list A) (i : nat) : outcome A :=
  match nth_error l i with
  | Some x => Ok x
  | None => Raise IndexError
  end.

(* ====================================================================== *)
(** ** Runtime values *)
(* ====================================================================== *)

(** The values the interpreter computes with: Python [int], [bool], [str]
    and [None]. *)
Inductive value : Type :=
| VInt (n : Z)
| VBool (b : bool)
| VStr (s : string)
| VNone.

Module Py.

(** Truth value testing, as in [if v:] and [while v:]. *)
Definition truthy (v : value) : bool :=
  match v with
  | VInt n => negb (n =? 0)%Z
  | VBool b => b
  | VStr s => negb (str_eq s "")
  | VNone => false
  end.

(** [bool] is a subclass of [int]: [True] is 1 and [False] is 0 in
    arithmetic and comparisons. *)
Definition as_int (v : value) : option Z :=
  match v with
  | VInt n => Some n
  | VBool true => Some 1
  | VBool false => Some 0
  | _ => None
  end.

Fixpoint str_repeat (s : string) (n : nat) : string :=
  match n with
  | O => ""
  | S k => s +:+ str_repeat s k
  end.

(** [sys.maxsize]: the largest index, and the largest length of a
    sequence, on a 64-bit CPython. *)
Definition max_index : Z := 2 ^ 63 - 1.

(** The longest string that CPython allocates: the characters, the
    terminator and the 48 bytes of the object header have to fit in
    [max_index] bytes.  A machine refuses shorter strings when its memory
    is used up; the model is a machine that never does. *)
Definition max_str_len : Z := max_index - 49.

Definition str_len (s : string) : Z := Z.of_nat (String.length s).

(** [s * n] for a string and an integer.  The count has to be an index;
    a count below 1 gives the empty string and the count 1 the string
    itself; the length of the result has to be an index ([OverflowError]
    otherwise) and the result has to be allocated ([MemoryError]). *)
Definition str_mul (s : string) (n : Z) : outcome value :=
  if (n <? - max_index - 1) || (max_index <? n) then Raise OverflowError
  else if n <? 1 then Ok (VStr "")
  else if n =? 1 then Ok (VStr s)
  else if max_index / n <? str_len s then Raise OverflowError
  else if max_str_len <? n * str_len s then Raise MemoryError
  else Ok (VStr (str_repeat s (Z.to_nat n))).

(** [a + b] for two strings.  An empty operand gives the other one; the
    length of the result has to be an index and the result has to be
    allocated. *)
Definition str_add (a b : string) : outcome value :=
  if str_eq a "" then Ok (VStr b)
  else if str_eq b "" then Ok (VStr a)
  else if max_index - str_len b <? str_len a then Raise OverflowError
  else if max_str_len <? str_len a + str_len b then Raise MemoryError
  else Ok (VStr (a +:+ b)).

Definition eq (l r : value) : bool :=
  match as_int l, as_int r with
  | Some a, Some b => (a =? b)%Z
  | _, _ =>
      match l, r with
      | VStr a, VStr b => str_eq a b
      | VNone, VNone => true
      | _, _ => false
      end
  end.

Definition add (l r : value) : outcome value :=
  match as_int l, as_int r with
  | Some a, Some b => Ok (VInt (a + b))
  | _, _ =>
      match l, r with
      | VStr a, VStr b => str_add a b
      | _, _ => Raise TypeError
      end
  end.

Definition sub (l r : value) : outcome value :=
  match as_int l, as_int r with
  | Some a, Some b => Ok (VInt (a - b))
  | _, _ => Raise TypeError
  end.

Definition mul (l r : value) : outcome value :=
  match as_int l, as_int r with
  | Some a, Some b => Ok (VInt (a * b))
  | _, _ =>
      match l, r with
      | VStr s, v | v, VStr s =>
          match as_int v with
          | Some n => str_mul s n
          | None => Raise TypeError
          end
      | _, _ => Raise TypeError
      end
  end.

(** [l // r]: floor division, rounding towards minus infinity. *)
Definition floordiv (l r : value) : outcome value :=
  match as_int l, as_int r with
  | Some a, Some b =>
      if (b =? 0)%Z then Raise ZeroDivisionError else Ok (VInt (a / b))
  | _, _ => Raise TypeError
  end.

(** Ordering: numbers with numbers, strings with strings. *)
Definition order (num : Z -> Z -> bool) (str : string -> string -> bool)
    (l r : value) : outcome value :=
  match as_int l, as_int r with
  | Some a, Some b => Ok (VBool (num a b))
  | _, _ =>
      match l, r with
      | VStr a, VStr b => Ok (VBool (str a b))
      | _, _ => Raise TypeError
      end
  end.

Definition lt := order Z.ltb String.ltb.
Definition le := order Z.leb String.leb.
Definition gt := order Z.gtb (fun a b => String.ltb b a).
Definition ge := order Z.geb (fun a b => String.leb b a).

(** [l and r] and [l or r] return one of their operands. *)
Definition and_ (l r : value) : value := if truthy l then r else l.
Definition or_ (l r : value) : value := if truthy l then l else r.

End Py.

(* ====================================================================== *)
(** ** Environment (interpreter.py, class Environment) *)
(* ====================================================================== *)

Module Environment.

#[local] Unset Elimination Schemes.
Inductive t : Type :=
| Env (vars : gmap string value) (parent : option t).
#[local] Set Elimination Schemes.

Definition vars (e : t) : gmap string value :=
  match e with Env v _ => v end.
Definition parent (e : t) : option t :=
  match e with Env _ p => p end.

(** [Environment()] *)
Definition new (parent : option t) : t := Env ∅ parent.

Definition define (name : string) (v : value) (e : t) : t :=
  match e with
  | Env vs p => Env (<[name := v]> vs) p
  end.

Fixpoint get (name : string) (e : t) : outcome value :=
  match e with
  | Env vs p =>
      match vs !! name with
      | Some v => Ok v
      | None =>
          match p with
          | Some pe => get name pe
          | None => Raise (RuntimeError ("Undefined variable: " +:+ name))
          end
      end
  end.

Fixpoint set (name : string) (v : value) (e : t) : outcome t :=
  match e with
  | Env vs p =>
      match vs !! name with
      | Some _ => Ok (Env (<[name := v]> vs) p)
      | None =>
          match p with
          | Some pe =>
              pe' <- set name v pe ;;
              Ok (Env vs (Some pe'))
          | None => Raise (RuntimeError ("Undefined variable: " +:+ name))
          end
      end
  end.

End Environment.

(* ====================================================================== *)
(** ** GridWorld (interpreter.py, class GridWorld) *)
(* ====================================================================== *)

Module GridWorld.

Record t : Type := Build {
  width : Z;
  height : Z;
  agent_x : Z;
  agent_y : Z;
  agent_direction : string;
  dirt : gset (Z * Z)
}.

(** Clockwise order. *)
Definition DIRECTIONS : list string := ["north"; "east"; "south"; "west"].

(** [GridWorld(width, height)] *)
Definition init (width height : Z) : t :=
  let dirt0 : gset (Z * Z) := ∅ in
  let dirt1 := dirt0 ∪ {[ (2, 2) ]} in
  let dirt2 := dirt1 ∪ {[ (3, 1) ]} in
  let dirt3 := dirt2 ∪ {[ (1, 3) ]} in
  Build width height 0 0 "north" dirt3.

Definition off_grid_msg (new_x new_y : Z) : string :=
  "Cannot move: agent would move off grid at (" +:+ pretty new_x +:+
  ", " +:+ pretty new_y +:+ ")".

Definition move (g : t) : t * outcome unit :=
  let new_x := agent_x g in
  let new_y := agent_y g in
  let '(new_x, new_y) :=
    if str_eq (agent_direction g) "north" then (new_x, new_y - 1)
    else if str_eq (agent_direction g) "south" then (new_x, new_y + 1)
    else if str_eq (agent_direction g) "east" then (new_x + 1, new_y)
    else if str_eq (agent_direction g) "west" then (new_x - 1, new_y)
    else (new_x, new_y) in
  if (0 <=? new_x) && (new_x <? width g) && (0 <=? new_y) && (new_y <? height g)
  then (Build (width g) (height g) new_x new_y (agent_direction g) (dirt g), Ok tt)
  else (g, Raise (RuntimeError (off_grid_msg new_x new_y))).

(** [list.index]: position of the first occurrence. *)
Fixpoint index (x : string) (l : list string) : option Z :=
  match l with
  | [] => None
  | y :: l' => if str_eq y x then Some 0 else Z.succ <$> index x l'
  end.

Definition set_direction (d : string) (g : t) : t :=
  Build (width g) (height g) (agent_x g) (agent_y g) d (dirt g).

(** Turn agent 90 degrees counter-clockwise. *)
Definition turn_left (g : t) : t * outcome unit :=
  match index (agent_direction g) DIRECTIONS with
  | None => (g, Raise ValueError)
  | Some idx =>
      match subscript DIRECTIONS (Z.to_nat ((idx - 1) mod 4)) with
      | Ok d => (set_direction d g, Ok tt)
      | Raise e => (g, Raise e)
      end
  end.

(** Turn agent 90 degrees clockwise. *)
Definition turn_right (g : t) : t * outcome unit :=
  match index (agent_direction g) DIRECTIONS with
  | None => (g, Raise ValueError)
  | Some idx =>
      match subscript DIRECTIONS (Z.to_nat ((idx + 1) mod 4)) with
      | Ok d => (set_direction d g, Ok tt)
      | Raise e => (g, Raise e)
      end
  end.

Definition clean (g : t) : t * outcome unit :=
  let pos := (agent_x g, agent_y g) in
  if bool_decide (pos ∈ dirt g)
  then (Build (width g) (height g) (agent_x g) (agent_y g)
          (agent_direction g) (dirt g ∖ {[ pos ]}), Ok tt)
  else (g, Ok tt).

Definition sense (g : t) : bool :=
  bool_decide ((agent_x g, agent_y g) ∈ dirt g).

End GridWorld.

(* ====================================================================== *)
(** ** The abstract syntax tree (the converter's output, the analyzer's and
       the interpreter's input) *)
(* ====================================================================== *)

(** An expression slot holds a node or [None] ([option expr]): the converter
    writes [None] for the right operand of [not]. *)
#[local] Unset Elimination Schemes.
Inductive expr : Type :=
| Literal (v : value)
| Identifier (name : string)
| BinaryExpr (operator : string) (left right : option expr).

(** Statement-level nodes.  Besides the six node kinds, a statement slot can
    hold what [convert_statement] returns for the remaining CST node types: a
    bare Python list for a nested [BLOCK] ([BlockList]) and [None] for an
    unknown type ([NoneStmt]); neither is a dict, so [stmt.get] fails on
    them. *)
Inductive stmt : Type :=
| ConstDecl (id : string) (varType : string) (value : option expr)
| VarDecl (id : string) (varType : string) (init : option expr)
| Assign (target : string) (value : option expr)
| IfStmt (test : option expr) (consequent : list stmt)
         (alternate : option (list stmt))
| WhileStmt (test : option expr) (body : list stmt)
| ActionStmt (action : string)
| BlockList (stmts : list stmt)
| NoneStmt.
#[local] Set Elimination Schemes.

Record Program : Type := mkProgram {
  prog_name : string;
  prog_body : list stmt
}.

(** [for s in stmts: f(s)] over a mutable object: stops at the first raise. *)
Definition for_each {A S : Type} (f : A -> S -> S * outcome unit)
  : list A -> S -> S * outcome unit :=
  fix go (l : list A) (st : S) : S * outcome unit :=
    match l with
    | [] => (st, Ok tt)
    | a :: l' =>
        match f a st with
        | (st', Ok _) => go l' st'
        | (st', Raise e) => (st', Raise e)
        end
    end.

(* ====================================================================== *)
(** ** Interpreter (interpreter.py, class Interpreter) *)
(* ====================================================================== *)

Module Interpreter.

Record t : Type := Build {
  env : Environment.t;
  grid : option GridWorld.t;
  const_vars : gset string
}.

(** [Interpreter(ast)] *)
Definition init : t := Build (Environment.new None) None ∅.

Definition set_env (e : Environment.t) (it : t) : t :=
  Build e (grid it) (const_vars it).
Definition set_grid (g : option GridWorld.t) (it : t) : t :=
  Build (env it) g (const_vars it).

(* -------------------------------------------------------------------- *)
(** *** Expression evaluation *)

Definition division_by_zero : exn := RuntimeError "Division by zero".

(** The operator dispatch of [evaluate_binary_expr], after both operands
    have been evaluated. *)
Definition apply_operator (operator : string) (left right : value)
  : outcome value :=
  if str_eq operator "+" then Py.add left right
  else if str_eq operator "-" then Py.sub left right
  else if str_eq operator "*" then Py.mul left right
  else if str_eq operator "/" then
    if Py.eq right (VInt 0) then Raise division_by_zero
    else Py.floordiv left right
  else if str_eq operator "==" then Ok (VBool (Py.eq left right))
  else if str_eq operator "!=" then Ok (VBool (negb (Py.eq left right)))
  else if str_eq operator "<" then Py.lt left right
  else if str_eq operator "<=" then Py.le left right
  else if str_eq operator ">" then Py.gt left right
  else if str_eq operator ">=" then Py.ge left right
  else if str_eq operator "and" then Ok (Py.and_ left right)
  else if str_eq operator "or" then Ok (Py.or_ left right)
  else Raise (RuntimeError ("Unknown operator: " +:+ operator)).

(** [evaluate_binary_expr], abstracted over the recursive call to
    [evaluate_expr]. *)
Definition evaluate_binary_expr (evaluate_expr : option expr -> outcome value)
    (operator : string) (left right : option expr) : outcome value :=
  if str_eq operator "not" then
    right <- evaluate_expr left ;;
    Ok (VBool (negb (Py.truthy right)))
  else
    left <- evaluate_expr left ;;
    right <- evaluate_expr right ;;
    apply_operator operator left right.

(** [evaluate_expr] on a node; [evaluate_expr] below adds the case of
    [None]. *)
Fixpoint evaluate_node (it : t) (e : expr) {struct e} : outcome value :=
  match e with
  | Literal v => Ok v
  | Identifier name =>
      if str_eq name "sense" then
        match grid it with
        | Some g => Ok (VBool (GridWorld.sense g))
        | None => Raise (RuntimeError "Cannot call sense: grid not initialized")
        end
      else if str_eq name "dirt" then
        Raise (RuntimeError "'dirt' is not a valid identifier")
      else Environment.get name (env it)
  | BinaryExpr operator l r =>
      evaluate_binary_expr
        (fun oe => match oe with
                   | None => Ok VNone
                   | Some e' => evaluate_node it e'
                   end)
        operator l r
  end.

Definition evaluate_expr (it : t) (expr : option expr) : outcome value :=
  match expr with
  | None => Ok VNone
  | Some e => evaluate_node it e
  end.

(* -------------------------------------------------------------------- *)
(** *** Statement execution *)

Definition execute_var_decl (name var_type : string) (init_value : option expr)
    (it : t) : t * outcome unit :=
  let value :=
    match init_value with
    | Some _ => evaluate_expr it init_value
    | None =>
        if str_eq var_type "int" then Ok (VInt 0)
        else if str_eq var_type "bool" then Ok (VBool false)
        else if str_eq var_type "direction" then Ok (VStr "north")
        else Ok VNone
    end in
  match value with
  | Ok value => (set_env (Environment.define name value (env it)) it, Ok tt)
  | Raise e => (it, Raise e)
  end.

Definition execute_const_decl (name : string) (value : option expr) (it : t)
  : t * outcome unit :=
  match evaluate_expr it value with
  | Ok value =>
      (Build (Environment.define name value (env it)) (grid it)
             (const_vars it ∪ {[ name ]}), Ok tt)
  | Raise e => (it, Raise e)
  end.

Definition execute_assign (name : string) (value : option expr) (it : t)
  : t * outcome unit :=
  if bool_decide (name ∈ const_vars it) then
    (it, Raise (RuntimeError ("Cannot assign to constant: " +:+ name)))
  else
    match evaluate_expr it value with
    | Raise e => (it, Raise e)
    | Ok value =>
        match Environment.set name value (env it) with
        | Ok env' => (set_env env' it, Ok tt)
        | Raise e => (it, Raise e)
        end
    end.

(** Lifts a GridWorld mutator to the interpreter that owns the grid. *)
Definition on_grid (m : GridWorld.t -> GridWorld.t * outcome unit)
    (g : GridWorld.t) (it : t) : t * outcome unit :=
  let '(g', r) := m g in (set_grid (Some g') it, r).

Definition execute_action (action : string) (it : t) : t * outcome unit :=
  match grid it with
  | None =>
      (it, Raise (RuntimeError "Grid not initialized. Missing grid() declaration?"))
  | Some g =>
      if str_eq action "move" then on_grid GridWorld.move g it
      else if str_eq action "turnLeft" then on_grid GridWorld.turn_left g it
      else if str_eq action "turnRight" then on_grid GridWorld.turn_right g it
      else if str_eq action "clean" then on_grid GridWorld.clean g it
      else if str_eq action "sense" then
        let result := GridWorld.sense g in (it, Ok tt)
      else (it, Raise (RuntimeError ("Unknown action: " +:+ action)))
  end.

Definition max_iterations : Z := 10000.

Definition infinite_loop : exn :=
  RuntimeError "Infinite loop detected (exceeded 10000 iterations)".

(** The loop of [execute_while], from the point where [iteration] has the
    given value.  [run_body] is the [for s in body] of the source.  The
    recursion is on [fuel]; [execute_while] starts it with more fuel than
    the iteration cap lets the loop use (lemmas [while_loop_fuel] and
    [while_loop_no_recursion]). *)
Fixpoint while_loop (run_body : t -> t * outcome unit) (test : option expr)
    (fuel : nat) (iteration : Z) (it : t) {struct fuel} : t * outcome unit :=
  match fuel with
  | O => (it, Raise RecursionError)
  | S fuel' =>
      match evaluate_expr it test with
      | Raise e => (it, Raise e)
      | Ok c =>
          if Py.truthy c then
            let iteration := iteration + 1 in
            if iteration >? max_iterations then (it, Raise infinite_loop)
            else
              match run_body it with
              | (it', Ok _) => while_loop run_body test fuel' iteration it'
              | (it', Raise e) => (it', Raise e)
              end
          else (it, Ok tt)
      end
  end.

Definition execute_while_with (run_body : t -> t * outcome unit)
    (test : option expr) (it : t) : t * outcome unit :=
  while_loop run_body test (S (Z.to_nat max_iterations)) 0 it.

Fixpoint execute_stmt (s : stmt) (it : t) {struct s} : t * outcome unit :=
  match s with
  | VarDecl name var_type init_value => execute_var_decl name var_type init_value it
  | ConstDecl name _ value => execute_const_decl name value it
  | Assign name value => execute_assign name value it
  | IfStmt test consequent alternate =>
      match evaluate_expr it test with
      | Raise e => (it, Raise e)
      | Ok condition =>
          if Py.truthy condition then for_each execute_stmt consequent it
          else
            match alternate with
            | Some (s0 :: alt) => for_each execute_stmt (s0 :: alt) it
            | Some [] | None => (it, Ok tt)
            end
      end
  | WhileStmt test body =>
      execute_while_with (for_each execute_stmt body) test it
  | ActionStmt action => execute_action action it
  | BlockList _ | NoneStmt => (it, Raise AttributeError)
  end.

Definition execute_if (test : option expr) (consequent : list stmt)
    (alternate : option (list stmt)) (it : t) : t * outcome unit :=
  execute_stmt (IfStmt test consequent alternate) it.

Definition execute_while (test : option expr) (body : list stmt) (it : t)
  : t * outcome unit :=
  execute_stmt (WhileStmt test body) it.

(** [Interpreter.run]: execute all statements in the program body. *)
Definition run (ast : Program) (it : t) : t * outcome unit :=
  for_each execute_stmt (prog_body ast) it.

End Interpreter.

(* ====================================================================== *)
(** ** Lexer (lexer.py) *)
(* ====================================================================== *)

(** A token is the tuple [(kind, value, line_num)]. *)
Definition token : Type := string * string * Z.

Definition tok_kind (t : token) : string := fst (fst t).
Definition tok_value (t : token) : string := snd (fst t).
Definition tok_line (t : token) : Z := snd t.

Module Lexer.

Definition in_range (lo hi : string) (c : ascii) : bool :=
  match lo, hi with
  | String l EmptyString, String h EmptyString =>
      (nat_of_ascii l <=? nat_of_ascii c)%nat && (nat_of_ascii c <=? nat_of_ascii h)%nat
  | _, _ => false
  end.

(** [\d] *)
Definition is_digit (c : ascii) : bool := in_range "0" "9" c.
(** [[A-Za-z_]] *)
Definition is_id_start (c : ascii) : bool :=
  in_range "A" "Z" c || in_range "a" "z" c || Ascii.eqb c "_".
(** [[A-Za-z0-9_]], also the word characters [\w] *)
Definition is_word (c : ascii) : bool := is_id_start c || is_digit c.
(** [[a-zA-Z0-9_ ]] *)
Definition is_string_char (c : ascii) : bool := is_word c || Ascii.eqb c " ".
(** [[ \t]] *)
Definition is_blank (c : ascii) : bool := Ascii.eqb c " " || Ascii.eqb c "009".
Definition newline : ascii := "010".
Definition dquote : ascii := "034".
(** [.] matches any character except a newline. *)
Definition is_dot (c : ascii) : bool := negb (Ascii.eqb c newline).

Definition head (s : string) : option ascii :=
  match s with
  | EmptyString => None
  | String c _ => Some c
  end.

Fixpoint last_char (prev : option ascii) (s : string) : option ascii :=
  match s with
  | EmptyString => prev
  | String c s' => last_char (Some c) s'
  end.

Definition word_at (c : option ascii) : bool :=
  match c with
  | Some c => is_word c
  | None => false
  end.

(** [\b] between the character before the position and the one at it. *)
Definition boundary (before after : option ascii) : bool :=
  xorb (word_at before) (word_at after).

(** Longest prefix of characters in a class (a greedy [[...]*]). *)
Fixpoint span (p : ascii -> bool) (s : string) : string * string :=
  match s with
  | EmptyString => (EmptyString, EmptyString)
  | String c s' =>
      if p c then let '(m, r) := span p s' in (String c m, r)
      else (EmptyString, s)
  end.

Fixpoint strip_prefix (lit s : string) : option string :=
  match lit with
  | EmptyString => Some s
  | String c lit' =>
      match s with
      | String d s' => if Ascii.eqb c d then strip_prefix lit' s' else None
      | EmptyString => None
      end
  end.

(** A pattern is tried at a position, given the character before it and the
    text from it on; a match returns the matched text and the rest. *)
Definition pattern : Type := option ascii -> string -> option (string * string).

(** A literal text, as in [r'=='] or [r'\+']. *)
Definition lit (text : string) : pattern := fun _ s =>
  match strip_prefix text s with
  | Some rest => Some (text, rest)
  | None => None
  end.

(** [\b(w1|w2|...)\b]: the alternatives are tried in order. *)
Definition words (alts : list string) : pattern := fun prev s =>
  if boundary prev (head s) then
    (fix try (alts : list string) : option (string * string) :=
       match alts with
       | [] => None
       | w :: alts' =>
           match strip_prefix w s with
           | Some rest =>
               if boundary (last_char prev w) (head rest) then Some (w, rest)
               else try alts'
           | None => try alts'
           end
       end) alts
  else None.

Definition word (w : string) : pattern := words [w].

(** [c+] for a character class. *)
Definition some_of (p : ascii -> bool) : pattern := fun _ s =>
  match span p s with
  | (EmptyString, _) => None
  | (m, rest) => Some (m, rest)
  end.

(** [\"[a-zA-Z0-9_ ]*\"] *)
Definition string_literal : pattern := fun _ s =>
  match s with
  | String q s' =>
      if Ascii.eqb q dquote then
        let '(body, rest) := span is_string_char s' in
        match rest with
        | String q' rest' =>
            if Ascii.eqb q' dquote
            then Some (String q (body +:+ String q' EmptyString), rest')
            else None
        | EmptyString => None
        end
      else None
  | EmptyString => None
  end.

(** [#.*] *)
Definition comment : pattern := fun _ s =>
  match s with
  | String c s' =>
      if Ascii.eqb c "#" then
        let '(body, rest) := span is_dot s' in Some (String c body, rest)
      else None
  | EmptyString => None
  end.

(** [[A-Za-z_][A-Za-z0-9_]*] *)
Definition identifier : pattern := fun _ s =>
  match s with
  | String c s' =>
      if is_id_start c then
        let '(body, rest) := span is_word s' in Some (String c body, rest)
      else None
  | EmptyString => None
  end.

(** One character of a class. *)
Definition one_of (p : ascii -> bool) : pattern := fun _ s =>
  match s with
  | String c s' => if p c then Some (String c EmptyString, s') else None
  | EmptyString => None
  end.

Definition token_specification : list (string * pattern) :=
  [ ("GRID", word "grid");
    ("PROGRAM", word "program");
    ("CONST", word "const");
    ("VAR", word "var");
    ("TYPE_INT", word "int");
    ("TYPE_BOOL", word "bool");
    ("TYPE_DIRECTION", word "direction");
    ("WHILE", word "while");
    ("IF", word "if");
    ("ELSE", word "else");
    ("MOVE", word "move");
    ("TURN_LEFT", word "turnLeft");
    ("TURN_RIGHT", word "turnRight");
    ("SENSE", word "sense");
    ("CLEAN", word "clean");
    ("BOOL_LITERAL", words ["true"; "false"]);
    ("DIRECTION_LITERAL", words ["north"; "south"; "east"; "west"]);
    ("STRING_LITERAL", string_literal);
    ("AND", word "and");
    ("OR", word "or");
    ("NOT", word "not");
    ("INT_LITERAL", some_of is_digit);
    ("EQ", lit "==");
    ("NEQ", lit "!=");
    ("LE", lit "<=");
    ("GE", lit ">=");
    ("LT", lit "<");
    ("GT", lit ">");
    ("ASSIGN", lit "=");
    ("PLUS", lit "+");
    ("MINUS", lit "-");
    ("MUL", lit "*");
    ("DIV", lit "/");
    ("LPAREN", lit "(");
    ("RPAREN", lit ")");
    ("LBRACE", lit "{");
    ("RBRACE", lit "}");
    ("SEMICOLON", lit ";");
    ("COLON", lit ":");
    ("COMMA", lit ",");
    ("COMMENT", comment);
    ("ID", identifier);
    ("NEWLINE", one_of (Ascii.eqb newline));
    ("SKIP", some_of is_blank);
    ("MISMATCH", one_of is_dot) ].

(** [get_token(code, pos)]: the first alternative of [tok_regex] that
    matches at the position, as [(mo.lastgroup, mo.group())] with the text
    after the match. *)
Fixpoint first_match (spec : list (string * pattern)) (prev : option ascii)
    (s : string) : option (string * string * string) :=
  match spec with
  | [] => None
  | (kind, p) :: spec' =>
      match p prev s with
      | Some (value, rest) => Some (kind, value, rest)
      | None => first_match spec' prev s
      end
  end.

Definition get_token : option ascii -> string -> option (string * string * string) :=
  first_match token_specification.

(** The scanning loop.  The recursion passes over the text one character
    at a time: [skip] counts the characters of the current match that are
    still ahead of [pos = mo.end()], where the next match is tried. *)
Fixpoint scan (prev : option ascii) (code : string) (skip : nat) (line_num : Z)
    {struct code} : list token :=
  match code with
  | EmptyString => []
  | String c rest =>
      match skip with
      | S skip' => scan (Some c) rest skip' line_num
      | O =>
          match get_token prev code with
          | None => []
          | Some (kind, value, _) =>
              let skip' := Nat.pred (String.length value) in
              if str_eq kind "NEWLINE" then scan (Some c) rest skip' (line_num + 1)
              else if str_eq kind "SKIP" || str_eq kind "COMMENT" then
                scan (Some c) rest skip' line_num
              else if str_eq kind "MISMATCH" then
                scan (Some c) rest skip' line_num
              else (kind, value, line_num) :: scan (Some c) rest skip' line_num
          end
      end
  end.

Definition get_token_stream (code : string) : list token :=
  scan None code 0 1.

End Lexer.

(* ====================================================================== *)
(** ** Concrete syntax trees (cst.py) *)
(* ====================================================================== *)

#[local] Unset Elimination Schemes.
(** The objects of class [CSTNode]. *)
Inductive CSTNode : Type :=
| Node (node_type : string) (value : option string) (children : list CSTNode).

(** The dictionaries [to_dict] produces and the converter reads: the key
    ["value"] and the key ["children"] may be absent. *)
Inductive cst_dict : Type :=
| Dict (type : string) (value : option string) (children : option (list cst_dict)).
#[local] Set Elimination Schemes.

Fixpoint to_dict (n : CSTNode) : cst_dict :=
  match n with
  | Node node_type value children =>
      Dict node_type value
        match children with
        | [] => None
        | _ :: _ => Some (List.map to_dict children)
        end
  end.

(* ====================================================================== *)
(** ** Parser (parser.py) *)
(* ====================================================================== *)

Module Parser.

Record t : Type := Build {
  tokens : list token;
  pos : nat;
  current_token : option token
}.

(** [Parser(tokens)] *)
Definition init (tokens : list token) : t :=
  Build tokens 0 (nth_error tokens 0).

(** A method of the parser: it may advance the parser and may raise. *)
Definition M (A : Type) : Type := t -> t * outcome A.

Definition ret {A : Type} (a : A) : M A := fun p => (p, Ok a).
Definition raise {A : Type} (e : exn) : M A := fun p => (p, Raise e).
Definition mbind {A B : Type} (m : M A) (k : A -> M B) : M B := fun p =>
  match m p with
  | (p', Ok a) => k a p'
  | (p', Raise e) => (p', Raise e)
  end.

Notation "x <~ m ;; k" := (mbind m (fun x => k))
  (at level 100, m at next level, right associativity).

(** [str(token)] for a tuple of two strings and an int. *)
Definition show_token (tok : token) : string :=
  "('" +:+ tok_kind tok +:+ "', '" +:+ tok_value tok +:+ "', " +:+
  pretty (tok_line tok) +:+ ")".

Definition advance : M unit := fun p =>
  let pos' := S (pos p) in
  (Build (tokens p) pos' (nth_error (tokens p) pos'), Ok tt).

Definition eat (token_type : string) : M CSTNode := fun p =>
  match current_token p with
  | Some tok =>
      if str_eq (tok_kind tok) token_type then
        (_ <~ advance ;; ret (Node "TERMINAL" (Some (tok_value tok)) [])) p
      else
        (p, Raise (SyntaxError ("Expected " +:+ token_type +:+ " but found "
                                 +:+ show_token tok)))
  | None =>
      (p, Raise (SyntaxError ("Expected " +:+ token_type +:+ " but found EOF")))
  end.

(** The type of the current token, [None] at the end. *)
Definition peek (p : t) : option string :=
  match current_token p with
  | Some tok => Some (tok_kind tok)
  | None => None
  end.

Definition peek_in (kinds : list string) (p : t) : bool :=
  match peek p with
  | Some k => str_in k kinds
  | None => false
  end.

Definition peek_is (kind : string) (p : t) : bool := peek_in [kind] p.

(** [self.eat(self.peek())] *)
Definition eat_peek : M CSTNode := fun p =>
  match peek p with
  | Some k => eat k p
  | None => (p, Raise (SyntaxError "Expected None but found EOF"))
  end.

(** Runs the parsers of a production in order and collects the children
    they return ([node.add_child] for each). *)
Fixpoint children_of (ms : list (M CSTNode)) : M (list CSTNode) :=
  match ms with
  | [] => ret []
  | m :: ms' => c <~ m ;; cs <~ children_of ms' ;; ret (c :: cs)
  end.

Definition production (node_type : string) (ms : list (M CSTNode)) : M CSTNode :=
  cs <~ children_of ms ;; ret (Node node_type None cs).

(* -------------------------------------------------------------------- *)
(** *** Program structure *)

Definition parse_world_def : M CSTNode :=
  production "WORLD_DEF"
    [eat "GRID"; eat "LPAREN"; eat "INT_LITERAL"; eat "COMMA";
     eat "INT_LITERAL"; eat "RPAREN"; eat "SEMICOLON"].

Definition parse_type : M CSTNode := fun p =>
  if peek_in ["TYPE_INT"; "TYPE_BOOL"; "TYPE_DIRECTION"] p
  then production "TYPE" [eat_peek] p
  else (p, Raise (SyntaxError ("Expected Type, found " +:+
                               match peek p with Some k => k | None => "None" end))).

Definition parse_literal : M CSTNode := production "LITERAL" [eat_peek].
Definition parse_additive_op : M CSTNode := production "ADD_OP" [eat_peek].
Definition parse_multiplicative_op : M CSTNode := production "MUL_OP" [eat_peek].
Definition parse_relational_op : M CSTNode := production "REL_OP" [eat_peek].

Definition parse_action : M CSTNode := fun p =>
  if peek_in ["MOVE"; "TURN_LEFT"; "TURN_RIGHT"; "CLEAN"; "SENSE"] p
  then production "ACTION" [eat_peek; eat "SEMICOLON"] p
  else (p, Raise (SyntaxError "Expected Action Statement")).

(* -------------------------------------------------------------------- *)
(** *** Expressions

    The recursive productions take a [depth] budget for the nesting of
    their calls; a call that would exceed it raises [RecursionError]. *)

Definition unexpected_in_factor (p : t) : exn :=
  SyntaxError ("Unexpected token in factor: " +:+
               match peek p with Some k => k | None => "None" end).

Fixpoint parse_expression (depth : nat) {struct depth} : M CSTNode :=
  match depth with
  | O => raise RecursionError
  | S d => production "EXPRESSION" [parse_term d; parse_expression_tail d]
  end
with parse_expression_tail (depth : nat) {struct depth} : M CSTNode :=
  match depth with
  | O => raise RecursionError
  | S d => fun p =>
      if peek_in ["PLUS"; "MINUS"; "OR"] p
      then production "EXPRESSION_TAIL"
             [parse_additive_op; parse_term d; parse_expression_tail d] p
      else production "EXPRESSION_TAIL" [] p
  end
with parse_term (depth : nat) {struct depth} : M CSTNode :=
  match depth with
  | O => raise RecursionError
  | S d => production "TERM" [parse_factor d; parse_term_tail d]
  end
with parse_term_tail (depth : nat) {struct depth} : M CSTNode :=
  match depth with
  | O => raise RecursionError
  | S d => fun p =>
      if peek_in ["MUL"; "DIV"; "AND"] p
      then production "TERM_TAIL"
             [parse_multiplicative_op; parse_factor d; parse_term_tail d] p
      else production "TERM_TAIL" [] p
  end
with parse_factor (depth : nat) {struct depth} : M CSTNode :=
  match depth with
  | O => raise RecursionError
  | S d => fun p =>
      if peek_is "ID" p then production "FACTOR" [eat "ID"] p
      else if peek_in ["INT_LITERAL"; "BOOL_LITERAL"; "DIRECTION_LITERAL";
                       "STRING_LITERAL"] p
      then production "FACTOR" [parse_literal] p
      else if peek_is "LPAREN" p
      then production "FACTOR" [eat "LPAREN"; parse_expression d; eat "RPAREN"] p
      else if peek_is "SENSE" p then production "FACTOR" [eat "SENSE"] p
      else if peek_is "NOT" p
      then production "FACTOR" [eat "NOT"; parse_factor d] p
      else (p, Raise (unexpected_in_factor p))
  end.

(* -------------------------------------------------------------------- *)
(** *** Conditions *)

Definition parse_condition_tail (depth : nat) : M CSTNode := fun p =>
  if peek_in ["EQ"; "NEQ"; "LT"; "LE"; "GT"; "GE"] p
  then production "CONDITION_TAIL" [parse_relational_op; parse_expression depth] p
  else production "CONDITION_TAIL" [] p.

Definition parse_condition (depth : nat) : M CSTNode :=
  production "CONDITION" [parse_expression depth; parse_condition_tail depth].

(* -------------------------------------------------------------------- *)
(** *** Declarations *)

Definition parse_var_tail (depth : nat) : M CSTNode := fun p =>
  if peek_is "SEMICOLON" p then production "VAR_TAIL" [eat "SEMICOLON"] p
  else if peek_is "ASSIGN" p
  then production "VAR_TAIL"
         [eat "ASSIGN"; parse_expression depth; eat "SEMICOLON"] p
  else (p, Raise (SyntaxError "Invalid Variable Declaration Tail")).

Definition parse_declaration (depth : nat) : M CSTNode := fun p =>
  if peek_is "CONST" p
  then production "DECLARATION"
         [eat "CONST"; eat "ID"; eat "COLON"; parse_type; eat "ASSIGN";
          parse_expression depth; eat "SEMICOLON"] p
  else if peek_is "VAR" p
  then production "DECLARATION"
         [eat "VAR"; eat "ID"; eat "COLON"; parse_type; parse_var_tail depth] p
  else (p, Raise (SyntaxError "Expected CONST or VAR")).

(** The loop [while self.peek() in [...]: node.add_child(item())]; every
    turn of the loop uses one unit of [depth]. *)
Fixpoint repeat_while (kinds : list string) (item : M CSTNode) (depth : nat)
    {struct depth} : M (list CSTNode) :=
  match depth with
  | O => raise RecursionError
  | S d => fun p =>
      if peek_in kinds p
      then (c <~ item ;; cs <~ repeat_while kinds item d ;; ret (c :: cs)) p
      else ret [] p
  end.

Definition parse_declarations (depth : nat) : M CSTNode :=
  cs <~ repeat_while ["CONST"; "VAR"] (parse_declaration depth) depth ;;
  ret (Node "DECLARATIONS" None cs).

(* -------------------------------------------------------------------- *)
(** *** Statements *)

Definition parse_assignment (depth : nat) : M CSTNode :=
  production "ASSIGNMENT"
    [eat "ID"; eat "ASSIGN"; parse_expression depth; eat "SEMICOLON"].

Definition valid_starts : list string :=
  ["ID"; "IF"; "WHILE"; "LBRACE"; "MOVE"; "TURN_LEFT"; "TURN_RIGHT"; "CLEAN";
   "SENSE"].

Fixpoint parse_statements (depth : nat) {struct depth} : M CSTNode :=
  match depth with
  | O => raise RecursionError
  | S d =>
      cs <~ repeat_while valid_starts (parse_statement d) d ;;
      ret (Node "STATEMENTS" None cs)
  end
with parse_statement (depth : nat) {struct depth} : M CSTNode :=
  match depth with
  | O => raise RecursionError
  | S d => fun p =>
      if peek_is "ID" p then parse_assignment d p
      else if peek_is "IF" p then parse_if d p
      else if peek_is "WHILE" p then parse_while d p
      else if peek_is "LBRACE" p then parse_block d p
      else if peek_in ["MOVE"; "TURN_LEFT"; "TURN_RIGHT"; "CLEAN"; "SENSE"] p
      then parse_action p
      else (p, Raise (SyntaxError ("Unexpected token in statement: " +:+
                        match peek p with Some k => k | None => "None" end)))
  end
with parse_block (depth : nat) {struct depth} : M CSTNode :=
  match depth with
  | O => raise RecursionError
  | S d => production "BLOCK" [eat "LBRACE"; parse_statements d; eat "RBRACE"]
  end
with parse_if (depth : nat) {struct depth} : M CSTNode :=
  match depth with
  | O => raise RecursionError
  | S d =>
      production "IF_STATEMENT"
        [eat "IF"; eat "LPAREN"; parse_condition d; eat "RPAREN";
         parse_block d; parse_else_part d]
  end
with parse_else_part (depth : nat) {struct depth} : M CSTNode :=
  match depth with
  | O => raise RecursionError
  | S d => fun p =>
      if peek_is "ELSE" p
      then production "ELSE_PART" [eat "ELSE"; parse_block d] p
      else production "ELSE_PART" [] p
  end
with parse_while (depth : nat) {struct depth} : M CSTNode :=
  match depth with
  | O => raise RecursionError
  | S d =>
      production "WHILE_STATEMENT"
        [eat "WHILE"; eat "LPAREN"; parse_condition d; eat "RPAREN";
         parse_block d]
  end.

Definition parse_program_at (depth : nat) : M CSTNode :=
  production "PROGRAM"
    [eat "PROGRAM"; eat "ID"; eat "LBRACE"; parse_world_def;
     parse_declarations depth; parse_statements depth; eat "RBRACE"].

(** The depth budget of a run: more than the nesting of calls that the
    tokens allow (theorem [parse_program_total]). *)
Definition depth_for (tokens : list token) : nat :=
  (4 * length tokens + 16)%nat.

(** [Parser(tokens).parse_program()] *)
Definition parse_program (tokens : list token) : outcome CSTNode :=
  snd (parse_program_at (depth_for tokens) (init tokens)).

End Parser.

(* ====================================================================== *)
(** ** Converter (converter.py) *)
(* ====================================================================== *)

(** [[f(x) for x in l]], stopping at the first raise. *)
Fixpoint map_outcome {A B : Type} (f : A -> outcome B) (l : list A)
  : outcome (list B) :=
  match l with
  | [] => Ok []
  | a :: l' => b <- f a ;; bs <- map_outcome f l' ;; Ok (b :: bs)
  end.

Module Converter.

Definition type_of (node : cst_dict) : string :=
  match node with Dict t _ _ => t end.

(** [node["value"]] *)
Definition value_of (node : cst_dict) : outcome string :=
  match node with
  | Dict _ (Some v) _ => Ok v
  | Dict _ None _ => Raise (KeyError "value")
  end.

(** [node["children"]] *)
Definition children_of (node : cst_dict) : outcome (list cst_dict) :=
  match node with
  | Dict _ _ (Some cs) => Ok cs
  | Dict _ _ None => Raise (KeyError "children")
  end.

(** [node.get("children", [])] *)
Definition get_children (node : cst_dict) : list cst_dict :=
  match node with
  | Dict _ _ (Some cs) => cs
  | Dict _ _ None => []
  end.

(** [node["children"][i]] *)
Definition child (node : cst_dict) (i : nat) : outcome cst_dict :=
  cs <- children_of node ;; subscript cs i.

(** [str.isdigit] on ASCII text. *)
Fixpoint all_digits (s : string) : bool :=
  match s with
  | EmptyString => true
  | String c s' => Lexer.is_digit c && all_digits s'
  end.

Definition isdigit (s : string) : bool :=
  negb (str_eq s "") && all_digits s.

(** The value of a string of decimal digits. *)
Fixpoint int_of (acc : Z) (s : string) : Z :=
  match s with
  | EmptyString => acc
  | String c s' => int_of (10 * acc + (Z.of_nat (nat_of_ascii c) - 48)) s'
  end.

(** [sys.get_int_max_str_digits()]: the default of CPython. *)
Definition int_max_str_digits : nat := 4300.

(** [int(val)] for a string of decimal digits: a string of more digits
    than the limit, leading zeros counted, raises [ValueError]. *)
Definition int (val : string) : outcome Z :=
  if (int_max_str_digits <? String.length val)%nat then Raise ValueError
  else Ok (int_of 0 val).

Definition literal_of (val : string) : outcome expr :=
  if isdigit val then n <- int val ;; Ok (Literal (VInt n))
  else if str_in val ["true"; "false"]
  then Ok (Literal (VBool (str_eq val "true")))
  else Ok (Literal (VStr val)).

Fixpoint flatten_expression (node : cst_dict) {struct node}
  : outcome (option expr) :=
  match node with
  | Dict type _ children =>
      (* Recursive step: parse left side, then check for a tail *)
      let recursive_step :=
        match children with
        | Some (first :: others) =>
            l <- flatten_expression first ;;
            match others with
            | tail :: _ =>
                match tail with
                | Dict _ _ (Some (op_node :: tail_others)) =>
                    op <- (o <- child op_node 0 ;; value_of o) ;;
                    match tail_others with
                    | operand :: _ =>
                        r <- flatten_expression operand ;;
                        Ok (Some (BinaryExpr op l r))
                    | [] => Raise IndexError
                    end
                | Dict _ _ (Some []) | Dict _ _ None => Ok l
                end
            | [] => Ok l
            end
        | Some [] | None => Ok None
        end in
      (* Base case: FACTOR *)
      if str_eq type "FACTOR" then
        match children with
        | None => Raise (KeyError "children")
        | Some [] => Raise IndexError
        | Some (child0 :: others) =>
            if str_eq (type_of child0) "LITERAL" then
              val <- (c <- child child0 0 ;; value_of c) ;;
              literal <- literal_of val ;;
              Ok (Some literal)
            else if str_eq (type_of child0) "TERMINAL" then
              v <- value_of child0 ;;
              if str_in v ["sense"; "dirt"] then Ok (Some (Identifier v))
              else if str_eq v "not" then
                match others with
                | operand :: _ =>
                    l <- flatten_expression operand ;;
                    Ok (Some (BinaryExpr "not" l None))
                | [] => Raise IndexError
                end
              else Ok (Some (Identifier v))
            else recursive_step
        end
      else recursive_step
  end.

Definition convert_expression (node : cst_dict) : outcome (option expr) :=
  flatten_expression node.

Definition convert_condition (node : cst_dict) : outcome (option expr) :=
  l <- (c <- child node 0 ;; flatten_expression c) ;;
  tail <- child node 1 ;;
  match get_children tail with
  | _ :: _ =>
      op <- (rel <- child tail 0 ;; o <- child rel 0 ;; value_of o) ;;
      r <- (c <- child tail 1 ;; flatten_expression c) ;;
      Ok (Some (BinaryExpr op l r))
  | [] => Ok l
  end.

Definition convert_declaration (decl_cst : cst_dict) : outcome stmt :=
  first_token <- (c <- child decl_cst 0 ;; value_of c) ;;
  id_value <- (c <- child decl_cst 1 ;; value_of c) ;;
  type_node <- child decl_cst 3 ;;
  var_type <- (c <- child type_node 0 ;; value_of c) ;;
  if str_eq first_token "const" then
    expr_node <- child decl_cst 5 ;;
    value <- convert_expression expr_node ;;
    Ok (ConstDecl id_value var_type value)
  else
    var_tail <- child decl_cst 4 ;;
    init_value <-
      match get_children var_tail with
      | _ :: init_node :: _ => convert_expression init_node
      | _ => Ok None
      end ;;
    Ok (VarDecl id_value var_type init_value).

Definition convert_assignment (node : cst_dict) : outcome stmt :=
  target_name <- (c <- child node 0 ;; value_of c) ;;
  expr_node <- child node 2 ;;
  value <- convert_expression expr_node ;;
  Ok (Assign target_name value).

Definition convert_action (node : cst_dict) : outcome stmt :=
  action_name <- (c <- child node 0 ;; value_of c) ;;
  Ok (ActionStmt action_name).

(** [convert_block], [convert_if] and [convert_while], abstracted over
    their recursive calls. *)
Definition convert_block_with (convert_statement : cst_dict -> outcome stmt)
    (node : cst_dict) : outcome (list stmt) :=
  match node with
  | Dict _ _ (Some (_ :: stmts_node :: _)) =>
      match stmts_node with
      | Dict _ _ (Some stmts) => map_outcome convert_statement stmts
      | Dict _ _ None => Ok []
      end
  | _ => Ok []
  end.

Definition convert_if_with (convert_block : cst_dict -> outcome (list stmt))
    (node : cst_dict) : outcome stmt :=
  match node with
  | Dict _ _ None => Raise (KeyError "children")
  | Dict _ _ (Some (_ :: _ :: cond_node :: _ :: block_node :: else_part :: _)) =>
      alternate <-
        match else_part with
        | Dict _ _ (Some (_ :: else_others)) =>
            match else_others with
            | else_block :: _ => a <- convert_block else_block ;; Ok (Some a)
            | [] => Raise IndexError
            end
        | Dict _ _ (Some []) | Dict _ _ None => Ok None
        end ;;
      test <- convert_condition cond_node ;;
      consequent <- convert_block block_node ;;
      Ok (IfStmt test consequent alternate)
  | Dict _ _ (Some _) => Raise IndexError
  end.

Definition convert_while_with (convert_block : cst_dict -> outcome (list stmt))
    (node : cst_dict) : outcome stmt :=
  match node with
  | Dict _ _ None => Raise (KeyError "children")
  | Dict _ _ (Some (_ :: _ :: cond_node :: _ :: block_node :: _)) =>
      test <- convert_condition cond_node ;;
      body <- convert_block block_node ;;
      Ok (WhileStmt test body)
  | Dict _ _ (Some _) => Raise IndexError
  end.

Fixpoint convert_statement (stmt_cst : cst_dict) {struct stmt_cst}
  : outcome stmt :=
  let t := type_of stmt_cst in
  if str_eq t "ASSIGNMENT" then convert_assignment stmt_cst
  else if str_eq t "IF_STATEMENT"
  then convert_if_with (convert_block_with convert_statement) stmt_cst
  else if str_eq t "WHILE_STATEMENT"
  then convert_while_with (convert_block_with convert_statement) stmt_cst
  else if str_eq t "ACTION" then convert_action stmt_cst
  else if str_eq t "BLOCK" then
    stmt_list <- convert_block_with convert_statement stmt_cst ;;
    Ok (BlockList stmt_list)
  else Ok NoneStmt.

Definition convert_block : cst_dict -> outcome (list stmt) :=
  convert_block_with convert_statement.

(** Traverses the CST and returns the AST, or [None]. *)
Definition convert_cst_to_ast (cst_node : cst_dict) : outcome (option Program) :=
  if str_eq (type_of cst_node) "PROGRAM" then
    match cst_node with
    | Dict _ _ None => Ok None
    | Dict _ _ (Some children) =>
        program_name <- (c <- subscript children 1 ;; value_of c) ;;
        decls <-
          (if (4 <? length children)%nat then
             decl_node <- subscript children 4 ;;
             map_outcome convert_declaration (get_children decl_node)
           else Ok []) ;;
        stmts <-
          (if (5 <? length children)%nat then
             stmts_node <- subscript children 5 ;;
             map_outcome convert_statement (get_children stmts_node)
           else Ok []) ;;
        Ok (Some (mkProgram program_name (decls ++ stmts)))
    end
  else Ok None.

End Converter.

(* ====================================================================== *)
(** ** Symbols and scopes (symbols.py) *)
(* ====================================================================== *)

Record Symbol : Type := mkSymbol {
  sym_name : string;
  sym_category : string;   (* "const" or "var" *)
  sym_type : string;       (* "int", "bool", "direction" *)
  sym_node : option stmt;
  sym_pos : option Z;
  sym_level : Z
}.

Module Scope.

#[local] Unset Elimination Schemes.
Inductive t : Type :=
| Build (parent : option t) (level : Z) (names : gmap string Symbol).
#[local] Set Elimination Schemes.

Definition parent (s : t) : option t := match s with Build p _ _ => p end.
Definition level (s : t) : Z := match s with Build _ l _ => l end.
Definition names (s : t) : gmap string Symbol :=
  match s with Build _ _ n => n end.

(** [Scope(parent, level)] *)
Definition init (parent : option t) (level : Z) : t := Build parent level ∅.

(** [str(KeyError(m))] is the [repr] of [m]. *)
Definition duplicate_msg (name : string) : string :=
  "Duplicate declaration: " +:+ name.

Definition declare (name category var_type : string) (node : option stmt)
    (pos : option Z) (s : t) : outcome t :=
  match names s !! name with
  | Some _ => Raise (KeyError (duplicate_msg name))
  | None =>
      Ok (Build (parent s) (level s)
            (<[name := mkSymbol name category var_type node pos (level s)]>
               (names s)))
  end.

Fixpoint resolve (name : string) (s : t) : option Symbol :=
  match s with
  | Build p _ ns =>
      match ns !! name with
      | Some sym => Some sym
      | None =>
          match p with
          | Some ps => resolve name ps
          | None => None
          end
      end
  end.

End Scope.

(* ====================================================================== *)
(** ** Semantic analysis (semantic.py) *)
(* ====================================================================== *)

(** A diagnostic [{"code": ..., "msg": ...}]. *)
Record diagnostic : Type := mkDiag {
  code : string;
  msg : string
}.

Module Semantic.

(** [str(e)] for [e = KeyError(m)]: the message in quotes. *)
Definition str_of_key_error (m : string) : string := "'" +:+ m +:+ "'".

(** The body of the declaration pass for one statement; the state is the
    global scope with the list of errors. *)
Definition declare_stmt (s : stmt) (st : Scope.t * list diagnostic)
  : (Scope.t * list diagnostic) * outcome unit :=
  let '(global_scope, errors) := st in
  let declare_as (category name var_type : string) :=
    match Scope.declare name category var_type (Some s) None global_scope with
    | Ok scope' => ((scope', errors), Ok tt)
    | Raise (KeyError m) =>
        ((global_scope, (errors ++ [mkDiag "E_DUP_DECL" (str_of_key_error m)])%list),
         Ok tt)
    | Raise e => (st, Raise e)
    end in
  match s with
  | ConstDecl name var_type _ => declare_as "const" name var_type
  | VarDecl name var_type _ => declare_as "var" name var_type
  | Assign _ _ | IfStmt _ _ _ | WhileStmt _ _ | ActionStmt _ => (st, Ok tt)
  | BlockList _ | NoneStmt => (st, Raise AttributeError)
  end.

Fixpoint resolve_node (scope : Scope.t) (e : expr) (errors : list diagnostic)
    {struct e} : list diagnostic :=
  match e with
  | Identifier name =>
      match Scope.resolve name scope with
      | Some _ => errors
      | None =>
          (errors ++ [mkDiag "E_UNDEFINED" ("Undefined identifier: " +:+ name)])%list
      end
  | BinaryExpr _ l r =>
      let errors :=
        match l with
        | Some l' => resolve_node scope l' errors
        | None => errors
        end in
      match r with
      | Some r' => resolve_node scope r' errors
      | None => errors
      end
  | Literal _ => errors
  end.

Definition resolve_expr (expr : option expr) (scope : Scope.t)
    (errors : list diagnostic) : list diagnostic :=
  match expr with
  | None => errors
  | Some e => resolve_node scope e errors
  end.

(** The check of the target of an [Assign]. *)
Definition check_target (name : string) (scope : Scope.t)
    (errors : list diagnostic) : list diagnostic :=
  match Scope.resolve name scope with
  | None =>
      (errors ++ [mkDiag "E_UNDEFINED" ("Undefined variable: " +:+ name)])%list
  | Some sym =>
      if str_eq (sym_category sym) "const"
      then (errors ++ [mkDiag "E_CONST_ASSIGN"
                             ("Cannot reassign constant: " +:+ name)])%list
      else errors
  end.

(** The body of the loop of [check_statements] for one statement. *)
Fixpoint check_statement (scope : Scope.t) (s : stmt) (errors : list diagnostic)
    {struct s} : list diagnostic * outcome unit :=
  match s with
  | Assign target value =>
      let errors := check_target target scope errors in
      (resolve_expr value scope errors, Ok tt)
  | ActionStmt _ => (errors, Ok tt)
  | IfStmt test consequent alternate =>
      let errors := resolve_expr test scope errors in
      match for_each (check_statement scope) consequent errors with
      | (errors, Ok _) =>
          match alternate with
          | Some (s0 :: alt) => for_each (check_statement scope) (s0 :: alt) errors
          | Some [] | None => (errors, Ok tt)
          end
      | (errors, Raise e) => (errors, Raise e)
      end
  | WhileStmt test body =>
      let errors := resolve_expr test scope errors in
      for_each (check_statement scope) body errors
  | ConstDecl _ _ _ | VarDecl _ _ _ => (errors, Ok tt)
  | BlockList _ | NoneStmt => (errors, Raise AttributeError)
  end.

Definition check_statements (statements : list stmt) (scope : Scope.t)
    (errors : list diagnostic) : list diagnostic * outcome unit :=
  for_each (check_statement scope) statements errors.

Definition analyze (ast : Program) : outcome (list diagnostic) :=
  let errors : list diagnostic := [] in
  let global_scope := Scope.init None 0 in
  (* declaration pass *)
  match for_each declare_stmt (prog_body ast) (global_scope, errors) with
  | (_, Raise e) => Raise e
  | ((global_scope, errors), Ok _) =>
      (* resolution pass *)
      match check_statements (prog_body ast) global_scope errors with
      | (_, Raise e) => Raise e
      | (errors, Ok _) => Ok errors
      end
  end.

End Semantic.

(* ====================================================================== *)
(** ** The pipeline (interpreter.py, main) *)
(* ====================================================================== *)

Module Main.

(** How a run of [main] ends. *)
Inductive ending : Type :=
| Uncaught (e : exn)
    (* an exception of the front end, raised outside the [try] *)
| SemanticExit (errors : list diagnostic)
    (* [sys.exit(1)] after the semantic errors; no interpreter is created *)
| RuntimeExit (e : exn) (it : Interpreter.t)
    (* [sys.exit(1)] from an [except] clause around [interpreter.run()] *)
| Success (it : Interpreter.t).

(** Create the interpreter with the default 5x5 grid and run the program. *)
Definition interpret (ast : Program) : ending :=
  let interpreter := Interpreter.set_grid (Some (GridWorld.init 5 5)) Interpreter.init in
  match Interpreter.run ast interpreter with
  | (it, Ok _) => Success it
  | (it, Raise e) => RuntimeExit e it
  end.

(** The front end: lexical analysis, parsing, AST conversion. *)
Definition front_end (source : string) : outcome (option Program) :=
  let tokens := Lexer.get_token_stream source in
  cst_root <- Parser.parse_program tokens ;;
  let cst := to_dict cst_root in
  Converter.convert_cst_to_ast cst.

(** [main] on a [.clean] source file. *)
Definition run_source (source : string) : ending :=
  match front_end source with
  | Raise e => Uncaught e
  | Ok None => Uncaught AttributeError
  | Ok (Some ast) =>
      match Semantic.analyze ast with
      | Raise e => Uncaught e
      | Ok (d :: errors) => SemanticExit (d :: errors)
      | Ok [] => interpret ast
      end
  end.

(** [main] on a [.json] file holding an AST. *)
Definition run_ast (ast : Program) : ending := interpret ast.

End Main.

(* ====================================================================== *)
(** ** Vocabulary of the properties *)
(* ====================================================================== *)

Module GridSpec.
Import GridWorld.

(** The cell [(x, y)] lies on the grid of [g]. *)
Definition inside (g : t) (x y : Z) : Prop :=
  0 <= x < width g /\ 0 <= y < height g.

(** One step in a facing direction; rows are numbered from the north. *)
Definition offset (facing : string) : Z * Z :=
  if str_eq facing "north" then (0, -1)
  else if str_eq facing "east" then (1, 0)
  else if str_eq facing "south" then (0, 1)
  else if str_eq facing "west" then (-1, 0)
  else (0, 0).

(** The cell one step ahead of the agent. *)
Definition ahead (g : t) : Z * Z :=
  (agent_x g + fst (offset (agent_direction g)),
   agent_y g + snd (offset (agent_direction g))).

Definition with_position (x y : Z) (g : t) : t :=
  Build (width g) (height g) x y (agent_direction g) (dirt g).

(** The operations of a grid world. *)
Inductive op : Type := Move | TurnLeft | TurnRight | Clean | Sense.

(** Calling an operation: the grid as the call leaves it, whether it
    returns or raises. *)
Definition call (o : op) (g : t) : t :=
  match o with
  | Move => fst (move g)
  | TurnLeft => fst (turn_left g)
  | TurnRight => fst (turn_right g)
  | Clean => fst (clean g)
  | Sense => let _ := sense g in g
  end.

(** The grids after each operation of a sequence, in order. *)
Fixpoint states_after (ops : list op) (g : t) : list t :=
  match ops with
  | [] => []
  | o :: ops' => call o g :: states_after ops' (call o g)
  end.

End GridSpec.

Module LoopSpec.
Import Interpreter.

(** The interpreter after [n] iterations of a loop, each entered on a
    true test and completed by its body; [None] if the test is false or
    raises, or the body raises, before that. *)
Fixpoint body_runs (run_body : t -> t * outcome unit) (test : option expr)
    (n : nat) (it : t) : option t :=
  match n with
  | O => Some it
  | S n' =>
      match evaluate_expr it test with
      | Ok c =>
          if Py.truthy c then
            match run_body it with
            | (it', Ok _) => body_runs run_body test n' it'
            | (_, Raise _) => None
            end
          else None
      | Raise _ => None
      end
  end.

(** The test evaluates to a value of the given truth value. *)
Definition test_is (b : bool) (test : option expr) (it : t) : Prop :=
  exists c, evaluate_expr it test = Ok c /\ Py.truthy c = b.

End LoopSpec.

Module AstSpec.

Definition in_slot (f : expr -> bool) (slot : option expr) : bool :=
  match slot with
  | Some e => f e
  | None => false
  end.

(** The expression contains [Identifier name]. *)
Fixpoint expr_mentions (name : string) (e : expr) : bool :=
  match e with
  | Literal _ => false
  | Identifier n => str_eq n name
  | BinaryExpr _ l r =>
      match l with Some l' => expr_mentions name l' | None => false end
      || match r with Some r' => expr_mentions name r' | None => false end
  end.

(** Some expression of the statement contains [Identifier name]:
    initializers of declarations, assigned values, tests, at any depth. *)
Fixpoint stmt_mentions (name : string) (s : stmt) : bool :=
  match s with
  | ConstDecl _ _ e | VarDecl _ _ e | Assign _ e =>
      in_slot (expr_mentions name) e
  | IfStmt test consequent alternate =>
      in_slot (expr_mentions name) test
      || existsb (stmt_mentions name) consequent
      || match alternate with
         | Some alt => existsb (stmt_mentions name) alt
         | None => false
         end
  | WhileStmt test body =>
      in_slot (expr_mentions name) test || existsb (stmt_mentions name) body
  | BlockList stmts => existsb (stmt_mentions name) stmts
  | ActionStmt _ | NoneStmt => false
  end.

(** Some expression of the statement that the resolution pass walks
    contains [Identifier name]: assigned values and the tests of [if] and
    [while], at any depth of their blocks. *)
Fixpoint walked_mentions (name : string) (s : stmt) : bool :=
  match s with
  | Assign _ e => in_slot (expr_mentions name) e
  | IfStmt test consequent alternate =>
      in_slot (expr_mentions name) test
      || existsb (walked_mentions name) consequent
      || match alternate with
         | Some alt => existsb (walked_mentions name) alt
         | None => false
         end
  | WhileStmt test body =>
      in_slot (expr_mentions name) test || existsb (walked_mentions name) body
  | ConstDecl _ _ _ | VarDecl _ _ _ | ActionStmt _ | BlockList _ | NoneStmt =>
      false
  end.

(** The statement and the statements of its blocks are nodes (dicts):
    none is a bare list or [None]. *)
Fixpoint dict_nodes (s : stmt) : bool :=
  match s with
  | ConstDecl _ _ _ | VarDecl _ _ _ | Assign _ _ | ActionStmt _ => true
  | IfStmt _ consequent alternate =>
      forallb dict_nodes consequent
      && match alternate with
         | Some alt => forallb dict_nodes alt
         | None => true
         end
  | WhileStmt _ body => forallb dict_nodes body
  | BlockList _ | NoneStmt => false
  end.

(** The statement declares [name]. *)
Definition declares (name : string) (s : stmt) : bool :=
  match s with
  | ConstDecl id _ _ | VarDecl id _ _ => str_eq id name
  | _ => false
  end.

Definition undefined (d : diagnostic) : Prop := code d = "E_UNDEFINED".

(** What the resolution pass does on a statement made of nodes: it
    returns, keeps the errors found so far and appends its own, among
    them an [E_UNDEFINED] if it walks over an unresolved name. *)
Definition walks (name : string) (scope : Scope.t) (s : stmt) : Prop :=
  dict_nodes s = true ->
  forall errors, exists extra,
    Semantic.check_statement scope s errors = ((errors ++ extra)%list, Ok tt)
    /\ (walked_mentions name s = true -> Exists undefined extra).

End AstSpec.

Module LexerSpec.

(** A pattern matches a non-empty prefix of the text and returns what
    follows it. *)
Definition sound (p : Lexer.pattern) : Prop :=
  forall prev s v r, p prev s = Some (v, r) -> s = v +:+ r /\ v <> "".

End LexerSpec.

Module ParserSpec.

(** [m'] behaves as [m] wherever [m] does not run out of depth. *)
Definition agrees {A : Type} (m m' : Parser.M A) : Prop :=
  forall p, snd (m p) <> Raise RecursionError -> m' p = m p.

(** The number of tokens not yet consumed. *)
Definition remaining (p : Parser.t) : nat :=
  (length (Parser.tokens p) - Parser.pos p)%nat.

(** The current token is the one at the position. *)
Definition wf (p : Parser.t) : Prop :=
  Parser.current_token p = nth_error (Parser.tokens p) (Parser.pos p).

(** On every parser with at most [r] tokens left, [m] does not run out of
    depth and, when it returns, has consumed at least [n] tokens. *)
Definition safe {A : Type} (r n : nat) (m : Parser.M A) : Prop :=
  forall p, wf p -> (remaining p <= r)%nat ->
    snd (m p) <> Raise RecursionError
    /\ forall p' a,
         m p = (p', Ok a) -> wf p' /\ (remaining p' + n <= remaining p)%nat.

End ParserSpec.

Module Examples.

(** An interpreter whose only variable, [n], holds [k]. *)
Definition counter_at (k : Z) : Interpreter.t :=
  Interpreter.Build (Environment.Env {[ "n" := VInt k ]} None) None ∅.

(** [n = n + 1;] *)
Definition increment : stmt :=
  Assign "n" (Some (BinaryExpr "+" (Some (Identifier "n"))
                                   (Some (Literal (VInt 1))))).

(** [n < 3] *)
Definition below_three : option expr :=
  Some (BinaryExpr "<" (Some (Identifier "n")) (Some (Literal (VInt 3)))).

(** [n / 0] *)
Definition n_over_zero : option expr :=
  Some (BinaryExpr "/" (Some (Identifier "n")) (Some (Literal (VInt 0)))).

(** The CST of a numeric literal as a factor and as a term. *)
Definition literal_factor (digits : string) : cst_dict :=
  Dict "FACTOR" None
    (Some [Dict "LITERAL" None (Some [Dict "TERMINAL" (Some digits) None])]).

Definition literal_term (digits : string) : cst_dict :=
  Dict "TERM" None (Some [literal_factor digits; Dict "TERM_TAIL" None None]).

Definition plus : cst_dict :=
  Dict "ADD_OP" None (Some [Dict "TERMINAL" (Some "+") None]).

(** The tail [+ 3] with nothing after it. *)
Definition plus_three : cst_dict :=
  Dict "EXPRESSION_TAIL" None
    (Some [plus; literal_term "3"; Dict "EXPRESSION_TAIL" None None]).

(** The CST of [1 + 2] followed by the given nested tail. *)
Definition one_plus_two (nested : list cst_dict) : cst_dict :=
  Dict "EXPRESSION" None
    (Some [literal_term "1";
           Dict "EXPRESSION_TAIL" None (Some (plus :: literal_term "2" :: nested))]).

(** [const x: int = 5;] followed by [x = 6;] *)
Definition const_source : string :=
  "program p { grid(5,5); const x: int = 5; x = 6; }".

Definition const_ast : Program :=
  mkProgram "p" [ConstDecl "x" "int" (Some (Literal (VInt 5)));
                 Assign "x" (Some (Literal (VInt 6)))].

(** [sense] in the initializer of a declaration. *)
Definition sense_init_source : string :=
  "program p { grid(5,5); var b: bool = sense; }".

Definition sense_init_ast : Program :=
  mkProgram "p" [VarDecl "b" "bool" (Some (Identifier "sense"))].

(** [sense] in the test of a loop. *)
Definition sense_loop_source : string :=
  "program p { grid(5,5); while (sense) { clean; } }".

Definition sense_loop_ast : Program :=
  mkProgram "p" [WhileStmt (Some (Identifier "sense")) [ActionStmt "clean"]].

(** A loop on [true] whose body fails: the agent starts at (0, 0) facing
    north. *)
Definition move_forever_source : string :=
  "program p { grid(5,5); while (true) { move; } }".

Definition move_forever : stmt :=
  WhileStmt (Some (Literal (VBool true))) [ActionStmt "move"].

(** A loop on [true] around a loop on [true]. *)
Definition loop_in_loop : stmt :=
  WhileStmt (Some (Literal (VBool true)))
    [WhileStmt (Some (Literal (VBool true))) []].

(** The interpreter that [main] creates. *)
Definition fresh : Interpreter.t :=
  Interpreter.set_grid (Some (GridWorld.init 5 5)) Interpreter.init.

(** [a / b] on two numbers. *)
Definition quotient (a b : Z) : option expr :=
  Some (BinaryExpr "/" (Some (Literal (VInt a))) (Some (Literal (VInt b)))).

End Examples.

(* ====================================================================== *)
(** ** Vocabulary of the further properties *)
(* ====================================================================== *)

Module EnvSpec.

(** The name is bound in the environment or in one of its parents. *)
Fixpoint bound (name : string) (e : Environment.t) : bool :=
  match e with
  | Environment.Env vs p =>
      bool_decide (is_Some (vs !! name))
      || match p with
         | Some pe => bound name pe
         | None => false
         end
  end.

Definition undefined_variable (name : string) : exn :=
  RuntimeError ("Undefined variable: " +:+ name).

End EnvSpec.

Module TurnSpec.
Import GridWorld.

(** The facing opposite to a facing. *)
Definition opposite (facing : string) : string :=
  if str_eq facing "north" then "south"
  else if str_eq facing "south" then "north"
  else if str_eq facing "east" then "west"
  else if str_eq facing "west" then "east"
  else facing.

(** Two turns to the right. *)
Definition turn_around (g : t) : t := fst (turn_right (fst (turn_right g))).

End TurnSpec.

Module RunSpec.
Import Interpreter.

(** The interpreter holds a grid world as a run of [main] can reach it:
    5 by 5, the agent on it and facing one of the four directions, dirt
    only where the fresh grid has some. *)
Definition grid_ok (it : t) : Prop :=
  exists g, grid it = Some g
    /\ GridWorld.width g = 5 /\ GridWorld.height g = 5
    /\ GridSpec.inside g (GridWorld.agent_x g) (GridWorld.agent_y g)
    /\ In (GridWorld.agent_direction g) GridWorld.DIRECTIONS
    /\ GridWorld.dirt g ⊆ GridWorld.dirt (GridWorld.init 5 5).

(** A [RuntimeError], the [TypeError] of an operator applied to operands
    it is not defined on, or the [OverflowError] or [MemoryError] of a
    string too long to build. *)
Definition run_time_error (e : exn) : Prop :=
  (exists msg, e = RuntimeError msg) \/ e = TypeError
  \/ e = OverflowError \/ e = MemoryError.

(** [m] keeps the property [P] of the interpreter, whether it returns or
    raises, and raises only exceptions of the class [E]. *)
Definition keeps (P : t -> Prop) (E : exn -> Prop)
    (m : t -> t * outcome unit) : Prop :=
  forall it, P it -> P (fst (m it)) /\ forall e, snd (m it) = Raise e -> E e.

(** The statement, or a statement of its blocks, declares [name]. *)
Fixpoint redeclares (name : string) (s : stmt) : bool :=
  match s with
  | ConstDecl id _ _ | VarDecl id _ _ => str_eq id name
  | IfStmt _ consequent alternate =>
      existsb (redeclares name) consequent
      || match alternate with
         | Some alt => existsb (redeclares name) alt
         | None => false
         end
  | WhileStmt _ body => existsb (redeclares name) body
  | BlockList stmts => existsb (redeclares name) stmts
  | Assign _ _ | ActionStmt _ | NoneStmt => false
  end.

(** The statements that do one thing: declarations, assignments and
    actions. *)
Definition simple (s : stmt) : bool :=
  match s with
  | ConstDecl _ _ _ | VarDecl _ _ _ | Assign _ _ | ActionStmt _ => true
  | _ => false
  end.

(** The value of a variable declared without initializer. *)
Definition default_value (var_type : string) : value :=
  if str_eq var_type "int" then VInt 0
  else if str_eq var_type "bool" then VBool false
  else if str_eq var_type "direction" then VStr "north"
  else VNone.

(** The value that a declaration gives to its name, from the state
    before it. *)
Definition declared_value (s : stmt) (it : t) : outcome value :=
  match s with
  | ConstDecl _ _ e => evaluate_expr it e
  | VarDecl _ var_type (Some e) => evaluate_expr it (Some e)
  | VarDecl _ var_type None => Ok (default_value var_type)
  | _ => Ok VNone
  end.

(** [sub] is an operand of [e] that [evaluate_expr] evaluates: [e]
    itself, or such an operand of its left operand or, unless the
    operator is [not], of its right operand. *)
Fixpoint operand_of (sub : expr) (e : expr) : Prop :=
  sub = e
  \/ match e with
     | BinaryExpr operator l r =>
         match l with Some l' => operand_of sub l' | None => False end
         \/ (operator <> "not"
             /\ match r with Some r' => operand_of sub r' | None => False end)
     | _ => False
     end.

End RunSpec.

Module SemSpec.

(** The name a statement declares. *)
Definition declared_name (s : stmt) : option string :=
  match s with
  | ConstDecl id _ _ | VarDecl id _ _ => Some id
  | _ => None
  end.

(** The names declared at the top level, in the order of the body. *)
Definition declared_names (body : list stmt) : list string :=
  omap declared_name body.

(** The statement declares [name] with [var]. *)
Definition declares_var (name : string) (s : stmt) : bool :=
  match s with
  | VarDecl id _ _ => str_eq id name
  | _ => false
  end.

(** The statement, or a statement of the blocks that the resolution pass
    walks, assigns to [name]. *)
Fixpoint assigns (name : string) (s : stmt) : bool :=
  match s with
  | Assign target _ => str_eq target name
  | IfStmt _ consequent alternate =>
      existsb (assigns name) consequent
      || match alternate with
         | Some alt => existsb (assigns name) alt
         | None => false
         end
  | WhileStmt _ body => existsb (assigns name) body
  | _ => false
  end.

Definition duplicate (d : diagnostic) : Prop := code d = "E_DUP_DECL".

(** The category under which the declaration pass declares a statement. *)
Definition category (s : stmt) : string :=
  match s with
  | ConstDecl _ _ _ => "const"
  | _ => "var"
  end.

(** The diagnostics of the declaration pass for the names declared after
    the names [seen]: one for every declaration of a name that is
    declared already, in the order of the declarations. *)
Fixpoint duplicates (seen names : list string) : list diagnostic :=
  match names with
  | [] => []
  | n :: names' =>
      if str_in n seen
      then mkDiag "E_DUP_DECL"
             (Semantic.str_of_key_error (Scope.duplicate_msg n))
           :: duplicates seen names'
      else duplicates (n :: seen) names'
  end.

(** The resolution pass finds nothing to report in the statement. *)
Definition accepts (scope : Scope.t) (s : stmt) : Prop :=
  Semantic.check_statement scope s [] = ([], Ok tt).

(** A pass over the list of errors that appends the same diagnostics
    to whatever list it is given. *)
Definition appends {A : Type}
    (m : list diagnostic -> list diagnostic * outcome A)
    (extra : list diagnostic) (r : outcome A) : Prop :=
  forall errors, m errors = ((errors ++ extra)%list, r).

(** A diagnostic of the resolution pass. *)
Definition unresolved (d : diagnostic) : Prop :=
  code d = "E_UNDEFINED" \/ code d = "E_CONST_ASSIGN".

(** Every name that the resolution pass meets in the statement resolves,
    and every assigned name to a symbol that is not a constant. *)
Definition well_scoped (scope : Scope.t) (s : stmt) : Prop :=
  AstSpec.dict_nodes s = true
  /\ (forall name, AstSpec.walked_mentions name s = true ->
                   Scope.resolve name scope <> None)
  /\ (forall name, assigns name s = true ->
                   exists sym, Scope.resolve name scope = Some sym
                               /\ str_eq (sym_category sym) "const" = false).

(** The statement is a node (a dict), whatever its blocks hold. *)
Definition is_node (s : stmt) : bool :=
  match s with
  | BlockList _ | NoneStmt => false
  | _ => true
  end.

(** The statement without the initializer of its declaration. *)
Definition forget_initializer (s : stmt) : stmt :=
  match s with
  | ConstDecl id ty _ => ConstDecl id ty None
  | VarDecl id ty _ => VarDecl id ty None
  | _ => s
  end.

(** Two scopes bind the same names in the same categories. *)
Definition same_categories (a b : Scope.t) : Prop :=
  forall name,
    sym_category <$> Scope.resolve name a = sym_category <$> Scope.resolve name b.

End SemSpec.

Module TokenSpec.
Import Lexer.

(** The kinds of match that the scanning loop does not append. *)
Definition dropped : list string := ["NEWLINE"; "SKIP"; "COMMENT"; "MISMATCH"].

(** The kinds of token whose text is one of a few words or signs. *)
Definition fixed_texts : list (string * list string) :=
  [ ("GRID", ["grid"]); ("PROGRAM", ["program"]); ("CONST", ["const"]);
    ("VAR", ["var"]); ("TYPE_INT", ["int"]); ("TYPE_BOOL", ["bool"]);
    ("TYPE_DIRECTION", ["direction"]); ("WHILE", ["while"]); ("IF", ["if"]);
    ("ELSE", ["else"]); ("MOVE", ["move"]); ("TURN_LEFT", ["turnLeft"]);
    ("TURN_RIGHT", ["turnRight"]); ("SENSE", ["sense"]); ("CLEAN", ["clean"]);
    ("BOOL_LITERAL", ["true"; "false"]);
    ("DIRECTION_LITERAL", ["north"; "south"; "east"; "west"]);
    ("AND", ["and"]); ("OR", ["or"]); ("NOT", ["not"]);
    ("EQ", ["=="]); ("NEQ", ["!="]); ("LE", ["<="]); ("GE", [">="]);
    ("LT", ["<"]); ("GT", [">"]); ("ASSIGN", ["="]); ("PLUS", ["+"]);
    ("MINUS", ["-"]); ("MUL", ["*"]); ("DIV", ["/"]); ("LPAREN", ["("]);
    ("RPAREN", [")"]); ("LBRACE", ["{"]); ("RBRACE", ["}"]);
    ("SEMICOLON", [";"]); ("COLON", [":"]); ("COMMA", [","]);
    ("NEWLINE", [String newline EmptyString]) ].

Fixpoint assoc (kind : string) (table : list (string * list string))
  : option (list string) :=
  match table with
  | [] => None
  | (k, texts) :: table' => if str_eq k kind then Some texts else assoc kind table'
  end.

Fixpoint all_chars (p : ascii -> bool) (s : string) : bool :=
  match s with
  | EmptyString => true
  | String c s' => p c && all_chars p s'
  end.

(** The text that a match of a kind can have. *)
Definition spelling (kind value : string) : Prop :=
  match assoc kind fixed_texts with
  | Some texts => In value texts
  | None =>
      if str_eq kind "INT_LITERAL" then Converter.isdigit value = true
      else if str_eq kind "ID"
      then match value with
           | String c body => is_id_start c = true /\ all_chars is_word body = true
           | EmptyString => False
           end
      else if str_eq kind "STRING_LITERAL"
      then exists body,
             value = String dquote (body +:+ String dquote EmptyString)
             /\ all_chars is_string_char body = true
      else str_in kind ["COMMENT"; "SKIP"; "MISMATCH"] = true
  end.

(** The number of newline characters of a text. *)
Fixpoint newlines (s : string) : Z :=
  match s with
  | EmptyString => 0
  | String c s' => (if Ascii.eqb c newline then 1 else 0) + newlines s'
  end.

(** The line numbers of the tokens start at [line] or later and never
    decrease. *)
Fixpoint ascending (line : Z) (tokens : list token) : Prop :=
  match tokens with
  | [] => True
  | t :: tokens' => line <= tok_line t /\ ascending (tok_line t) tokens'
  end.

(** The characters of the texts of the tokens, in order. *)
Definition texts (tokens : list token) : list ascii :=
  concat (map (fun t => list_ascii_of_string (tok_value t)) tokens).

End TokenSpec.

Module TreeSpec.
Import Parser.

(** The texts of the terminals of a tree, from left to right. *)
Fixpoint leaves (n : CSTNode) : list string :=
  match n with
  | Node _ value children =>
      (match value with Some v => [v] | None => [] end
       ++ (fix all (l : list CSTNode) : list string :=
             match l with
             | [] => []
             | c :: l' => leaves c ++ all l'
             end) children)%list
  end.

Definition leaves_of (l : list CSTNode) : list string :=
  concat (map leaves l).

(** The tokens from position [i] up to position [j]. *)
Definition between (i j : nat) (tokens : list token) : list token :=
  take (j - i) (drop i tokens).

(** The parser with more tokens after those it has. *)
Definition extend (extra : list token) (p : t) : t :=
  Build (tokens p ++ extra) (pos p) (nth_error (tokens p ++ extra) (pos p)).

(** What a method of the parser that returns a tree does when it returns:
    it moves forward over the tokens whose texts are the leaves of the
    tree, and it does the same when more tokens follow the one it stops
    at. *)
Definition reads {A : Type} (texts : A -> list string) (m : M A) : Prop :=
  forall p p' a,
    ParserSpec.wf p -> m p = (p', Ok a) ->
    ParserSpec.wf p'
    /\ tokens p' = tokens p
    /\ (pos p <= pos p')%nat
    /\ map tok_value (between (pos p) (pos p') (tokens p)) = texts a
    /\ forall extra,
         (pos p' < length (tokens p))%nat ->
         m (extend extra p) = (extend extra p', Ok a).

(** A method of the parser raises nothing but syntax errors, or the
    exhaustion of the depth budget. *)
Definition fails_as_syntax {A : Type} (m : M A) : Prop :=
  forall p e, snd (m p) = Raise e ->
              e = RecursionError \/ exists msg, e = SyntaxError msg.

End TreeSpec.

Module ParseExamples.

(** The smallest program. *)
Definition tiny_source : string := "program p { grid(5,5); }".

Definition tiny_tokens : list token := Lexer.get_token_stream tiny_source.

Definition tiny_cst : CSTNode :=
  match Parser.parse_program tiny_tokens with
  | Ok cst => cst
  | Raise _ => Node "" None []
  end.




(** Text after the closing brace of the program. *)
Definition trailing_tokens : list token :=
  Lexer.get_token_stream "} move; 42".

End ParseExamples.

Module ConvSpec.

(** The exceptions of a failed lookup in a dictionary or a list. *)
Definition lookup_error (e : exn) : Prop :=
  e = IndexError \/ exists key, e = KeyError key.

(** The exceptions of the converter: a failed lookup, and the
    [ValueError] of an integer literal of too many digits. *)
Definition conversion_error (e : exn) : Prop :=
  lookup_error e \/ e = ValueError.

(** The height of a dictionary as a tree. *)
Fixpoint height (d : cst_dict) : nat :=
  match d with
  | Dict _ _ children =>
      match children with
      | Some cs =>
          S ((fix highest (l : list cst_dict) : nat :=
                match l with
                | [] => O
                | c :: l' => Nat.max (height c) (highest l')
                end) cs)
      | None => O
      end
  end.

Definition highest (l : list cst_dict) : nat :=
  fold_right (fun c n => Nat.max (height c) n) O l.

End ConvSpec.

Module PipelineSpec.

(** A diagnostic of the semantic analysis. *)
Definition semantic_error (d : diagnostic) : Prop :=
  SemSpec.duplicate d \/ SemSpec.unresolved d.

(** An exception of the front end: of the parser, of the converter, of
    the analysis, or of Python itself when calls are nested deeper than
    its recursion limit allows. *)
Definition front_end_error (e : exn) : Prop :=
  (exists msg, e = SyntaxError msg) \/ ConvSpec.conversion_error e
  \/ e = AttributeError \/ e = RecursionError.

End PipelineSpec.

Module FrontSpec.
Import Converter.












End FrontSpec.

Module WordSpec.

(** The words that the lexer does not take for identifiers. *)
Definition reserved : list string :=
  ["grid"; "program"; "const"; "var"; "int"; "bool"; "direction"; "while";
   "if"; "else"; "move"; "turnLeft"; "turnRight"; "sense"; "clean"; "true";
   "false"; "north"; "south"; "east"; "west"; "and"; "or"; "not"].

(** A letter or underscore followed by letters, digits and underscores. *)
Definition identifier_text (s : string) : bool :=
  match s with
  | String c body => Lexer.is_id_start c && TokenSpec.all_chars Lexer.is_word body
  | EmptyString => false
  end.

End WordSpec.

(* ====================================================================== *)
(** ** Induction over the syntax trees *)
(* ====================================================================== *)

Section ExprInduction.
Variable P : expr -> Prop.
Hypothesis HLiteral : forall v, P (Literal v).
Hypothesis HIdentifier : forall name, P (Identifier name).
Hypothesis HBinary : forall op l r,
    match l with Some e => P e | None => True end ->
    match r with Some e => P e | None => True end ->
    P (BinaryExpr op l r).

Fixpoint expr_induction (e : expr) : P e :=
  match e with
  | Literal v => HLiteral v
  | Identifier name => HIdentifier name
  | BinaryExpr op l r =>
      HBinary op l r
        (match l with Some e' => expr_induction e' | None => I end)
        (match r with Some e' => expr_induction e' | None => I end)
  end.
End ExprInduction.

Section StmtInduction.
Variable P : stmt -> Prop.
Hypothesis HConst : forall id ty v, P (ConstDecl id ty v).
Hypothesis HVar : forall id ty v, P (VarDecl id ty v).
Hypothesis HAssign : forall target v, P (Assign target v).
Hypothesis HIf : forall test consequent alternate,
    Forall P consequent ->
    match alternate with Some alt => Forall P alt | None => True end ->
    P (IfStmt test consequent alternate).
Hypothesis HWhile : forall test body, Forall P body -> P (WhileStmt test body).
Hypothesis HAction : forall action, P (ActionStmt action).
Hypothesis HBlock : forall stmts, Forall P stmts -> P (BlockList stmts).
Hypothesis HNone : P NoneStmt.

Fixpoint stmt_induction (s : stmt) : P s :=
  let all := fix all (l : list stmt) : Forall P l :=
    match l with
    | [] => @List.Forall_nil stmt P
    | s' :: l' => @List.Forall_cons stmt P s' l' (stmt_induction s') (all l')
    end in
  match s with
  | ConstDecl id ty v => HConst id ty v
  | VarDecl id ty v => HVar id ty v
  | Assign target v => HAssign target v
  | IfStmt test consequent alternate =>
      HIf test consequent alternate (all consequent)
        (match alternate with Some alt => all alt | None => I end)
  | WhileStmt test body => HWhile test body (all body)
  | ActionStmt action => HAction action
  | BlockList stmts => HBlock stmts (all stmts)
  | NoneStmt => HNone
  end.
End StmtInduction.

Section CstInduction.
Variable P : CSTNode -> Prop.
Hypothesis HNode :
  forall node_type value children,
    Forall P children -> P (Node node_type value children).

Fixpoint cst_induction (n : CSTNode) : P n :=
  match n with
  | Node node_type value children =>
      HNode node_type value children
        ((fix all (l : list CSTNode) : Forall P l :=
            match l with
            | [] => @List.Forall_nil CSTNode P
            | c :: l' => @List.Forall_cons CSTNode P c l' (cst_induction c) (all l')
            end) children)
  end.
End CstInduction.

(* ====================================================================== *)
(** ** Loops over lists *)
(* ====================================================================== *)

Lemma for_each_cons {A S : Type} (f : A -> S -> S * outcome unit)
    (a : A) (l : list A) (st : S) :
  for_each f (a :: l) st
  = match f a st with
    | (st', Ok _) => for_each f l st'
    | (st', Raise e) => (st', Raise e)
    end.
Proof. reflexivity. Qed.

(* ====================================================================== *)
(** ** Properties of the grid world *)
(* ====================================================================== *)

Section GridWorldFacts.
Import GridWorld GridSpec.

Lemma bounds_check_spec (w h x y : Z) :
  (0 <=? x) && (x <? w) && (0 <=? y) && (y <? h) = true
  <-> (0 <= x < w /\ 0 <= y < h).
Proof.
  rewrite !andb_true_iff, !Z.leb_le, !Z.ltb_lt. lia.
Qed.

(** [move] in terms of the cell ahead, for any facing string. *)
Lemma move_ahead (g : t) :
  move g =
  let '(x, y) := ahead g in
  if (0 <=? x) && (x <? width g) && (0 <=? y) && (y <? height g)
  then (with_position x y g, Ok tt)
  else (g, Raise (RuntimeError (off_grid_msg x y))).
Proof.
  unfold move, ahead, offset, with_position.
  unfold str_eq.
  destruct (String.eqb_spec (agent_direction g) "north") as [->|_];
    [|destruct (String.eqb_spec (agent_direction g) "south") as [->|_];
      [|destruct (String.eqb_spec (agent_direction g) "east") as [->|_];
        [|destruct (String.eqb_spec (agent_direction g) "west") as [->|_]]]];
    cbn; rewrite ?Z.add_0_r; reflexivity.
Qed.

Lemma states_after_invariant (P : t -> Prop) :
  (forall o g, P g -> P (call o g)) ->
  forall ops g, P g -> Forall P (states_after ops g).
Proof.
  intros Hstep ops. induction ops as [|o ops IH]; intros g Hg; cbn.
  - constructor.
  - constructor; [|apply IH]; now apply Hstep.
Qed.

Lemma turn_left_fields (g : t) :
  let g' := fst (turn_left g) in
  width g' = width g /\ height g' = height g /\ agent_x g' = agent_x g
  /\ agent_y g' = agent_y g /\ dirt g' = dirt g.
Proof.
  unfold turn_left. destruct (index _ _); [|now cbn].
  destruct (subscript _ _); now cbn.
Qed.

Lemma turn_right_fields (g : t) :
  let g' := fst (turn_right g) in
  width g' = width g /\ height g' = height g /\ agent_x g' = agent_x g
  /\ agent_y g' = agent_y g /\ dirt g' = dirt g.
Proof.
  unfold turn_right. destruct (index _ _); [|now cbn].
  destruct (subscript _ _); now cbn.
Qed.

(** What an operation can do to the position, the size and the dirt. *)
Lemma call_effect (o : op) (g : t) :
  let g' := call o g in
  width g' = width g /\ height g' = height g
  /\ ((agent_x g' = agent_x g /\ agent_y g' = agent_y g)
      \/ inside g (agent_x g') (agent_y g'))
  /\ (forall c, c ∈ dirt g -> c <> (agent_x g, agent_y g) -> c ∈ dirt g').
Proof.
  destruct o; cbn [call].
  - rewrite move_ahead. destruct (ahead g) as [x y].
    destruct (_ && _) eqn:E; cbn.
    + apply bounds_check_spec in E.
      split; [reflexivity|split; [reflexivity|split; [right; exact E|auto]]].
    + split; [reflexivity|split; [reflexivity|split; [left; easy|auto]]].
  - destruct (turn_left_fields g) as (-> & -> & -> & -> & ->).
    split; [reflexivity|split; [reflexivity|split; [left; easy|auto]]].
  - destruct (turn_right_fields g) as (-> & -> & -> & -> & ->).
    split; [reflexivity|split; [reflexivity|split; [left; easy|auto]]].
  - unfold clean. case_bool_decide; cbn;
      (split; [reflexivity|split; [reflexivity|split; [left; easy|]]]);
      [|auto].
    intros c Hc Hne. set_solver.
  - split; [reflexivity|split; [reflexivity|split; [left; easy|auto]]].
Qed.

End GridWorldFacts.

Section GridWorldClaims.
Import GridWorld GridSpec.

(** C3.  For every grid world whose facing is one of the four directions,
    [move] raises the out-of-bounds error exactly when the cell one step
    ahead lies outside the grid; when it raises, the grid world is
    unchanged in every field; when it succeeds, the agent is on that cell
    (no clamping, no wrap-around) and nothing else has changed. *)
Theorem move_fails_exactly_off_grid (g : t) (x y : Z) :
  In (agent_direction g) DIRECTIONS ->
  ahead g = (x, y) ->
  ((exists m, snd (move g) = Raise (RuntimeError m)) <-> ~ inside g x y)
  /\ (~ inside g x y ->
      move g = (g, Raise (RuntimeError (off_grid_msg x y))))
  /\ (inside g x y -> move g = (with_position x y g, Ok tt)).
Proof.
  intros _ Hahead. rewrite move_ahead, Hahead.
  destruct (_ && _) eqn:E.
  - apply bounds_check_spec in E. cbn. split; [|split].
    + split; [intros [m Hm]; discriminate|intros Hn; now destruct Hn].
    + intros Hn. now destruct Hn.
    + reflexivity.
  - assert (Hout : ~ inside g x y).
    { intros Hin. apply bounds_check_spec in Hin. congruence. }
    cbn. split; [|split].
    + split; [intros _; exact Hout|intros _; eauto].
    + reflexivity.
    + intros Hin. now destruct Hout.
Qed.

Lemma move_fails_exactly_off_grid_witness :
  move (init 1 1) = (init 1 1, Raise (RuntimeError (off_grid_msg 0 (-1)))).
Proof.
  apply (move_fails_exactly_off_grid (init 1 1) 0 (-1)).
  - cbn. auto.
  - reflexivity.
  - unfold inside. cbn. lia.
Defined.

(** C5.  For a grid world constructed with width and height at least 1
    and every finite sequence of [move], [turnLeft], [turnRight], [clean]
    and [sense] calls (a failing [move] raising and changing nothing), the
    agent is inside the grid at the start and after every operation. *)
Theorem agent_stays_inside (w h : Z) (ops : list op) :
  1 <= w -> 1 <= h ->
  (0 <= agent_x (init w h) < w /\ 0 <= agent_y (init w h) < h)
  /\ Forall (fun g => 0 <= agent_x g < w /\ 0 <= agent_y g < h)
       (states_after ops (init w h)).
Proof.
  intros Hw Hh. split; [cbn; lia|].
  eapply Forall_impl;
    [apply (states_after_invariant
              (fun g => width g = w /\ height g = h /\
                        inside g (agent_x g) (agent_y g)))|].
  3: { intros g (Hgw & Hgh & Hin). unfold inside in Hin.
       now rewrite Hgw, Hgh in Hin. }
  - intros o g (Hgw & Hgh & Hin).
    destruct (call_effect o g) as (Ew & Eh & Hpos & _).
    split; [congruence|split; [congruence|]].
    unfold inside in *. rewrite Ew, Eh.
    destruct Hpos as [[-> ->]|Hin']; [exact Hin|exact Hin'].
  - unfold inside. cbn. lia.
Qed.

Lemma agent_stays_inside_witness :
  Forall (fun g => 0 <= agent_x g < 2 /\ 0 <= agent_y g < 2)
    (states_after [Move; TurnRight; Move; Move; Clean; Sense; TurnLeft; Move]
       (init 2 2)).
Proof.
  apply (agent_stays_inside 2 2); lia.
Defined.

(** C7.  From every facing among north, east, south and west, [turnLeft]
    then [turnRight], and [turnRight] then [turnLeft], restore the grid
    world; [turnRight] steps clockwise through north, east, south, west
    and back to north; four applications of either turn are the
    identity. *)
Theorem turns_are_inverse_and_cycle (g : t) :
  In (agent_direction g) DIRECTIONS ->
  (snd (turn_left g) = Ok tt /\ turn_right (fst (turn_left g)) = (g, Ok tt))
  /\ (snd (turn_right g) = Ok tt /\ turn_left (fst (turn_right g)) = (g, Ok tt))
  /\ (agent_direction g = "north" -> agent_direction (fst (turn_right g)) = "east")
  /\ (agent_direction g = "east" -> agent_direction (fst (turn_right g)) = "south")
  /\ (agent_direction g = "south" -> agent_direction (fst (turn_right g)) = "west")
  /\ (agent_direction g = "west" -> agent_direction (fst (turn_right g)) = "north")
  /\ Nat.iter 4 (call TurnRight) g = g
  /\ Nat.iter 4 (call TurnLeft) g = g.
Proof.
  destruct g as [w h x y d dt]. cbn [agent_direction DIRECTIONS In].
  intros [<-|[<-|[<-|[<-|[]]]]];
    repeat split; try reflexivity; intros E; discriminate E.
Qed.

Lemma turns_are_inverse_and_cycle_witness :
  turn_right (fst (turn_left (init 5 5))) = (init 5 5, Ok tt).
Proof.
  apply (turns_are_inverse_and_cycle (init 5 5)). cbn. auto.
Defined.

(** C8.  [clean] is idempotent: a second call without moving leaves the
    grid world as the first call left it.  A call removes the dirt of the
    agent's cell if there is some and changes nothing otherwise; it never
    changes the size, the position, the facing or the dirt of another
    cell. *)
Theorem clean_idempotent (g : t) :
  let g' := fst (clean g) in
  snd (clean g) = Ok tt
  /\ clean g' = (g', Ok tt)
  /\ width g' = width g /\ height g' = height g
  /\ agent_x g' = agent_x g /\ agent_y g' = agent_y g
  /\ agent_direction g' = agent_direction g
  /\ dirt g' = dirt g ∖ {[ (agent_x g, agent_y g) ]}
  /\ (forall c, c <> (agent_x g, agent_y g) -> (c ∈ dirt g' <-> c ∈ dirt g))
  /\ ((agent_x g, agent_y g) ∉ dirt g -> g' = g).
Proof.
  unfold clean. case_bool_decide as Hin; cbn.
  - rewrite bool_decide_eq_false_2 by set_solver.
    repeat split; try reflexivity; try set_solver.
  - rewrite bool_decide_eq_false_2 by exact Hin.
    repeat split; try reflexivity; try set_solver.
Qed.

Lemma clean_idempotent_witness :
  clean (fst (clean (with_position 2 2 (init 5 5))))
  = (fst (clean (with_position 2 2 (init 5 5))), Ok tt).
Proof.
  apply (clean_idempotent (with_position 2 2 (init 5 5))).
Defined.

(** C9.  For every width and height a freshly constructed grid world has
    the agent at (0,0) facing north and exactly the dirt cells (2,2),
    (3,1) and (1,3), whatever the dimensions; so with width at most 3 or
    height at most 3 a seeded dirt cell lies outside the grid, and no
    sequence of operations brings the agent to it or removes it. *)
Theorem fresh_grid_dirt (w h : Z) :
  let g0 := init w h in
  agent_x g0 = 0 /\ agent_y g0 = 0 /\ agent_direction g0 = "north"
  /\ width g0 = w /\ height g0 = h
  /\ dirt g0 = {[ (2, 2); (3, 1); (1, 3) ]}
  /\ (forall c, c ∈ dirt g0 <-> c = (2, 2) \/ c = (3, 1) \/ c = (1, 3))
  /\ (w <= 3 \/ h <= 3 ->
      exists c, c ∈ dirt g0 /\ ~ inside g0 (fst c) (snd c)
        /\ forall ops,
             Forall (fun g => (agent_x g, agent_y g) <> c /\ c ∈ dirt g)
               (states_after ops g0)).
Proof.
  cbn zeta.
  split; [reflexivity|]. split; [reflexivity|]. split; [reflexivity|].
  split; [reflexivity|]. split; [reflexivity|].
  split; [cbn; set_solver|]. split; [intros c; cbn; set_solver|].
  intros Hsmall.
  assert (Hc : exists c : Z * Z,
             c ∈ dirt (init w h) /\ ~ inside (init w h) (fst c) (snd c)
             /\ c <> (0, 0)).
  { destruct Hsmall as [Hw|Hh].
    - exists (3, 1). split; [cbn; set_solver|]. unfold inside. cbn.
      split; [lia|congruence].
    - exists (1, 3). split; [cbn; set_solver|]. unfold inside. cbn.
      split; [lia|congruence]. }
  destruct Hc as (c & Hin & Hout & Hne). exists c.
  split; [exact Hin|]. split; [exact Hout|]. intros ops.
  eapply Forall_impl;
    [apply (states_after_invariant
              (fun g => width g = w /\ height g = h
                        /\ ((agent_x g, agent_y g) = (0, 0)
                            \/ inside g (agent_x g) (agent_y g))
                        /\ c ∈ dirt g))|].
  3: { intros g (Hgw & Hgh & Hpos & Hd). split; [|exact Hd].
       intros <-. destruct Hpos as [Hz|Hi]; [congruence|].
       apply Hout. unfold inside in *. cbn in *. now rewrite Hgw, Hgh in Hi. }
  - intros o g (Hgw & Hgh & Hpos & Hd).
    destruct (call_effect o g) as (Ew & Eh & Hpos' & Hdirt).
    split; [congruence|]. split; [congruence|]. split.
    + destruct Hpos' as [[Ex Ey]|Hi].
      * rewrite Ex, Ey. destruct Hpos as [Hz|Hi]; [now left|].
        right. unfold inside in *. now rewrite Ew, Eh.
      * right. unfold inside in *. now rewrite Ew, Eh.
    + apply Hdirt; [exact Hd|]. intros ->.
      destruct Hpos as [Hz|Hi]; [congruence|].
      apply Hout. unfold inside in *. cbn in *. now rewrite Hgw, Hgh in Hi.
  - cbn. split; [reflexivity|]. split; [reflexivity|].
    split; [now left|exact Hin].
Qed.

Lemma fresh_grid_dirt_witness :
  exists c : Z * Z,
    c ∈ dirt (init 3 5) /\ ~ inside (init 3 5) (fst c) (snd c)
    /\ forall ops,
         Forall (fun g => (agent_x g, agent_y g) <> c /\ c ∈ dirt g)
           (states_after ops (init 3 5)).
Proof.
  apply (fresh_grid_dirt 3 5). left. lia.
Defined.

End GridWorldClaims.

(* ====================================================================== *)
(** ** Properties of the interpreter *)
(* ====================================================================== *)

Section InterpreterFacts.
Import Interpreter LoopSpec.

Lemma evaluate_binary_unfold (it : t) (op : string) (l r : option expr) :
  evaluate_node it (BinaryExpr op l r)
  = evaluate_binary_expr (evaluate_expr it) op l r.
Proof. reflexivity. Qed.

Lemma execute_while_unfold (test : option expr) (body : list stmt) (it : t) :
  execute_stmt (WhileStmt test body) it
  = while_loop (for_each execute_stmt body) test
      (S (Z.to_nat max_iterations)) 0 it.
Proof. reflexivity. Qed.

(** The fuel of [while_loop] never runs out before the iteration cap is
    hit: with enough fuel to pass the cap the result does not depend on
    the fuel. *)
Lemma while_loop_fuel (run_body : t -> t * outcome unit) (test : option expr) :
  forall fuel1 fuel2 iteration it,
    iteration <= max_iterations ->
    max_iterations < iteration + Z.of_nat fuel1 ->
    max_iterations < iteration + Z.of_nat fuel2 ->
    while_loop run_body test fuel1 iteration it
    = while_loop run_body test fuel2 iteration it.
Proof.
  induction fuel1 as [|fuel1 IH]; intros fuel2 iteration it Hle H1 H2.
  - lia.
  - destruct fuel2 as [|fuel2]; [lia|]. cbn [while_loop].
    destruct (evaluate_expr it test) as [c|e]; [|reflexivity].
    destruct (Py.truthy c); [|reflexivity].
    destruct (iteration + 1 >? max_iterations) eqn:Hcap; [reflexivity|].
    destruct (run_body it) as [it' [[]|e]]; [|reflexivity].
    apply IH; lia.
Qed.

(** Iterations that are entered and completed below the cap are passed
    by the loop. *)
Lemma while_loop_runs (run_body : t -> t * outcome unit) (test : option expr) :
  forall n fuel iteration it s,
    body_runs run_body test n it = Some s ->
    (n < fuel)%nat ->
    iteration + Z.of_nat n <= max_iterations ->
    while_loop run_body test fuel iteration it
    = while_loop run_body test (fuel - n) (iteration + Z.of_nat n) s.
Proof.
  induction n as [|n IH]; intros fuel iteration it s Hruns Hfuel Hcap.
  - cbn in Hruns. injection Hruns as <-.
    now rewrite Nat.sub_0_r, Z.add_0_r.
  - destruct fuel as [|fuel]; [lia|].
    cbn [body_runs] in Hruns. cbn [while_loop].
    destruct (evaluate_expr it test) as [c|e]; [|discriminate].
    destruct (Py.truthy c); [|discriminate].
    destruct (run_body it) as [it' [[]|e]]; [|discriminate].
    replace (iteration + 1 >? max_iterations) with false
      by (symmetry; rewrite Z.gtb_ltb; apply Z.ltb_ge; lia).
    rewrite (IH fuel (iteration + 1) it' s Hruns) by lia.
    f_equal. lia.
Qed.

Lemma assign_raises (name : string) (e : option expr) (it : t) (err : exn) :
  evaluate_expr it e = Raise err ->
  fst (execute_stmt (Assign name e) it) = it
  /\ (name ∉ const_vars it ->
      execute_stmt (Assign name e) it = (it, Raise err)).
Proof.
  intros He. cbn [execute_stmt]. unfold execute_assign.
  case_bool_decide as Hc; [split; [reflexivity|now intros Hn]|].
  rewrite He. now split.
Qed.

(** *** The fuel of the loop is never the reason for an error *)

(** An error other than [RecursionError] stays one when it is passed on. *)
Ltac pass_on H :=
  let E := fresh "E" in
  intros E; apply H; cbn in E; now injection E as ->.

Lemma environment_get_error (name : string) :
  forall (e : Environment.t) (err : exn),
    Environment.get name e = Raise err ->
    err = RuntimeError ("Undefined variable: " +:+ name).
Proof.
  fix IH 1. intros [vs [p|]] err; cbn; destruct (vs !! name);
    try discriminate.
  - apply IH.
  - now injection 1 as <-.
Qed.

Lemma environment_set_error (name : string) (v : value) :
  forall (e : Environment.t) (err : exn),
    Environment.set name v e = Raise err ->
    err = RuntimeError ("Undefined variable: " +:+ name).
Proof.
  fix IH 1. intros [vs [p|]] err; cbn; destruct (vs !! name);
    try discriminate.
  - destruct (Environment.set name v p) as [p'|e'] eqn:E; cbn; [discriminate|].
    injection 1 as <-. now apply (IH p).
  - now injection 1 as <-.
Qed.

Lemma apply_operator_no_recursion (op : string) (l r : value) :
  apply_operator op l r <> Raise RecursionError.
Proof.
  unfold apply_operator, Py.add, Py.sub, Py.mul, Py.floordiv, Py.lt, Py.le,
    Py.gt, Py.ge, Py.order, Py.str_mul, Py.str_add, division_by_zero.
  repeat match goal with
         | |- context [if ?b then _ else _] => destruct b
         end;
    try discriminate;
    destruct (Py.as_int l), (Py.as_int r); try discriminate;
    repeat match goal with
           | |- context [if ?b then _ else _] => destruct b
           | |- context [match ?v with VInt _ => _ | _ => _ end] => destruct v
           | |- context [match Py.as_int ?v with _ => _ end] => destruct (Py.as_int v)
           end;
    discriminate.
Qed.

Lemma evaluate_no_recursion (it : t) (e : expr) :
  evaluate_node it e <> Raise RecursionError.
Proof.
  induction e as [v|name|op l r IHl IHr] using expr_induction.
  - discriminate.
  - cbn. destruct (str_eq name "sense"); [destruct (grid it); discriminate|].
    destruct (str_eq name "dirt"); [discriminate|].
    intros H. apply environment_get_error in H. discriminate.
  - rewrite evaluate_binary_unfold. unfold evaluate_binary_expr.
    assert (Hl : evaluate_expr it l <> Raise RecursionError)
      by (destruct l; [exact IHl|discriminate]).
    assert (Hr : evaluate_expr it r <> Raise RecursionError)
      by (destruct r; [exact IHr|discriminate]).
    destruct (str_eq op "not");
      destruct (evaluate_expr it l) as [vl|el]; cbn [bind];
      try discriminate; try exact Hl.
    destruct (evaluate_expr it r) as [vr|er]; cbn [bind]; [|exact Hr].
    apply apply_operator_no_recursion.
Qed.

Lemma evaluate_expr_no_recursion (it : t) (slot : option expr) :
  evaluate_expr it slot <> Raise RecursionError.
Proof.
  destruct slot; [apply evaluate_no_recursion|discriminate].
Qed.

Lemma for_each_no_recursion (l : list stmt) :
  Forall (fun s => forall it, snd (execute_stmt s it) <> Raise RecursionError) l ->
  forall it, snd (for_each execute_stmt l it) <> Raise RecursionError.
Proof.
  induction 1 as [|s l Hs _ IH]; intros it.
  - discriminate.
  - rewrite for_each_cons. specialize (Hs it).
    destruct (execute_stmt s it) as [it' [[]|e]]; [apply IH|exact Hs].
Qed.

Lemma while_loop_no_recursion (run_body : t -> t * outcome unit)
    (test : option expr) :
  (forall it, snd (run_body it) <> Raise RecursionError) ->
  forall fuel iteration it,
    iteration <= max_iterations ->
    max_iterations < iteration + Z.of_nat fuel ->
    snd (while_loop run_body test fuel iteration it) <> Raise RecursionError.
Proof.
  intros Hbody. induction fuel as [|fuel IH]; intros iteration it Hle Hfuel.
  - lia.
  - cbn [while_loop].
    pose proof (evaluate_expr_no_recursion it test) as Htest.
    destruct (evaluate_expr it test) as [c|e]; [|pass_on Htest].
    destruct (Py.truthy c); [|discriminate].
    destruct (iteration + 1 >? max_iterations) eqn:Hcap; [discriminate|].
    specialize (Hbody it).
    destruct (run_body it) as [it' [[]|e]]; [|exact Hbody].
    rewrite Z.gtb_ltb in Hcap. apply Z.ltb_ge in Hcap. apply IH; lia.
Qed.

Lemma grid_no_recursion (action : string) (it : t) :
  snd (execute_action action it) <> Raise RecursionError.
Proof.
  unfold execute_action, on_grid. destruct (grid it) as [g|]; [|discriminate].
  repeat match goal with
         | |- context [if str_eq ?a ?b then _ else _] => destruct (str_eq a b)
         end; try discriminate.
  - rewrite move_ahead. destruct (GridSpec.ahead g).
    destruct (_ && _); discriminate.
  - unfold GridWorld.turn_left. destruct (GridWorld.index _ _) as [i|];
      [|discriminate].
    unfold subscript. destruct (nth_error _ _); discriminate.
  - unfold GridWorld.turn_right. destruct (GridWorld.index _ _) as [i|];
      [|discriminate].
    unfold subscript. destruct (nth_error _ _); discriminate.
  - unfold GridWorld.clean. case_bool_decide; discriminate.
Qed.

(** No statement raises the error that marks an exhausted fuel. *)
Lemma execute_stmt_no_recursion (s : stmt) :
  forall it, snd (execute_stmt s it) <> Raise RecursionError.
Proof.
  induction s as [id ty v|id ty v|target v|test consequent alternate IHc IHa
                 |test body IHb|action|stmts _|]
    using stmt_induction; intros it; cbn [execute_stmt].
  - unfold execute_const_decl.
    pose proof (evaluate_expr_no_recursion it v) as Hev.
    destruct (evaluate_expr it v); [discriminate|pass_on Hev].
  - unfold execute_var_decl. destruct v as [e|].
    + pose proof (evaluate_expr_no_recursion it (Some e)) as Hev.
      destruct (evaluate_expr it (Some e)); [discriminate|pass_on Hev].
    + repeat match goal with
             | |- context [if ?b then _ else _] => destruct b
             end; discriminate.
  - unfold execute_assign. case_bool_decide; [discriminate|].
    pose proof (evaluate_expr_no_recursion it v) as Hev.
    destruct (evaluate_expr it v) as [val|e]; [|pass_on Hev].
    destruct (Environment.set target val (env it)) as [env'|e] eqn:E;
      [discriminate|].
    apply environment_set_error in E. subst e. discriminate.
  - pose proof (evaluate_expr_no_recursion it test) as Hev.
    destruct (evaluate_expr it test) as [c|e]; [|pass_on Hev].
    destruct (Py.truthy c); [now apply for_each_no_recursion|].
    destruct alternate as [[|s0 alt]|]; try discriminate.
    now apply for_each_no_recursion.
  - unfold execute_while_with. apply while_loop_no_recursion.
    + now apply for_each_no_recursion.
    + unfold max_iterations. lia.
    + unfold max_iterations. lia.
  - apply grid_no_recursion.
  - discriminate.
  - discriminate.
Qed.

End InterpreterFacts.

Section InterpreterClaims.
Import Interpreter LoopSpec.

(** C2, as the claim is stated, fails: a test that is always true is not
    enough, the body has to complete each time.  On the fresh grid
    [while (true) { move; }] stops in its first iteration with the
    off-grid error of [move], through [main] as on the statement, and its
    body completes not even once.  A loop on [true] around a loop on
    [true] does raise the infinite-loop error, but that of the inner
    loop, in the first iteration of the outer one. *)
Lemma while_true_can_stop_before_iteration_10001 :
  (forall it, test_is true (Some (Literal (VBool true))) it)
  /\ Main.run_source Examples.move_forever_source
     = Main.RuntimeExit (RuntimeError (GridWorld.off_grid_msg 0 (-1)))
         Examples.fresh
  /\ execute_stmt Examples.move_forever Examples.fresh
     = (Examples.fresh, Raise (RuntimeError (GridWorld.off_grid_msg 0 (-1))))
  /\ body_runs (for_each execute_stmt [ActionStmt "move"])
       (Some (Literal (VBool true))) 1 Examples.fresh = None
  /\ execute_stmt Examples.loop_in_loop Examples.fresh
     = (Examples.fresh, Raise infinite_loop)
  /\ body_runs
       (for_each execute_stmt [WhileStmt (Some (Literal (VBool true))) []])
       (Some (Literal (VBool true))) 1 Examples.fresh = None
  /\ ~ (forall (test : option expr) (body : list stmt) (it : t),
          (forall s, test_is true test s) ->
          exists s,
            body_runs (for_each execute_stmt body) test
              (Z.to_nat max_iterations) it = Some s
            /\ execute_stmt (WhileStmt test body) it
               = (s, Raise infinite_loop)).
Proof.
  assert (Htrue : forall it, test_is true (Some (Literal (VBool true))) it).
  { intros it. exists (VBool true). split; reflexivity. }
  assert (Hmove : execute_stmt Examples.move_forever Examples.fresh
                  = (Examples.fresh,
                     Raise (RuntimeError (GridWorld.off_grid_msg 0 (-1)))))
    by (vm_compute; reflexivity).
  split; [exact Htrue|].
  split; [vm_compute; reflexivity|].
  split; [exact Hmove|].
  split; [vm_compute; reflexivity|].
  split; [vm_compute; reflexivity|].
  split; [vm_compute; reflexivity|].
  intros Hall.
  destruct (Hall (Some (Literal (VBool true))) [ActionStmt "move"]
              Examples.fresh Htrue) as (s & _ & Hs).
  change (WhileStmt (Some (Literal (VBool true))) [ActionStmt "move"])
    with Examples.move_forever in Hs.
  rewrite Hmove in Hs. discriminate.
Qed.

(** C2, amended.  A [while] loop whose test is true each of the 10,001
    times it is evaluated, and whose body completes in each of the first
    10,000 iterations, raises the infinite-loop error at iteration 10,001: the interpreter is then as the 10,000th
    execution of the body left it, so the body has run exactly 10,000
    times, the 10,001st has not started and the effects of the first
    10,000 stay.  Conversely a loop whose test is false after [n] <=
    10,000 completed iterations returns normally, in the state those
    left.  A loop whose body raises an error in one of the first 10,000
    iterations ends there with that error, in the state in which the
    body raised it. *)
Theorem while_stops_at_iteration_10001
    (test : option expr) (body : list stmt) (it s : t) :
  (body_runs (for_each execute_stmt body) test (Z.to_nat max_iterations) it
     = Some s ->
   test_is true test s ->
   execute_stmt (WhileStmt test body) it = (s, Raise infinite_loop))
  /\ (forall n : nat,
        Z.of_nat n <= max_iterations ->
        body_runs (for_each execute_stmt body) test n it = Some s ->
        test_is false test s ->
        execute_stmt (WhileStmt test body) it = (s, Ok tt))
  /\ (forall (n : nat) (s' : t) (e : exn),
        Z.of_nat n < max_iterations ->
        body_runs (for_each execute_stmt body) test n it = Some s ->
        test_is true test s ->
        for_each execute_stmt body s = (s', Raise e) ->
        execute_stmt (WhileStmt test body) it = (s', Raise e)).
Proof.
  assert (Hmax : 0 <= max_iterations) by (unfold max_iterations; lia).
  split; [|split].
  3:{ intros n s' e Hn Hruns (c & Hc & Ht) Hbody.
      rewrite execute_while_unfold.
      rewrite (while_loop_runs _ _ n _ 0 it s Hruns) by lia.
      destruct (S (Z.to_nat max_iterations) - n)%nat eqn:E; [lia|].
      cbn [while_loop]. rewrite Hc, Ht.
      replace (0 + Z.of_nat n + 1 >? max_iterations) with false
        by (symmetry; rewrite Z.gtb_ltb; apply Z.ltb_ge; lia).
      now rewrite Hbody. }
  - intros Hruns (c & Hc & Ht).
    rewrite execute_while_unfold.
    rewrite (while_loop_runs _ _ _ _ 0 it s Hruns) by lia.
    replace (S (Z.to_nat max_iterations) - Z.to_nat max_iterations)%nat
      with 1%nat by lia.
    cbn [while_loop]. rewrite Hc, Ht.
    replace (0 + Z.of_nat (Z.to_nat max_iterations) + 1 >? max_iterations)
      with true by (symmetry; rewrite Z.gtb_ltb; apply Z.ltb_lt; lia).
    reflexivity.
  - intros n Hn Hruns (c & Hc & Ht).
    rewrite execute_while_unfold.
    rewrite (while_loop_runs _ _ n _ 0 it s Hruns) by lia.
    destruct (S (Z.to_nat max_iterations) - n)%nat eqn:E; [lia|].
    cbn [while_loop]. rewrite Hc, Ht. reflexivity.
Qed.

(** C6.  A [/] whose right operand evaluates to zero raises the
    division-by-zero error (once the left operand has been evaluated); an
    [Assign] whose value expression raises it leaves the interpreter, and
    so the binding of the target, unchanged; with a non-zero divisor [/]
    is floor division: the quotient [q] of [a] by [b] is the integer with
    [b * q <= a < b * q + b] for a positive and [b * q + b < a <= b * q]
    for a negative [b].  On two numbers the evaluation depends on nothing
    else: [a / b] evaluates to that quotient when [b] is not zero and
    raises the error when it is, and the assignment of [a / b] to a
    variable gives it that value. *)
Theorem division_by_zero_before_assignment :
  (forall (it : t) (l r : option expr) (vl vr : value),
      evaluate_expr it l = Ok vl ->
      evaluate_expr it r = Ok vr ->
      Py.eq vr (VInt 0) = true ->
      evaluate_node it (BinaryExpr "/" l r) = Raise division_by_zero)
  /\ (forall (it : t) (name : string) (e : option expr),
        evaluate_expr it e = Raise division_by_zero ->
        let it' := fst (execute_stmt (Assign name e) it) in
        it' = it
        /\ Environment.get name (env it') = Environment.get name (env it)
        /\ (name ∉ const_vars it ->
            snd (execute_stmt (Assign name e) it) = Raise division_by_zero))
  /\ (forall (it : t) (l r : option expr) (vl vr : value) (a b : Z),
        evaluate_expr it l = Ok vl ->
        evaluate_expr it r = Ok vr ->
        Py.as_int vl = Some a ->
        Py.as_int vr = Some b ->
        b <> 0 ->
        exists q,
          evaluate_node it (BinaryExpr "/" l r) = Ok (VInt q)
          /\ q = a / b
          /\ (0 < b -> b * q <= a < b * q + b)
          /\ (b < 0 -> b * q + b < a <= b * q))
  /\ (forall (it : t) (a b : Z),
        evaluate_expr it (Examples.quotient a b)
        = if b =? 0 then Raise division_by_zero else Ok (VInt (a / b)))
  /\ (forall (k a b : Z),
        b <> 0 ->
        execute_stmt (Assign "n" (Examples.quotient a b)) (Examples.counter_at k)
        = (Examples.counter_at (a / b), Ok tt)).
Proof.
  split; [|split; [|split; [|split]]].
  4:{ intros it a b. cbn. unfold apply_operator. cbn.
      unfold Py.eq, Py.floordiv. cbn. now destruct (b =? 0). }
  4:{ intros k a b Hb. apply Z.eqb_neq in Hb.
      unfold execute_stmt, execute_assign, Examples.counter_at.
      cbn [const_vars env]. rewrite bool_decide_eq_false_2 by set_solver.
      cbn. unfold apply_operator. cbn. unfold Py.eq, Py.floordiv. cbn.
      rewrite Hb. cbn. rewrite lookup_singleton. unfold set_env. cbn.
      now rewrite insert_singleton. }
  - intros it l r vl vr Hl Hr Hz.
    rewrite evaluate_binary_unfold. unfold evaluate_binary_expr.
    cbn [str_eq String.eqb Ascii.eqb Bool.eqb]. rewrite Hl, Hr. cbn [bind].
    unfold apply_operator. cbn [str_eq String.eqb Ascii.eqb Bool.eqb].
    now rewrite Hz.
  - intros it name e He.
    destruct (assign_raises name e it _ He) as [Hst Herr].
    cbn zeta. rewrite Hst. split; [reflexivity|]. split; [reflexivity|].
    intros Hn. now rewrite (Herr Hn).
  - intros it l r vl vr a b Hl Hr Ha Hb Hne.
    exists (a / b). split; [|split; [reflexivity|]].
    + rewrite evaluate_binary_unfold. unfold evaluate_binary_expr.
      cbn [str_eq String.eqb Ascii.eqb Bool.eqb]. rewrite Hl, Hr. cbn [bind].
      unfold apply_operator. cbn [str_eq String.eqb Ascii.eqb Bool.eqb].
      unfold Py.eq, Py.floordiv. rewrite Ha, Hb. cbn [Py.as_int].
      apply Z.eqb_neq in Hne. now rewrite Hne.
    + split; intros Hb'.
      * pose proof (Z.mod_pos_bound a b Hb') as Hm.
        pose proof (Z.div_mod a b Hne). lia.
      * pose proof (Z.mod_neg_bound a b Hb') as Hm.
        pose proof (Z.div_mod a b Hne). lia.
Qed.

Lemma while_stops_at_iteration_10001_witness :
  execute_stmt (WhileStmt (Some (Literal (VBool true))) [Examples.increment])
    (Examples.counter_at 0)
  = (Examples.counter_at 10000, Raise infinite_loop)
  /\ execute_stmt (WhileStmt Examples.below_three [Examples.increment])
       (Examples.counter_at 0)
     = (Examples.counter_at 3, Ok tt)
  /\ execute_stmt Examples.move_forever Examples.fresh
     = (Examples.fresh, Raise (RuntimeError (GridWorld.off_grid_msg 0 (-1)))).
Proof.
  split; [|split].
  3:{ apply (proj2 (proj2 (while_stops_at_iteration_10001
                             (Some (Literal (VBool true))) [ActionStmt "move"]
                             Examples.fresh Examples.fresh)) 0%nat).
      - reflexivity.
      - reflexivity.
      - exists (VBool true). split; reflexivity.
      - vm_compute. reflexivity. }
  - apply (while_stops_at_iteration_10001 (Some (Literal (VBool true)))
             [Examples.increment] (Examples.counter_at 0)
             (Examples.counter_at 10000)).
    + vm_compute. reflexivity.
    + exists (VBool true). split; reflexivity.
  - apply (proj1 (proj2 (while_stops_at_iteration_10001 Examples.below_three
                           [Examples.increment] (Examples.counter_at 0)
                           (Examples.counter_at 3))) 3%nat).
    + vm_compute. discriminate.
    + vm_compute. reflexivity.
    + exists (VBool false). split; reflexivity.
Defined.

Lemma division_by_zero_before_assignment_witness :
  evaluate_expr (Examples.counter_at 7) Examples.n_over_zero
  = Raise division_by_zero
  /\ fst (execute_stmt (Assign "n" Examples.n_over_zero) (Examples.counter_at 7))
     = Examples.counter_at 7
  /\ evaluate_expr (Examples.counter_at 7) (Examples.quotient (-7) 2)
     = Ok (VInt (-4))
  /\ evaluate_expr (Examples.counter_at 7) (Examples.quotient 7 (-2))
     = Ok (VInt (-4))
  /\ evaluate_expr (Examples.counter_at 7) (Examples.quotient 7 2)
     = Ok (VInt 3)
  /\ evaluate_expr (Examples.counter_at 7) (Examples.quotient 7 0)
     = Raise division_by_zero
  /\ execute_stmt (Assign "n" (Examples.quotient (-7) 2)) (Examples.counter_at 7)
     = (Examples.counter_at (-4), Ok tt)
  /\ evaluate_node (Examples.counter_at (-7))
       (BinaryExpr "/" (Some (Identifier "n")) (Some (Literal (VInt 2))))
     = Ok (VInt (-4)).
Proof.
  destruct division_by_zero_before_assignment
    as (Hzero & Hassign & Hfloor & Hquotient & Hset).
  assert (H : evaluate_expr (Examples.counter_at 7) Examples.n_over_zero
              = Raise division_by_zero).
  { apply (Hzero (Examples.counter_at 7) (Some (Identifier "n"))
             (Some (Literal (VInt 0))) (VInt 7) (VInt 0)); reflexivity. }
  split; [exact H|].
  split; [apply (Hassign (Examples.counter_at 7) "n" Examples.n_over_zero H)|].
  split; [exact (Hquotient (Examples.counter_at 7) (-7) 2)|].
  split; [exact (Hquotient (Examples.counter_at 7) 7 (-2))|].
  split; [exact (Hquotient (Examples.counter_at 7) 7 2)|].
  split; [exact (Hquotient (Examples.counter_at 7) 7 0)|].
  split; [apply (Hset 7 (-7) 2); discriminate|].
  destruct (Hfloor (Examples.counter_at (-7)) (Some (Identifier "n"))
              (Some (Literal (VInt 2))) (VInt (-7)) (VInt 2) (-7) 2
              eq_refl eq_refl eq_refl eq_refl ltac:(discriminate))
    as (q & Hq & Hqv & _).
  rewrite Hq, Hqv. reflexivity.
Defined.

End InterpreterClaims.

(* ====================================================================== *)
(** ** Properties of the lexer *)
(* ====================================================================== *)

(** The scanning loop resumes where the match ended: [scan] satisfies the
    equations of the loop of [get_token_stream]. *)
Section LexerFacts.
Import Lexer LexerSpec.

Lemma span_app (p : ascii -> bool) (s : string) :
  s = fst (span p s) +:+ snd (span p s).
Proof.
  induction s as [|c s IH]; cbn; [reflexivity|].
  destruct (p c); [|reflexivity].
  destruct (span p s) as [m r]. cbn in *. now rewrite IH at 1.
Qed.

Lemma strip_prefix_app (text s rest : string) :
  strip_prefix text s = Some rest -> s = text +:+ rest.
Proof.
  revert s. induction text as [|c text IH]; intros s; cbn.
  - now injection 1 as ->.
  - destruct s as [|d s]; [discriminate|].
    destruct (Ascii.eqb_spec c d) as [->|]; [|discriminate].
    intros H. now rewrite (IH s H).
Qed.

Lemma sound_lit (text : string) : text <> "" -> sound (lit text).
Proof.
  intros Hne prev s v r. unfold lit.
  destruct (strip_prefix text s) as [rest|] eqn:E; [|discriminate].
  injection 1 as <- <-. split; [now apply strip_prefix_app|exact Hne].
Qed.

Lemma sound_words (alts : list string) :
  Forall (fun w => w <> "") alts -> sound (words alts).
Proof.
  intros Hall prev s v r. unfold words.
  destruct (boundary prev (head s)); [|discriminate].
  induction Hall as [|w alts Hw _ IH]; [discriminate|].
  destruct (strip_prefix w s) as [rest|] eqn:E; [|exact IH].
  destruct (boundary _ _); [|exact IH].
  injection 1 as <- <-. split; [now apply strip_prefix_app|exact Hw].
Qed.

Lemma sound_some_of (p : ascii -> bool) : sound (some_of p).
Proof.
  intros prev s v r. unfold some_of.
  pose proof (span_app p s) as Hs.
  destruct (span p s) as [[|c m] rest]; [discriminate|].
  injection 1 as <- <-. split; [exact Hs|discriminate].
Qed.

Lemma sound_one_of (p : ascii -> bool) : sound (one_of p).
Proof.
  intros prev [|c s] v r; cbn; [discriminate|].
  destruct (p c); [|discriminate].
  injection 1 as <- <-. split; [reflexivity|discriminate].
Qed.

Lemma sound_headed (p : ascii -> bool) (q : ascii -> bool) :
  sound (fun _ s =>
           match s with
           | String c s' =>
               if p c then
                 let '(body, rest) := span q s' in Some (String c body, rest)
               else None
           | EmptyString => None
           end).
Proof.
  intros prev [|c s] v r; [discriminate|].
  destruct (p c); [|discriminate].
  pose proof (span_app q s) as Hs. destruct (span q s) as [body rest].
  injection 1 as <- <-. cbn in *. split; [now rewrite Hs at 1|discriminate].
Qed.

Lemma append_assoc (a b c : string) : (a +:+ b) +:+ c = a +:+ (b +:+ c).
Proof.
  induction a as [|x a IH]; [reflexivity|].
  change (String x ((a +:+ b) +:+ c) = String x (a +:+ (b +:+ c))).
  now rewrite IH.
Qed.

Lemma sound_string_literal : sound string_literal.
Proof.
  intros prev [|q s] v r; cbn; [discriminate|].
  destruct (Ascii.eqb q dquote); [|discriminate].
  pose proof (span_app is_string_char s) as Hs.
  destruct (span is_string_char s) as [body [|q' rest]]; [discriminate|].
  destruct (Ascii.eqb q' dquote); [|discriminate].
  injection 1 as <- <-. cbn in *. split; [|discriminate].
  rewrite Hs at 1.
  change (String q (body +:+ String q' rest)
          = String q ((body +:+ String q' "") +:+ rest)).
  now rewrite append_assoc.
Qed.

Lemma sound_token_specification :
  Forall (fun kp : string * pattern => sound (snd kp)) token_specification.
Proof.
  unfold token_specification, word.
  repeat (apply List.Forall_cons; cbn [snd];
          [first [ apply sound_words; repeat constructor; discriminate
                 | apply sound_lit; discriminate
                 | apply sound_some_of
                 | apply sound_one_of
                 | apply sound_string_literal
                 | apply (sound_headed (fun c => Ascii.eqb c "#") is_dot)
                 | apply (sound_headed is_id_start is_word) ]|]).
  apply List.Forall_nil.
Qed.

Lemma get_token_sound (prev : option ascii) (s kind value rest : string) :
  get_token prev s = Some (kind, value, rest) ->
  s = value +:+ rest /\ value <> "".
Proof.
  unfold get_token. pose proof sound_token_specification as Hall.
  induction Hall as [|[k p] spec Hp _ IH]; cbn [first_match]; [discriminate|].
  destruct (p prev s) as [[v r]|] eqn:E; [|exact IH].
  injection 1 as <- <- <-. exact (Hp prev s v r E).
Qed.

(** Passing over the characters of a match. *)
Lemma scan_skip (value : string) :
  forall prev rest line_num,
    scan prev (value +:+ rest) (String.length value) line_num
    = scan (last_char prev value) rest 0 line_num.
Proof.
  induction value as [|c value IH]; intros prev rest line_num; cbn.
  - now destruct rest.
  - apply IH.
Qed.

(** One turn of the loop: the token is appended unless it is a newline,
    blank, comment or unexpected character, and the scan goes on after the
    match. *)
Lemma scan_step (prev : option ascii) (s kind value rest : string)
    (line_num : Z) :
  get_token prev s = Some (kind, value, rest) ->
  scan prev s 0 line_num
  = if str_eq kind "NEWLINE"
    then scan (last_char prev value) rest 0 (line_num + 1)
    else if str_eq kind "SKIP" || str_eq kind "COMMENT"
    then scan (last_char prev value) rest 0 line_num
    else if str_eq kind "MISMATCH"
    then scan (last_char prev value) rest 0 line_num
    else (kind, value, line_num) :: scan (last_char prev value) rest 0 line_num.
Proof.
  intros Hget. destruct (get_token_sound _ _ _ _ _ Hget) as [Hs Hne].
  destruct value as [|c value]; [now destruct Hne|].
  subst s.
  change (String c value +:+ rest) with (String c (value +:+ rest)) in *.
  cbn [scan]. rewrite Hget.
  cbn [String.length Nat.pred last_char]. now rewrite !scan_skip.
Qed.

Lemma first_match_some (spec : list (string * pattern)) (kind : string)
    (p : pattern) (prev : option ascii) (s : string) :
  In (kind, p) spec -> p prev s <> None -> first_match spec prev s <> None.
Proof.
  induction spec as [|[k q] spec IH]; cbn; [easy|].
  intros [E|Hin] Hp.
  - injection E as -> ->. destruct (p prev s) as [[v r]|]; [discriminate|easy].
  - destruct (q prev s) as [[v r]|]; [discriminate|now apply IH].
Qed.

(** Before the end of the text some pattern matches. *)
Lemma get_token_total (prev : option ascii) (c : ascii) (s : string) :
  get_token prev (String c s) <> None.
Proof.
  unfold get_token. destruct (Ascii.eqb newline c) eqn:E.
  - apply (first_match_some _ "NEWLINE" (one_of (Ascii.eqb newline))).
    + unfold token_specification. cbn. tauto.
    + unfold one_of. now rewrite E.
  - apply (first_match_some _ "MISMATCH" (one_of is_dot)).
    + unfold token_specification. cbn. tauto.
    + unfold one_of, is_dot. now rewrite Ascii.eqb_sym, E.
Qed.

(** The loop ends when nothing matches, which is at the end of the text. *)
Lemma scan_end (prev : option ascii) (s : string) (line_num : Z) :
  get_token prev s = None -> scan prev s 0 line_num = [].
Proof.
  intros Hget. destruct s as [|c s]; [reflexivity|].
  cbn [scan]. now rewrite Hget.
Qed.

End LexerFacts.

(* ====================================================================== *)
(** ** Properties of the parser *)
(* ====================================================================== *)

(** A parse that stays within its depth budget is the parse at any larger
    budget. *)
Section ParserFacts.
Import Parser ParserSpec.

Lemma agrees_refl {A : Type} (m : M A) : agrees m m.
Proof. now intros p _. Qed.

Lemma agrees_bind {A B : Type} (m m' : M A) (k k' : A -> M B) :
  agrees m m' -> (forall a, agrees (k a) (k' a)) ->
  agrees (mbind m k) (mbind m' k').
Proof.
  intros Hm Hk p H. unfold mbind in *.
  destruct (m p) as [p1 [a|e]] eqn:E.
  - rewrite (Hm p) by (rewrite E; discriminate). rewrite E. now apply Hk.
  - rewrite (Hm p)
      by (rewrite E; intros X; apply H; cbn in *; now injection X as ->).
    now rewrite E.
Qed.

Lemma agrees_children (ms ms' : list (M CSTNode)) :
  Forall2 agrees ms ms' -> agrees (children_of ms) (children_of ms').
Proof.
  induction 1 as [|m m' ms ms' Hm _ IH]; cbn [children_of].
  - apply agrees_refl.
  - apply agrees_bind; [exact Hm|]. intros c.
    apply agrees_bind; [exact IH|]. intros cs. apply agrees_refl.
Qed.

Lemma agrees_production (node_type : string) (ms ms' : list (M CSTNode)) :
  Forall2 agrees ms ms' ->
  agrees (production node_type ms) (production node_type ms').
Proof.
  intros H. unfold production. apply agrees_bind.
  - now apply agrees_children.
  - intros cs. apply agrees_refl.
Qed.

Lemma agrees_raise {A : Type} (m' : M A) : agrees (raise RecursionError) m'.
Proof. intros p H. now destruct H. Qed.

(** Solves [agrees] between two runs of one production whose parts agree. *)
Ltac production_agrees :=
  apply agrees_production;
  repeat (first [apply List.Forall2_nil | apply List.Forall2_cons]);
  first [apply agrees_refl | assumption].

Lemma expression_depth (d : nat) :
  forall d', (d <= d')%nat ->
    agrees (parse_expression d) (parse_expression d')
    /\ agrees (parse_expression_tail d) (parse_expression_tail d')
    /\ agrees (parse_term d) (parse_term d')
    /\ agrees (parse_term_tail d) (parse_term_tail d')
    /\ agrees (parse_factor d) (parse_factor d').
Proof.
  induction d as [|d IH]; intros d' Hle.
  - repeat split; apply agrees_raise.
  - destruct d' as [|d']; [lia|].
    destruct (IH d' ltac:(lia)) as (He & Het & Ht & Htt & Hf).
    repeat split; cbn [parse_expression parse_expression_tail parse_term
                       parse_term_tail parse_factor].
    + production_agrees.
    + intros p. destruct (peek_in _ p); revert p; production_agrees.
    + production_agrees.
    + intros p. destruct (peek_in _ p); revert p; production_agrees.
    + intros p.
      repeat match goal with
             | |- context [if ?b then _ else _] => destruct b
             end; try (revert p; production_agrees).
      now intros _.
Qed.

Lemma condition_depth (d d' : nat) :
  (d <= d')%nat -> agrees (parse_condition d) (parse_condition d').
Proof.
  intros Hle. destruct (expression_depth d d' Hle) as (He & _).
  assert (Htail : agrees (parse_condition_tail d) (parse_condition_tail d')).
  { intros p. unfold parse_condition_tail.
    destruct (peek_in _ p); revert p; production_agrees. }
  unfold parse_condition. production_agrees.
Qed.

Lemma declaration_depth (d d' : nat) :
  (d <= d')%nat -> agrees (parse_declaration d) (parse_declaration d').
Proof.
  intros Hle. destruct (expression_depth d d' Hle) as (He & _).
  assert (Htail : agrees (parse_var_tail d) (parse_var_tail d')).
  { intros p. unfold parse_var_tail.
    repeat match goal with
           | |- context [if ?b then _ else _] => destruct b
           end; try (revert p; production_agrees).
    now intros _. }
  intros p. unfold parse_declaration.
  repeat match goal with
         | |- context [if ?b then _ else _] => destruct b
         end; try (revert p; production_agrees).
  now intros _.
Qed.

Lemma repeat_while_depth (kinds : list string) (item item' : M CSTNode) :
  agrees item item' ->
  forall d d', (d <= d')%nat ->
    agrees (repeat_while kinds item d) (repeat_while kinds item' d').
Proof.
  intros Hitem. induction d as [|d IH]; intros d' Hle.
  - apply agrees_raise.
  - destruct d' as [|d']; [lia|]. cbn [repeat_while]. intros p.
    destruct (peek_in kinds p); [|now intros _]. revert p.
    apply agrees_bind; [exact Hitem|]. intros c.
    apply agrees_bind; [apply IH; lia|]. intros cs. apply agrees_refl.
Qed.

Lemma statements_depth (d : nat) :
  forall d', (d <= d')%nat ->
    agrees (parse_statements d) (parse_statements d')
    /\ agrees (parse_statement d) (parse_statement d')
    /\ agrees (parse_block d) (parse_block d')
    /\ agrees (parse_if d) (parse_if d')
    /\ agrees (parse_else_part d) (parse_else_part d')
    /\ agrees (parse_while d) (parse_while d').
Proof.
  induction d as [|d IH]; intros d' Hle.
  - repeat split; apply agrees_raise.
  - destruct d' as [|d']; [lia|].
    destruct (IH d' ltac:(lia)) as (Hss & Hs & Hb & Hi & He & Hw).
    pose proof (condition_depth d d' ltac:(lia)) as Hc.
    destruct (expression_depth d d' ltac:(lia)) as (Hx & _).
    repeat split; cbn [parse_statements parse_statement parse_block parse_if
                       parse_else_part parse_while].
    + apply agrees_bind; [apply repeat_while_depth; [exact Hs|lia]|].
      intros cs. apply agrees_refl.
    + intros p.
      repeat match goal with
             | |- context [if ?b then _ else _] => destruct b
             end; try (revert p; assumption); try now intros _.
      revert p. unfold parse_assignment. production_agrees.
    + production_agrees.
    + production_agrees.
    + intros p. destruct (peek_is _ p); revert p; production_agrees.
    + production_agrees.
Qed.

Lemma program_depth (d d' : nat) :
  (d <= d')%nat -> agrees (parse_program_at d) (parse_program_at d').
Proof.
  intros Hle.
  destruct (statements_depth d d' Hle) as (Hss & _).
  assert (Hds : agrees (parse_declarations d) (parse_declarations d')).
  { unfold parse_declarations. apply agrees_bind.
    - apply repeat_while_depth; [now apply declaration_depth|exact Hle].
    - intros cs. apply agrees_refl. }
  unfold parse_program_at. production_agrees.
Qed.

(** The result of [parse_program], when it is not the exhaustion of the
    depth budget, is the result at every larger budget. *)
Lemma parse_program_depth (tokens : list token) (d : nat) :
  (depth_for tokens <= d)%nat ->
  parse_program tokens <> Raise RecursionError ->
  snd (parse_program_at d (init tokens)) = parse_program tokens.
Proof.
  intros Hle H. unfold parse_program in *.
  now rewrite (program_depth _ _ Hle (init tokens) H).
Qed.

(** *** The depth budget is never exhausted *)

Lemma safe_weaken {A} (r r' n n' : nat) (m : M A) :
  safe r n m -> (r' <= r)%nat -> (n' <= n)%nat -> safe r' n' m.
Proof.
  intros H Hr Hn p Hwf Hrem. destruct (H p Hwf ltac:(lia)) as [H1 H2].
  split; [exact H1|]. intros p' a E. destruct (H2 p' a E).
  split; [assumption|lia].
Qed.

Lemma safe_ret {A} (r : nat) (a : A) : safe r 0 (ret a).
Proof.
  intros p Hwf _. split; [discriminate|]. unfold ret. intros p' a' E.
  injection E as <- <-. split; [exact Hwf|lia].
Qed.

Lemma safe_eat (r : nat) (token_type : string) : safe r 1 (eat token_type).
Proof.
  intros p Hwf _. unfold eat.
  destruct (current_token p) as [tok|] eqn:E; [|split; discriminate].
  destruct (str_eq _ _); [|split; discriminate].
  split; [discriminate|]. intros p' a. cbn. injection 1 as <- <-.
  split; [reflexivity|]. unfold remaining. cbn.
  assert (pos p < length (tokens p))%nat; [|lia].
  apply nth_error_Some. unfold wf in Hwf. congruence.
Qed.

Lemma safe_eat_peek (r : nat) : safe r 1 eat_peek.
Proof.
  intros p Hwf Hr. unfold eat_peek.
  destruct (peek p); [now apply (safe_eat r)|split; discriminate].
Qed.

Lemma safe_bind {A B} (r n n' k : nat) (m : M A) (f : A -> M B) :
  safe r n m ->
  ((n <= r)%nat -> forall a, safe (r - n) n' (f a)) ->
  (k <= n + n')%nat ->
  safe r k (mbind m f).
Proof.
  intros Hm Hf Hk p Hwf Hr. unfold mbind.
  destruct (Hm p Hwf Hr) as [H1 H2].
  destruct (m p) as [p1 [a|e]] eqn:E.
  - destruct (H2 p1 a eq_refl) as [Hwf1 Hr1].
    destruct (Hf ltac:(lia) a p1 Hwf1 ltac:(lia)) as [H3 H4].
    split; [exact H3|]. intros p' b E'. destruct (H4 p' b E').
    split; [assumption|lia].
  - split; [|discriminate]. cbn in *. intros X. apply H1. now injection X as ->.
Qed.

Lemma safe_children_nil (r : nat) : safe r 0 (children_of []).
Proof. apply safe_ret. Qed.

Lemma safe_children_cons (r n n' k : nat) (m : M CSTNode)
    (ms : list (M CSTNode)) :
  safe r n m ->
  ((n <= r)%nat -> safe (r - n) n' (children_of ms)) ->
  (k <= n + n')%nat ->
  safe r k (children_of (m :: ms)).
Proof.
  intros Hm Hms Hk. cbn [children_of].
  apply (safe_bind r n n' k); [exact Hm| |exact Hk].
  intros Hn c. apply (safe_bind (r - n) n' 0 n'); [now apply Hms| |lia].
  intros _ cs. apply safe_ret.
Qed.

Lemma safe_production (r n : nat) (node_type : string) (ms : list (M CSTNode)) :
  safe r n (children_of ms) -> safe r n (production node_type ms).
Proof.
  intros H. unfold production. apply (safe_bind r n 0 n); [exact H| |lia].
  intros _ cs. apply safe_ret.
Qed.

Lemma safe_if {A} (r n : nat) (b : t -> bool) (m1 m2 : M A) :
  safe r n m1 -> safe r n m2 -> safe r n (fun p => if b p then m1 p else m2 p).
Proof.
  intros H1 H2 p Hwf Hr. destruct (b p); [now apply H1|now apply H2].
Qed.

Lemma safe_world_def r : safe r 7 parse_world_def.
Proof.
  unfold parse_world_def.
  apply safe_production.
  repeat (eapply safe_children_cons; [apply safe_eat | intros ? | ]).
  apply safe_children_nil. all: first [apply Nat.le_refl | lia].
Qed.

(** Solves [safe r n (production ty [m1; m2; ...])], the parts by [tac]. *)
Ltac safe_parts tac :=
  apply safe_production;
  repeat (eapply safe_children_cons; [tac | intros ? | ]);
  [apply safe_children_nil | ..];
  first [apply Nat.le_refl | lia].

Lemma safe_check (r n : nat) (b : t -> bool) (m : M CSTNode) (f : t -> exn) :
  safe r n m -> (forall p, f p <> RecursionError) ->
  safe r n (fun p => if b p then m p else (p, Raise (f p))).
Proof.
  intros Hm Hf p Hwf Hr. destruct (b p); [now apply Hm|].
  split; [|discriminate]. cbn. intros E. injection E as E. now apply (Hf p).
Qed.

Lemma safe_type r : safe r 1 parse_type.
Proof.
  apply safe_check; [|discriminate].
  safe_parts ltac:(apply safe_eat_peek).
Qed.

Lemma safe_one r ty : safe r 1 (production ty [eat_peek]).
Proof. safe_parts ltac:(apply safe_eat_peek). Qed.

Lemma safe_action r : safe r 2 parse_action.
Proof.
  apply safe_check; [|discriminate].
  safe_parts ltac:(first [apply safe_eat_peek | apply safe_eat]).
Qed.

Ltac safe_leaf :=
  first [ apply safe_eat | apply safe_eat_peek | apply safe_one
        | apply safe_type | apply safe_action | apply safe_world_def ].

Lemma expression_safe (d : nat) :
  forall r,
    ((3 * r + 3 <= d)%nat -> safe r 1 (parse_expression d))
    /\ ((3 * r + 3 <= d)%nat -> safe r 0 (parse_expression_tail d))
    /\ ((3 * r + 2 <= d)%nat -> safe r 1 (parse_term d))
    /\ ((3 * r + 2 <= d)%nat -> safe r 0 (parse_term_tail d))
    /\ ((3 * r + 1 <= d)%nat -> safe r 1 (parse_factor d)).
Proof.
  induction d as [|d IH]; intros r;
    [split; [|split; [|split; [|split]]]; lia|].
  assert (He : forall r, (3 * r + 3 <= d)%nat -> safe r 1 (parse_expression d))
    by (intros r'; apply IH).
  assert (Het : forall r, (3 * r + 3 <= d)%nat -> safe r 0 (parse_expression_tail d))
    by (intros r'; apply IH).
  assert (Ht : forall r, (3 * r + 2 <= d)%nat -> safe r 1 (parse_term d))
    by (intros r'; apply IH).
  assert (Htt : forall r, (3 * r + 2 <= d)%nat -> safe r 0 (parse_term_tail d))
    by (intros r'; apply IH).
  assert (Hf : forall r, (3 * r + 1 <= d)%nat -> safe r 1 (parse_factor d))
    by (intros r'; apply IH).
  clear IH.
  split; [|split; [|split; [|split]]]; intros Hd;
    cbn [parse_expression parse_expression_tail parse_term parse_term_tail
         parse_factor].
  - safe_parts ltac:(first [apply Ht; lia | apply Het; lia]).
  - apply safe_if.
    + safe_parts ltac:(first [safe_leaf | apply Ht; lia | apply Het; lia]).
    + safe_parts idtac.
  - safe_parts ltac:(first [apply Hf; lia | apply Htt; lia]).
  - apply safe_if.
    + safe_parts ltac:(first [safe_leaf | apply Hf; lia | apply Htt; lia]).
    + safe_parts idtac.
  - repeat (apply safe_if;
            [safe_parts ltac:(first [safe_leaf | apply He; lia | apply Hf; lia])|]).
    intros p _ _. split; discriminate.
Qed.

Lemma safe_expression (d r : nat) :
  (3 * r + 3 <= d)%nat -> safe r 1 (parse_expression d).
Proof. apply expression_safe. Qed.

Lemma safe_condition (d r : nat) :
  (3 * r + 3 <= d)%nat -> safe r 1 (parse_condition d).
Proof.
  intros Hd. unfold parse_condition.
  assert (Htail : forall r', (r' <= r)%nat -> safe r' 0 (parse_condition_tail d)).
  { intros r' Hr'. unfold parse_condition_tail. apply safe_if.
    - safe_parts ltac:(first [safe_leaf | apply safe_expression; lia]).
    - safe_parts idtac. }
  safe_parts ltac:(first [apply safe_expression; lia | apply Htail; lia]).
Qed.

Lemma safe_declaration (d r : nat) :
  (3 * r + 3 <= d)%nat -> safe r 1 (parse_declaration d).
Proof.
  intros Hd.
  assert (Htail : forall r', (r' <= r)%nat -> safe r' 1 (parse_var_tail d)).
  { intros r' Hr'. unfold parse_var_tail.
    repeat (apply safe_if;
            [safe_parts ltac:(first [safe_leaf | apply safe_expression; lia])|]).
    intros p _ _. split; discriminate. }
  unfold parse_declaration.
  repeat (apply safe_if;
          [safe_parts ltac:(first [safe_leaf | apply safe_expression; lia
                                  | apply Htail; lia])|]).
  intros p _ _. split; discriminate.
Qed.

(** A loop whose item consumes a token turns at most once per token. *)
Lemma safe_repeat_while (kinds : list string) (item : M CSTNode) (d : nat) :
  forall r,
    (r + 1 <= d)%nat -> safe r 1 item -> safe r 0 (repeat_while kinds item d).
Proof.
  induction d as [|d IH]; intros r Hd Hitem; [lia|].
  cbn [repeat_while]. apply safe_if; [|apply safe_ret].
  apply (safe_bind r 1 0 0); [exact Hitem| |lia].
  intros Hr c. apply (safe_bind (r - 1) 0 0 0); [| |lia].
  - apply IH; [lia|]. apply (safe_weaken r _ 1 _); [exact Hitem|lia|lia].
  - intros _ cs. apply safe_ret.
Qed.

Lemma statements_safe (d : nat) :
  forall r,
    ((4 * r + 3 <= d)%nat -> safe r 0 (parse_statements d))
    /\ ((4 * r + 2 <= d)%nat -> safe r 1 (parse_statement d))
    /\ ((4 * r + 1 <= d)%nat -> safe r 1 (parse_block d))
    /\ ((4 * r + 1 <= d)%nat -> safe r 1 (parse_if d))
    /\ ((4 * r + 1 <= d)%nat -> safe r 0 (parse_else_part d))
    /\ ((4 * r + 1 <= d)%nat -> safe r 1 (parse_while d)).
Proof.
  induction d as [|d IH]; intros r;
    [split; [|split; [|split; [|split; [|split]]]]; lia|].
  assert (Hss : forall r, (4 * r + 3 <= d)%nat -> safe r 0 (parse_statements d))
    by (intros r'; apply IH).
  assert (Hs : forall r, (4 * r + 2 <= d)%nat -> safe r 1 (parse_statement d))
    by (intros r'; apply IH).
  assert (Hb : forall r, (4 * r + 1 <= d)%nat -> safe r 1 (parse_block d))
    by (intros r'; apply IH).
  assert (Hi : forall r, (4 * r + 1 <= d)%nat -> safe r 1 (parse_if d))
    by (intros r'; apply IH).
  assert (He : forall r, (4 * r + 1 <= d)%nat -> safe r 0 (parse_else_part d))
    by (intros r'; apply IH).
  assert (Hw : forall r, (4 * r + 1 <= d)%nat -> safe r 1 (parse_while d))
    by (intros r'; apply IH).
  clear IH.
  split; [|split; [|split; [|split; [|split]]]]; intros Hd;
    cbn [parse_statements parse_statement parse_block parse_if parse_else_part
         parse_while].
  - apply (safe_bind r 0 0 0); [| |lia].
    + apply safe_repeat_while; [lia|apply Hs; lia].
    + intros _ cs. apply safe_ret.
  - apply safe_if.
    { unfold parse_assignment.
      safe_parts ltac:(first [safe_leaf | apply safe_expression; lia]). }
    apply safe_if; [apply Hi; lia|].
    apply safe_if; [apply Hw; lia|].
    apply safe_if; [apply Hb; lia|].
    apply safe_if; [apply (safe_weaken r _ 2 _); [apply safe_action|lia|lia]|].
    intros p _ _. split; discriminate.
  - safe_parts ltac:(first [safe_leaf | apply Hss; lia]).
  - safe_parts ltac:(first [safe_leaf | apply safe_condition; lia
                           | apply Hb; lia | apply He; lia]).
  - apply safe_if.
    + safe_parts ltac:(first [safe_leaf | apply Hb; lia]).
    + safe_parts idtac.
  - safe_parts ltac:(first [safe_leaf | apply safe_condition; lia | apply Hb; lia]).
Qed.

Lemma safe_program (d r : nat) :
  (4 * r + 3 <= d)%nat -> safe r 1 (parse_program_at d).
Proof.
  intros Hd. unfold parse_program_at.
  assert (Hds : forall r', (r' <= r)%nat -> safe r' 0 (parse_declarations d)).
  { intros r' Hr'. unfold parse_declarations.
    apply (safe_bind r' 0 0 0); [| |lia].
    - apply safe_repeat_while; [lia|apply safe_declaration; lia].
    - intros _ cs. apply safe_ret. }
  assert (Hss : forall r', (r' <= r)%nat -> safe r' 0 (parse_statements d)).
  { intros r' Hr'. apply statements_safe. lia. }
  safe_parts ltac:(first [safe_leaf | apply Hds; lia | apply Hss; lia]).
Qed.

(** The depth budget of [parse_program] is never exhausted. *)
Lemma parse_program_total (tokens : list token) :
  parse_program tokens <> Raise RecursionError.
Proof.
  unfold parse_program.
  apply (safe_program (depth_for tokens) (length tokens)).
  - unfold depth_for. lia.
  - reflexivity.
  - unfold remaining. cbn. lia.
Qed.

End ParserFacts.

(* ====================================================================== *)
(** ** Properties of the converter *)
(* ====================================================================== *)

Section ConverterClaims.
Import Converter.

(** C1.  The flattening of a composite expression node consults only the
    immediate tail slot: the result is the binary expression of the left
    operand, the tail's operator and the tail's operand, whatever the
    tail's own nested tail holds, so every operator and operand after the
    second operand is dropped.  In particular [1 + 2 + 3] is converted to
    [1 + 2] and evaluates to 3, not 6. *)
Theorem flatten_drops_after_second_operand :
  (forall (type : string) (value tail_value : option string)
          (tail_type : string)
          (first op_node operand : cst_dict)
          (nested nested' others : list cst_dict),
      type <> "FACTOR" ->
      let node tail_rest :=
        Dict type value
          (Some (first
                 :: Dict tail_type tail_value
                      (Some (op_node :: operand :: tail_rest))
                 :: others)) in
      flatten_expression (node nested) = flatten_expression (node nested')
      /\ flatten_expression (node nested)
         = (l <- flatten_expression first ;;
            op <- (o <- child op_node 0 ;; value_of o) ;;
            r <- flatten_expression operand ;;
            Ok (Some (BinaryExpr op l r))))
  /\ (let tokens := Lexer.get_token_stream "1 + 2 + 3" in
      exists (cst : CSTNode) (p : Parser.t) (e : expr),
        Parser.parse_expression (Parser.depth_for tokens) (Parser.init tokens)
          = (p, Ok cst)
        /\ Parser.current_token p = None
        /\ to_dict cst = Examples.one_plus_two [Examples.plus_three]
        /\ convert_expression (to_dict cst) = Ok (Some e)
        /\ e = BinaryExpr "+" (Some (Literal (VInt 1))) (Some (Literal (VInt 2)))
        /\ Interpreter.evaluate_node Interpreter.init e = Ok (VInt 3)
        /\ Interpreter.evaluate_node Interpreter.init e <> Ok (VInt 6))
  /\ (exists it,
        Main.run_source "program p { grid(5,5); var x: int = 1 + 2 + 3; }"
          = Main.Success it
        /\ Environment.get "x" (Interpreter.env it) = Ok (VInt 3)).
Proof.
  split; [|split].
  - intros type value tail_value tail_type first op_node operand
      nested nested' others Hty node.
    apply String.eqb_neq in Hty.
    unfold node. cbn [flatten_expression]. unfold str_eq. rewrite Hty.
    split; reflexivity.
  - cbn zeta. eexists _, _, _.
    split; [vm_compute; reflexivity|].
    split; [reflexivity|]. split; [reflexivity|].
    split; [vm_compute; reflexivity|]. split; [reflexivity|].
    split; [reflexivity|]. discriminate.
  - eexists. split; [vm_compute; reflexivity|]. vm_compute. reflexivity.
Qed.

Lemma flatten_drops_after_second_operand_witness :
  flatten_expression (Examples.one_plus_two [])
  = flatten_expression (Examples.one_plus_two [Examples.plus_three]).
Proof.
  apply (proj1 flatten_drops_after_second_operand "EXPRESSION" None None
           "EXPRESSION_TAIL" (Examples.literal_term "1") Examples.plus
           (Examples.literal_term "2") [] [Examples.plus_three] []).
  discriminate.
Defined.

End ConverterClaims.

(* ====================================================================== *)
(** ** Properties of the semantic analysis *)
(* ====================================================================== *)


Section SemanticFacts.
Import Semantic AstSpec.

Lemma resolve_node_app (scope : Scope.t) (e : expr) :
  forall errors,
    resolve_node scope e errors = (errors ++ resolve_node scope e [])%list.
Proof.
  induction e as [v|name|op l r IHl IHr] using expr_induction;
    intros errors; cbn [resolve_node].
  - now rewrite app_nil_r.
  - destruct (Scope.resolve name scope); [now rewrite app_nil_r|reflexivity].
  - destruct l as [l|], r as [r|]; cbn.
    + rewrite (IHr (resolve_node scope l errors)), (IHr (resolve_node scope l [])).
      rewrite (IHl errors). now rewrite <- app_assoc.
    + apply IHl.
    + apply IHr.
    + now rewrite app_nil_r.
Qed.

Lemma resolve_expr_app (scope : Scope.t) (slot : option expr) errors :
  resolve_expr slot scope errors
  = (errors ++ resolve_expr slot scope [])%list.
Proof.
  destruct slot as [e|]; cbn; [apply resolve_node_app|now rewrite app_nil_r].
Qed.

Lemma resolve_node_undefined (name : string) (scope : Scope.t) (e : expr) :
  Scope.resolve name scope = None ->
  expr_mentions name e = true ->
  Exists undefined (resolve_node scope e []).
Proof.
  intros Hres.
  induction e as [v|n|op l r IHl IHr] using expr_induction;
    cbn [expr_mentions resolve_node]; intros Hm.
  - discriminate.
  - apply String.eqb_eq in Hm. subst n. rewrite Hres.
    apply Exists_cons_hd. reflexivity.
  - apply orb_true_iff in Hm.
    destruct l as [l|], r as [r|]; cbn;
      try rewrite (resolve_node_app scope r (resolve_node scope l []));
      destruct Hm as [Hm|Hm]; try discriminate;
      try (apply Exists_app; (left; now apply IHl) || (right; now apply IHr));
      auto.
Qed.

Lemma resolve_expr_undefined (name : string) (scope : Scope.t) slot :
  Scope.resolve name scope = None ->
  in_slot (expr_mentions name) slot = true ->
  Exists undefined (resolve_expr slot scope []).
Proof.
  intros Hres. destruct slot as [e|]; cbn; [|discriminate].
  now apply resolve_node_undefined.
Qed.

Lemma walks_all (name : string) (scope : Scope.t) (l : list stmt) :
  Forall (walks name scope) l ->
  forallb dict_nodes l = true ->
  forall errors, exists extra,
    for_each (check_statement scope) l errors = ((errors ++ extra)%list, Ok tt)
    /\ (existsb (walked_mentions name) l = true -> Exists undefined extra).
Proof.
  induction 1 as [|s l Hs _ IH]; intros Hd errors; cbn.
  - exists []. rewrite app_nil_r. split; [reflexivity|discriminate].
  - cbn in Hd. apply andb_true_iff in Hd as [Hds Hdl].
    destruct (Hs Hds errors) as (extra1 & -> & Hm1).
    destruct (IH Hdl (errors ++ extra1)%list) as (extra2 & -> & Hm2).
    exists (extra1 ++ extra2)%list. rewrite app_assoc.
    split; [reflexivity|]. intros Hm. apply Exists_app.
    apply orb_true_iff in Hm as [Hm|Hm]; [left|right]; auto.
Qed.

Lemma check_statement_walks (name : string) (scope : Scope.t) :
  Scope.resolve name scope = None ->
  forall s, walks name scope s.
Proof.
  intros Hres s.
  induction s as [id ty v|id ty v|target v|test consequent alternate IHc IHa
                 |test body IHb|action|stmts _|]
    using stmt_induction; intros Hd errors; cbn [check_statement].
  - exists []. rewrite app_nil_r. split; [reflexivity|discriminate].
  - exists []. rewrite app_nil_r. split; [reflexivity|discriminate].
  - rewrite resolve_expr_app.
    assert (Ht : exists extra,
               check_target target scope errors = (errors ++ extra)%list).
    { unfold check_target. destruct (Scope.resolve target scope) as [sym|];
        [destruct (str_eq _ _)|]; eauto. exists []. now rewrite app_nil_r. }
    destruct Ht as (extra & ->).
    exists (extra ++ resolve_expr v scope [])%list. rewrite app_assoc.
    split; [reflexivity|]. cbn [walked_mentions]. intros Hm.
    apply Exists_app. right. now apply (resolve_expr_undefined name).
  - cbn in Hd. apply andb_true_iff in Hd as [Hdc Hda].
    rewrite resolve_expr_app.
    destruct (walks_all name scope consequent IHc Hdc
                (errors ++ resolve_expr test scope [])%list)
      as (extra1 & -> & Hm1).
    assert (Halt : exists extra2,
               match alternate with
               | Some (s0 :: alt) =>
                   for_each (check_statement scope) (s0 :: alt)
                     ((errors ++ resolve_expr test scope []) ++ extra1)%list
               | Some [] | None =>
                   (((errors ++ resolve_expr test scope []) ++ extra1)%list, Ok tt)
               end
               = ((((errors ++ resolve_expr test scope []) ++ extra1)
                    ++ extra2)%list, Ok tt)
               /\ (match alternate with
                   | Some alt => existsb (walked_mentions name) alt
                   | None => false
                   end = true -> Exists undefined extra2)).
    { destruct alternate as [[|s0 alt]|].
      - exists []. rewrite app_nil_r. split; [reflexivity|discriminate].
      - apply (walks_all name scope (s0 :: alt) IHa Hda).
      - exists []. rewrite app_nil_r. split; [reflexivity|discriminate]. }
    destruct Halt as (extra2 & -> & Hm2).
    exists ((resolve_expr test scope [] ++ extra1) ++ extra2)%list.
    rewrite !app_assoc. split; [reflexivity|].
    cbn [walked_mentions]. intros Hm.
    apply orb_true_iff in Hm as [Hm|Hm];
      [apply orb_true_iff in Hm as [Hm|Hm]|].
    + apply Exists_app. left. apply Exists_app. left.
      now apply (resolve_expr_undefined name).
    + apply Exists_app. left. apply Exists_app. right. auto.
    + apply Exists_app. right. auto.
  - cbn in Hd. rewrite resolve_expr_app.
    destruct (walks_all name scope body IHb Hd
                (errors ++ resolve_expr test scope [])%list)
      as (extra & -> & Hm1).
    exists (resolve_expr test scope [] ++ extra)%list.
    rewrite app_assoc. split; [reflexivity|].
    cbn [walked_mentions]. intros Hm. apply Exists_app.
    apply orb_true_iff in Hm as [Hm|Hm]; [left|right]; auto.
    now apply (resolve_expr_undefined name).
  - exists []. rewrite app_nil_r. split; [reflexivity|discriminate].
  - discriminate.
  - discriminate.
Qed.

(** The declaration pass on nodes returns and binds exactly the declared
    names, in a scope without a parent. *)
Lemma declaration_pass (name : string) (body : list stmt) :
  forallb dict_nodes body = true ->
  forall scope errors,
    Scope.parent scope = None ->
    exists scope' errors',
      for_each declare_stmt body (scope, errors) = ((scope', errors'), Ok tt)
      /\ Scope.parent scope' = None
      /\ (Scope.names scope' !! name = None <->
          Scope.names scope !! name = None
          /\ existsb (declares name) body = false).
Proof.
  induction body as [|s body IH]; intros Hd scope errors Hp.
  - exists scope, errors. split; [reflexivity|]. split; [exact Hp|].
    split; [now intros ?|now intros [? _]].
  - rewrite for_each_cons. cbn [existsb]. cbn in Hd. apply andb_true_iff in Hd as [Hds Hdb].
    assert (Hstep : exists scope1 errors1,
               declare_stmt s (scope, errors) = ((scope1, errors1), Ok tt)
               /\ Scope.parent scope1 = None
               /\ (Scope.names scope1 !! name = None <->
                   Scope.names scope !! name = None
                   /\ declares name s = false)).
    { assert (Hdecl : forall category id ty,
                 exists scope1 errors1,
                   match Scope.declare id category ty (Some s) None scope with
                   | Ok scope' => ((scope', errors), Ok tt)
                   | Raise (KeyError m) =>
                       ((scope, (errors ++ [mkDiag "E_DUP_DECL"
                                              (str_of_key_error m)])%list), Ok tt)
                   | Raise e => ((scope, errors), Raise e)
                   end = ((scope1, errors1), Ok tt)
                   /\ Scope.parent scope1 = None
                   /\ (Scope.names scope1 !! name = None <->
                       Scope.names scope !! name = None
                       /\ str_eq id name = false)).
      { intros category id ty. unfold Scope.declare.
        destruct (Scope.names scope !! id) as [sym|] eqn:Hid.
        - exists scope, (errors ++ [mkDiag "E_DUP_DECL"
                           (str_of_key_error (Scope.duplicate_msg id))])%list.
          split; [reflexivity|]. split; [exact Hp|].
          split; [|now intros [? _]]. intros Hn. split; [exact Hn|].
          apply String.eqb_neq. intros ->. congruence.
        - eexists _, errors. split; [reflexivity|]. cbn.
          split; [exact Hp|].
          unfold str_eq. destruct (String.eqb_spec id name) as [->|Hne].
          + rewrite lookup_insert_eq. split; [discriminate|now intros [_ ?]].
          + rewrite lookup_insert_ne by exact Hne.
            split; [now intros ?|now intros [? _]]. }
      destruct s; cbn [declare_stmt declares]; try discriminate;
        try apply Hdecl;
        (exists scope, errors; split; [reflexivity|]; split; [exact Hp|];
         split; [now intros ?|now intros [? _]]). }
    destruct Hstep as (scope1 & errors1 & -> & Hp1 & Hn1).
    destruct (IH Hdb scope1 errors1 Hp1) as (scope' & errors' & -> & Hp' & Hn').
    exists scope', errors'. split; [reflexivity|]. split; [exact Hp'|].
    rewrite Hn', Hn1, orb_false_iff. tauto.
Qed.

Lemma resolve_global (name : string) (scope : Scope.t) :
  Scope.parent scope = None ->
  Scope.resolve name scope
  = Scope.names scope !! name.
Proof.
  destruct scope as [p lv ns]. cbn. intros ->.
  now destruct (ns !! name).
Qed.

End SemanticFacts.

Section SemanticClaims.
Import Semantic AstSpec.

(** C4.  For the program that declares [const x: int = 5;] and then
    assigns [x = 6;] the semantic analysis returns exactly one
    diagnostic, of code E_CONST_ASSIGN, and the run ends there: the
    pipeline exits on a non-empty list of diagnostics before an
    interpreter is created. *)
Theorem const_assignment_stops_the_pipeline :
  Main.front_end Examples.const_source = Ok (Some Examples.const_ast)
  /\ analyze Examples.const_ast
     = Ok [mkDiag "E_CONST_ASSIGN" "Cannot reassign constant: x"]
  /\ Main.run_source Examples.const_source
     = Main.SemanticExit [mkDiag "E_CONST_ASSIGN" "Cannot reassign constant: x"]
  /\ (forall (pname x ty : string) (init : option expr) (v : value),
        analyze (mkProgram pname [ConstDecl x ty init; Assign x (Some (Literal v))])
        = Ok [mkDiag "E_CONST_ASSIGN" ("Cannot reassign constant: " +:+ x)])
  /\ (forall (source : string) (ast : Program) (d : diagnostic)
             (errors : list diagnostic),
        Main.front_end source = Ok (Some ast) ->
        analyze ast = Ok (d :: errors) ->
        Main.run_source source = Main.SemanticExit (d :: errors)).
Proof.
  split; [vm_compute; reflexivity|].
  split; [vm_compute; reflexivity|].
  split; [vm_compute; reflexivity|].
  split.
  - intros pname x ty init v. unfold analyze. cbn [prog_body].
    rewrite !for_each_cons. cbn [declare_stmt].
    unfold Scope.declare, Scope.init. cbn [Scope.names Scope.parent Scope.level].
    rewrite lookup_empty. cbn [for_each declare_stmt].
    unfold check_statements. rewrite !for_each_cons.
    cbn [check_statement for_each]. unfold check_target.
    cbn [Scope.resolve]. rewrite lookup_insert_eq. reflexivity.
  - intros source ast d errors Hfront Han. unfold Main.run_source.
    now rewrite Hfront, Han.
Qed.

Lemma const_assignment_stops_the_pipeline_witness :
  Main.run_source Examples.const_source
  = Main.SemanticExit [mkDiag "E_CONST_ASSIGN" "Cannot reassign constant: x"].
Proof.
  destruct const_assignment_stops_the_pipeline as (Hf & Ha & _ & _ & Hclosed).
  exact (Hclosed _ _ _ _ Hf Ha).
Defined.

(** C10, as the claim is stated, fails: [sense] in the initializer of a
    declaration is an identifier in an expression of the body, the
    analysis of that program returns no diagnostic, and the run goes on
    to the interpreter, which evaluates [sense] on the grid. *)
Lemma sense_in_initializer_is_not_reported :
  Main.front_end Examples.sense_init_source = Ok (Some Examples.sense_init_ast)
  /\ existsb (stmt_mentions "sense") (prog_body Examples.sense_init_ast) = true
  /\ analyze Examples.sense_init_ast = Ok []
  /\ (exists it,
        Main.run_source Examples.sense_init_source = Main.Success it
        /\ Environment.get "b" (Interpreter.env it) = Ok (VBool false))
  /\ ~ (forall ast : Program,
          existsb (stmt_mentions "sense") (prog_body ast) = true ->
          exists errors, analyze ast = Ok errors /\ Exists undefined errors).
Proof.
  split; [vm_compute; reflexivity|].
  split; [reflexivity|].
  assert (Han : analyze Examples.sense_init_ast = Ok [])
    by (vm_compute; reflexivity).
  split; [exact Han|]. split.
  - eexists. split; vm_compute; reflexivity.
  - intros Hall.
    destruct (Hall Examples.sense_init_ast eq_refl) as (errors & He & Hex).
    rewrite Han in He. injection He as <-. inversion Hex.
Qed.

(** C10, amended.  For every AST made of nodes that does not declare
    [sense], if [Identifier sense] occurs in an expression the resolution
    pass walks (an assigned value or the test of an [if] or [while], at
    any depth of their blocks and operands), the analysis returns at
    least one E_UNDEFINED diagnostic, and the pipeline exits on it before
    the interpreter is created. *)
Theorem sense_in_walked_expression_is_undefined (ast : Program) :
  forallb dict_nodes (prog_body ast) = true ->
  existsb (declares "sense") (prog_body ast) = false ->
  existsb (walked_mentions "sense") (prog_body ast) = true ->
  exists errors,
    analyze ast = Ok errors
    /\ Exists undefined errors
    /\ forall source,
         Main.front_end source = Ok (Some ast) ->
         Main.run_source source = Main.SemanticExit errors.
Proof.
  intros Hnodes Hdecl Hwalk.
  destruct (declaration_pass "sense" (prog_body ast) Hnodes
              (Scope.init None 0) [] eq_refl)
    as (scope & errors0 & Hpass & Hparent & Hnames).
  assert (Hres : Scope.resolve "sense" scope = None).
  { rewrite (resolve_global _ _ Hparent). apply Hnames. split; [|exact Hdecl].
    cbn. apply lookup_empty. }
  destruct (walks_all "sense" scope (prog_body ast)) with (errors := errors0)
    as (extra & Hcheck & Hfound).
  { apply Forall_forall. intros s _. now apply check_statement_walks. }
  { exact Hnodes. }
  assert (Han : analyze ast = Ok (errors0 ++ extra)%list).
  { unfold analyze, check_statements. now rewrite Hpass, Hcheck. }
  exists (errors0 ++ extra)%list. split; [exact Han|]. split.
  - apply Exists_app. right. auto.
  - intros source Hfront. unfold Main.run_source. rewrite Hfront, Han.
    destruct (errors0 ++ extra)%list as [|d rest] eqn:E; [|reflexivity].
    apply app_eq_nil in E as [_ ->]. specialize (Hfound Hwalk). inversion Hfound.
Qed.

Lemma sense_in_walked_expression_is_undefined_witness :
  Main.run_source Examples.sense_loop_source
  = Main.SemanticExit [mkDiag "E_UNDEFINED" "Undefined identifier: sense"].
Proof.
  destruct (sense_in_walked_expression_is_undefined Examples.sense_loop_ast
              eq_refl eq_refl eq_refl)
    as (errors & Han & _ & Hexit).
  assert (E : Ok errors
              = Ok [mkDiag "E_UNDEFINED" "Undefined identifier: sense"]).
  { rewrite <- Han. vm_compute. reflexivity. }
  injection E as <-. apply Hexit. vm_compute. reflexivity.
Defined.

(** The keyword [sense] is a token of its own and is refused where a
    declaration needs an identifier. *)
Example sense_is_a_keyword :
  Lexer.get_token_stream "var sense: bool;"
  = [("VAR", "var", 1); ("SENSE", "sense", 1); ("COLON", ":", 1);
     ("TYPE_BOOL", "bool", 1); ("SEMICOLON", ";", 1)]
  /\ Main.front_end "program p { grid(5,5); var sense: bool; }"
     = Raise (SyntaxError "Expected ID but found ('SENSE', 'sense', 1)").
Proof. split; vm_compute; reflexivity. Qed.

(** An AST given to [main] directly is interpreted without analysis; the
    interpreter then refuses the assignment itself. *)
Example const_assignment_at_run_time :
  exists it,
    Main.run_ast Examples.const_ast
    = Main.RuntimeExit (RuntimeError "Cannot assign to constant: x") it
    /\ Environment.get "x" (Interpreter.env it) = Ok (VInt 5).
Proof. eexists. split; vm_compute; reflexivity. Qed.

End SemanticClaims.

(* ====================================================================== *)
(** ** Further properties of the environment and of scopes *)
(* ====================================================================== *)

Section EnvironmentFacts.
Import Environment EnvSpec.

Lemma get_define_eq (name : string) (v : value) (e : t) :
  get name (define name v e) = Ok v.
Proof. destruct e as [vs p]. cbn. now rewrite lookup_insert_eq. Qed.

Lemma get_define_ne (name other : string) (v : value) (e : t) :
  other <> name -> get other (define name v e) = get other e.
Proof.
  intros Hne. destruct e as [vs p]. cbn.
  now rewrite lookup_insert_ne by congruence.
Qed.

Lemma bound_define (name n : string) (v : value) (e : t) :
  bound n (define name v e) = str_eq n name || bound n e.
Proof.
  destruct e as [vs p]. cbn. unfold str_eq.
  destruct (String.eqb_spec n name) as [->|Hne].
  - rewrite lookup_insert_eq. cbn. reflexivity.
  - rewrite lookup_insert_ne by congruence. reflexivity.
Qed.

Lemma get_bound (name : string) :
  forall e : t,
    (bound name e = true -> exists v, get name e = Ok v)
    /\ (bound name e = false -> get name e = Raise (undefined_variable name)).
Proof.
  fix IH 1. intros [vs [p|]]; cbn; destruct (vs !! name) as [v|] eqn:E; cbn.
  - split; [eauto|discriminate].
  - apply IH.
  - split; [eauto|discriminate].
  - split; [discriminate|reflexivity].
Qed.

Lemma set_bound (name : string) (v : value) :
  forall e : t,
    (bound name e = true -> exists e', set name v e = Ok e')
    /\ (bound name e = false -> set name v e = Raise (undefined_variable name)).
Proof.
  fix IH 1. intros [vs [p|]]; cbn; destruct (vs !! name) as [w|] eqn:E; cbn.
  - split; [eauto|discriminate].
  - destruct (IH p) as [H1 H2]. split.
    + intros Hb. destruct (H1 Hb) as [p' ->]. cbn. eauto.
    + intros Hb. now rewrite (H2 Hb).
  - split; [eauto|discriminate].
  - split; [discriminate|reflexivity].
Qed.

Lemma set_effect (name : string) (v : value) :
  forall e e' : t,
    set name v e = Ok e' ->
    get name e' = Ok v
    /\ (forall other, other <> name -> get other e' = get other e)
    /\ (forall n, bound n e' = bound n e).
Proof.
  fix IH 1. intros [vs [p|]] e'; cbn; destruct (vs !! name) as [w|] eqn:E.
  - injection 1 as <-. cbn. rewrite lookup_insert_eq. split; [reflexivity|].
    split.
    + intros other Hne. now rewrite lookup_insert_ne by congruence.
    + intros n. destruct (decide (n = name)) as [->|Hne].
      * rewrite lookup_insert_eq, E. reflexivity.
      * now rewrite lookup_insert_ne by congruence.
  - destruct (set name v p) as [p'|err] eqn:Ep; cbn; [|discriminate].
    injection 1 as <-. destruct (IH p p' Ep) as (Hg & Ho & Hb).
    cbn. rewrite E. split; [exact Hg|]. split.
    + intros other Hne. destruct (vs !! other); [reflexivity|now apply Ho].
    + intros n. now rewrite Hb.
  - injection 1 as <-. cbn. rewrite lookup_insert_eq. split; [reflexivity|].
    split.
    + intros other Hne. now rewrite lookup_insert_ne by congruence.
    + intros n. destruct (decide (n = name)) as [->|Hne].
      * rewrite lookup_insert_eq, E. reflexivity.
      * now rewrite lookup_insert_ne by congruence.
  - discriminate.
Qed.

End EnvironmentFacts.

Section EnvironmentExtras.
Import Environment EnvSpec.

(** X1.  [Environment.define] followed by [Environment.get]: the name that
    was defined has the new value, whether or not it was bound before and
    whatever the enclosing scopes hold; every other name reads as before;
    the enclosing scope is untouched and the only name that becomes bound
    is the defined one. *)
Theorem define_then_get (name : string) (v : value) (e : t) :
  get name (define name v e) = Ok v
  /\ (forall other, other <> name -> get other (define name v e) = get other e)
  /\ parent (define name v e) = parent e
  /\ (forall n, bound n (define name v e) = str_eq n name || bound n e).
Proof.
  split; [apply get_define_eq|]. split; [intros; now apply get_define_ne|].
  split; [now destruct e|]. intros n. apply bound_define.
Qed.

(** X2.  When [Environment.set] returns, the name reads as the new value,
    every other name reads as before and the same names are bound as
    before.  The update is made in the innermost scope that holds the
    name: a scope that does not hold it keeps its own variables, and a
    scope that holds it does not touch its parent. *)
Theorem set_updates_the_defining_scope (name : string) (v : value) (e e' : t) :
  set name v e = Ok e' ->
  get name e' = Ok v
  /\ (forall other, other <> name -> get other e' = get other e)
  /\ (forall n, bound n e' = bound n e)
  /\ (vars e !! name = None -> vars e' = vars e)
  /\ (is_Some (vars e !! name) -> parent e' = parent e).
Proof.
  intros Hset. destruct (set_effect name v e e' Hset) as (Hg & Ho & Hb).
  split; [exact Hg|]. split; [exact Ho|]. split; [exact Hb|].
  destruct e as [vs [p|]]; cbn in *; destruct (vs !! name) as [w|] eqn:E.
  - injection Hset as <-. split; [discriminate|reflexivity].
  - destruct (set name v p) as [p'|]; cbn in Hset; [|discriminate].
    injection Hset as <-. split; [reflexivity|]. intros [? ?]. discriminate.
  - injection Hset as <-. split; [discriminate|reflexivity].
  - discriminate.
Qed.

Lemma set_updates_the_defining_scope_witness :
  get "x" (Env ∅ (Some (Env {[ "x" := VInt 2 ]} None))) = Ok (VInt 2)
  /\ vars (Env ∅ (Some (Env {[ "x" := VInt 2 ]} None))) = ∅.
Proof.
  pose proof (set_updates_the_defining_scope "x" (VInt 2)
                (Env ∅ (Some (Env {[ "x" := VInt 1 ]} None)))
                (Env ∅ (Some (Env {[ "x" := VInt 2 ]} None)))) as H.
  destruct H as (Hg & _ & _ & Hv & _); [vm_compute; reflexivity|].
  split; [exact Hg|]. apply Hv. reflexivity.
Defined.

(** X3.  [Environment.get] and [Environment.set] return exactly for the
    names that are bound in the scope or in one of its parents, and for
    every other name both raise [RuntimeError("Undefined variable: ...")].
    [set] never creates a variable. *)
Theorem unbound_names_raise (name : string) (v : value) (e : t) :
  (bound name e = true <-> exists w, get name e = Ok w)
  /\ (bound name e = true <-> exists e', set name v e = Ok e')
  /\ (bound name e = false <-> get name e = Raise (undefined_variable name))
  /\ (bound name e = false <-> set name v e = Raise (undefined_variable name)).
Proof.
  destruct (get_bound name e) as [G1 G2], (set_bound name v e) as [S1 S2].
  destruct (bound name e) eqn:Hb.
  - destruct (G1 eq_refl) as [w Hw], (S1 eq_refl) as [e' He'].
    repeat split; eauto; intros H; rewrite ?Hw, ?He' in H; discriminate.
  - rewrite (G2 eq_refl), (S2 eq_refl).
    repeat split; auto; try discriminate; intros [? ?]; discriminate.
Qed.

End EnvironmentExtras.

Section ScopeExtras.
Import Scope.

(** X4.  When [Scope.declare] returns, the name was not among the names of
    the scope itself; afterwards [resolve] finds the new symbol, with the
    level of the scope, every other name resolves as before, parent and
    level are unchanged, and a second declaration of the name in the same
    scope, of any category and type, raises [KeyError] with the duplicate
    message. *)
Theorem declare_then_resolve (name category var_type : string)
    (node : option stmt) (pos : option Z) (s s' : t) :
  declare name category var_type node pos s = Ok s' ->
  names s !! name = None
  /\ resolve name s' = Some (mkSymbol name category var_type node pos (level s))
  /\ (forall other, other <> name -> resolve other s' = resolve other s)
  /\ parent s' = parent s /\ level s' = level s
  /\ (forall category' var_type' node' pos',
        declare name category' var_type' node' pos' s'
        = Raise (KeyError (duplicate_msg name))).
Proof.
  unfold declare. destruct (names s !! name) eqn:E; [discriminate|].
  injection 1 as <-. split; [reflexivity|]. destruct s as [p lv ns]. cbn in *.
  rewrite lookup_insert_eq. split; [reflexivity|].
  split; [|split; [reflexivity|split; reflexivity]].
  intros other Hne. now rewrite lookup_insert_ne by congruence.
Qed.

Lemma declare_then_resolve_witness :
  resolve "x" (Build None 0 {[ "x" := mkSymbol "x" "var" "int" None None 0 ]})
  = Some (mkSymbol "x" "var" "int" None None 0).
Proof.
  apply (declare_then_resolve "x" "var" "int" None None (init None 0)).
  vm_compute. reflexivity.
Defined.

End ScopeExtras.


(* ====================================================================== *)
(** ** Further properties of the grid world *)
(* ====================================================================== *)

Section GridExtras.
Import GridWorld GridSpec TurnSpec.

Lemma turn_left_valid (g : t) :
  In (agent_direction g) DIRECTIONS ->
  exists d, turn_left g = (set_direction d g, Ok tt) /\ In d DIRECTIONS.
Proof.
  destruct g as [w h x y d dt]. cbn [agent_direction DIRECTIONS In].
  intros [<-|[<-|[<-|[<-|[]]]]]; eexists; (split; [reflexivity|cbn; tauto]).
Qed.

Lemma turn_right_valid (g : t) :
  In (agent_direction g) DIRECTIONS ->
  exists d, turn_right g = (set_direction d g, Ok tt) /\ In d DIRECTIONS.
Proof.
  destruct g as [w h x y d dt]. cbn [agent_direction DIRECTIONS In].
  intros [<-|[<-|[<-|[<-|[]]]]]; eexists; (split; [reflexivity|cbn; tauto]).
Qed.

Lemma call_keeps (o : op) (g : t) :
  In (agent_direction g) DIRECTIONS ->
  In (agent_direction (call o g)) DIRECTIONS
  /\ dirt (call o g) ⊆ dirt g.
Proof.
  intros Hd. destruct o; cbn [call].
  - rewrite move_ahead. destruct (ahead g). destruct (_ && _); cbn; auto.
  - destruct (turn_left_valid g Hd) as (d & -> & Hin). cbn. auto.
  - destruct (turn_right_valid g Hd) as (d & -> & Hin). cbn. auto.
  - unfold clean. case_bool_decide; cbn; split; auto. set_solver.
  - auto.
Qed.

(** X5.  In every state that a fresh grid world reaches by any sequence of
    [move], [turn_left], [turn_right], [clean] and [sense] calls, the
    facing is one of the four directions, the size is the initial one, no
    dirt has appeared that was not there initially, and [turn_left],
    [turn_right] and [clean] return: [move] is the only operation that can
    raise. *)
Theorem only_move_can_fail (w h : Z) (ops : list op) :
  Forall (fun g =>
            In (agent_direction g) DIRECTIONS
            /\ width g = w /\ height g = h
            /\ dirt g ⊆ dirt (init w h)
            /\ snd (turn_left g) = Ok tt
            /\ snd (turn_right g) = Ok tt
            /\ snd (clean g) = Ok tt)
    (states_after ops (init w h)).
Proof.
  eapply Forall_impl;
    [apply (states_after_invariant
              (fun g => In (agent_direction g) DIRECTIONS
                        /\ width g = w /\ height g = h
                        /\ dirt g ⊆ dirt (init w h)))|].
  - intros o g (Hd & Hw & Hh & Hs).
    destruct (call_keeps o g Hd) as [Hd' Hs'].
    destruct (call_effect o g) as (Ew & Eh & _).
    split; [exact Hd'|]. split; [congruence|]. split; [congruence|].
    set_solver.
  - cbn. split; [tauto|]. split; [reflexivity|]. split; [reflexivity|]. set_solver.
  - intros g (Hd & Hw & Hh & Hs).
    split; [exact Hd|]. split; [exact Hw|]. split; [exact Hh|].
    split; [exact Hs|].
    destruct (turn_left_valid g Hd) as (d1 & -> & _).
    destruct (turn_right_valid g Hd) as (d2 & -> & _).
    split; [reflexivity|]. split; [reflexivity|].
    unfold clean. now case_bool_decide.
Qed.

Lemma turn_around_opposite (g : t) :
  In (agent_direction g) DIRECTIONS ->
  turn_around g = set_direction (opposite (agent_direction g)) g.
Proof.
  destruct g as [w h x y d dt]. cbn [agent_direction DIRECTIONS In].
  intros [<-|[<-|[<-|[<-|[]]]]]; reflexivity.
Qed.

Lemma move_inside (g : t) :
  (inside g (fst (ahead g)) (snd (ahead g)) ->
   move g = (with_position (fst (ahead g)) (snd (ahead g)) g, Ok tt))
  /\ (snd (move g) = Ok tt -> inside g (fst (ahead g)) (snd (ahead g))).
Proof.
  rewrite move_ahead. destruct (ahead g) as [x y]. cbn [fst snd].
  destruct (_ && _) eqn:E.
  - apply bounds_check_spec in E. split; [reflexivity|now intros _].
  - split; [|discriminate]. intros Hin. apply bounds_check_spec in Hin.
    unfold width, height in *. congruence.
Qed.

Lemma opposite_facts (d : string) :
  In d DIRECTIONS ->
  In (opposite d) DIRECTIONS
  /\ opposite (opposite d) = d
  /\ offset (opposite d) = (- fst (offset d), - snd (offset d)).
Proof.
  cbn [DIRECTIONS In].
  intros [<-|[<-|[<-|[<-|[]]]]]; cbn; repeat split; tauto.
Qed.

(** X6.  For an agent on the grid that faces one of the four directions:
    if [move] returns, then after two turns to the right the agent faces
    the opposite direction, a second [move] returns as well and brings the
    agent back to the cell it started from, and two more turns to the
    right restore the grid world exactly. *)
Theorem move_turn_around_move_back (g : t) :
  In (agent_direction g) DIRECTIONS ->
  inside g (agent_x g) (agent_y g) ->
  snd (move g) = Ok tt ->
  let g1 := turn_around (fst (move g)) in
  agent_direction g1 = opposite (agent_direction g)
  /\ snd (move g1) = Ok tt
  /\ agent_x (fst (move g1)) = agent_x g
  /\ agent_y (fst (move g1)) = agent_y g
  /\ turn_around (fst (move g1)) = g.
Proof.
  intros Hd Hin Hmove. cbn zeta.
  destruct (opposite_facts _ Hd) as (Hod & Hoo & Hoff).
  apply (proj2 (move_inside g)) in Hmove as Hahead.
  rewrite (proj1 (move_inside g) Hahead). cbn [fst].
  rewrite turn_around_opposite by exact Hd.
  set (g1 := set_direction _ _).
  assert (Hback : ahead g1 = (agent_x g, agent_y g)).
  { unfold ahead, g1. cbn [agent_x agent_y agent_direction set_direction
                           with_position]. rewrite Hoff. cbn [fst snd].
    unfold ahead. cbn [fst snd].
    destruct (offset (agent_direction g)) as [dx dy]. cbn [fst snd].
    f_equal; ring. }
  assert (Hm1 : move g1 = (with_position (agent_x g) (agent_y g) g1, Ok tt)).
  { rewrite <- (f_equal fst Hback) at 1. rewrite <- (f_equal snd Hback) at 1.
    apply move_inside. rewrite Hback. exact Hin. }
  rewrite Hm1. cbn [fst snd].
  split; [reflexivity|]. split; [reflexivity|]. split; [reflexivity|].
  split; [reflexivity|].
  rewrite turn_around_opposite by exact Hod.
  unfold g1. cbn. rewrite Hoo. now destruct g.
Qed.

Lemma move_turn_around_move_back_witness :
  turn_around (fst (move (turn_around (fst (move (turn_around (init 5 5)))))))
  = turn_around (init 5 5).
Proof.
  apply (move_turn_around_move_back (turn_around (init 5 5))).
  - cbn. tauto.
  - change (0 <= 0 < 5 /\ 0 <= 0 < 5). lia.
  - reflexivity.
Defined.

(** X7.  After [clean], [sense] is false.  If [sense] was true before,
    [clean] removes exactly one cell from the dirt; if it was false,
    [clean] leaves the grid world as it is. *)
Theorem clean_then_sense (g : t) :
  sense (fst (clean g)) = false
  /\ (sense g = true -> size (dirt (fst (clean g))) + 1 = size (dirt g))%nat
  /\ (sense g = false -> fst (clean g) = g).
Proof.
  unfold clean, sense.
  destruct (decide ((agent_x g, agent_y g) ∈ dirt g)) as [Hin | Hin].
  - rewrite !(bool_decide_eq_true_2 _ Hin). cbn.
    split; [apply bool_decide_eq_false_2; set_solver|]. split; [|discriminate].
    intros _.
    assert (Hsz : size (dirt g) = (size ({[(agent_x g, agent_y g)]} : gset (Z * Z))
                            + size (dirt g ∖ {[(agent_x g, agent_y g)]}))%nat).
    { apply size_union_alt' || (rewrite <- size_union by set_solver; f_equal;
        apply set_eq; intros p; destruct (decide (p = (agent_x g, agent_y g)));
        set_solver). }
    rewrite size_singleton in Hsz. lia.
  - rewrite !(bool_decide_eq_false_2 _ Hin). cbn.
    split; [reflexivity || now apply bool_decide_eq_false_2|].
    split; [discriminate|reflexivity].
Qed.

End GridExtras.


(* ====================================================================== *)
(** ** Further properties of the interpreter *)
(* ====================================================================== *)

Section RunFacts.
Import Interpreter RunSpec.

Lemma keeps_for_each (P : t -> Prop) (E : exn -> Prop)
    (f : stmt -> t -> t * outcome unit) (l : list stmt) :
  Forall (fun s => keeps P E (f s)) l -> keeps P E (for_each f l).
Proof.
  induction 1 as [|s l Hs _ IH]; intros it Hit.
  - split; [exact Hit|discriminate].
  - rewrite for_each_cons. destruct (Hs it Hit) as [HP HE].
    destruct (f s it) as [it' [[]|e]]; cbn [fst snd] in *.
    + now apply IH.
    + split; [exact HP|]. intros e' [= <-]. now apply HE.
Qed.

Lemma keeps_while_loop (P : t -> Prop) (E : exn -> Prop)
    (run_body : t -> t * outcome unit) (test : option expr) :
  keeps P E run_body ->
  (forall it e, evaluate_expr it test = Raise e -> E e) ->
  E infinite_loop ->
  forall fuel iteration,
    iteration <= max_iterations ->
    max_iterations < iteration + Z.of_nat fuel ->
    keeps P E (while_loop run_body test fuel iteration).
Proof.
  intros Hbody Htest Hcap.
  induction fuel as [|fuel IH]; intros iteration Hle Hfuel it Hit; [lia|].
  cbn [while_loop].
  destruct (evaluate_expr it test) as [c|e] eqn:Ec; cbn [fst snd].
  2:{ split; [exact Hit|]. intros e' [= <-]. now apply (Htest it). }
  destruct (Py.truthy c); [|split; [exact Hit|discriminate]].
  destruct (iteration + 1 >? max_iterations) eqn:Hgt.
  { split; [exact Hit|]. now intros e' [= <-]. }
  destruct (Hbody it Hit) as [HP HE].
  destruct (run_body it) as [it' [[]|e]]; cbn [fst snd] in *.
  - rewrite Z.gtb_ltb in Hgt. apply Z.ltb_ge in Hgt. apply IH; [lia|lia|exact HP].
  - split; [exact HP|]. intros e' [= <-]. now apply HE.
Qed.

Lemma floordiv_guarded (l r : value) (err : exn) :
  Py.eq r (VInt 0) = false -> Py.floordiv l r = Raise err -> err = TypeError.
Proof.
  unfold Py.eq, Py.floordiv. cbn [Py.as_int].
  destruct (Py.as_int r) as [b|].
  - intros ->. destruct (Py.as_int l); [discriminate|now intros [= <-]].
  - intros _. destruct (Py.as_int l); now intros [= <-].
Qed.

Lemma str_mul_errors (s : string) (n : Z) (err : exn) :
  Py.str_mul s n = Raise err -> err = OverflowError \/ err = MemoryError.
Proof.
  unfold Py.str_mul.
  repeat match goal with
         | |- context [if ?b then _ else _] => destruct b
         end;
    try discriminate; intros [= <-]; tauto.
Qed.

Lemma str_add_errors (a b : string) (err : exn) :
  Py.str_add a b = Raise err -> err = OverflowError \/ err = MemoryError.
Proof.
  unfold Py.str_add.
  repeat match goal with
         | |- context [if ?b then _ else _] => destruct b
         end;
    try discriminate; intros [= <-]; tauto.
Qed.

Lemma apply_operator_errors (op : string) (l r : value) (err : exn) :
  apply_operator op l r = Raise err -> run_time_error err.
Proof.
  unfold apply_operator, division_by_zero.
  repeat match goal with
         | |- context [if str_eq ?a ?b then _ else _] => destruct (str_eq a b)
         end;
    try discriminate;
    try (intros [= <-]; left; eauto; fail).
  4:{ destruct (Py.eq r (VInt 0)) eqn:E0; [intros [= <-]; left; eauto|].
      intros H. right. left. exact (floordiv_guarded l r err E0 H). }
  all: unfold Py.add, Py.sub, Py.mul, Py.lt, Py.le, Py.gt, Py.ge, Py.order;
    destruct (Py.as_int l) as [a|], (Py.as_int r) as [b|];
    try discriminate;
    repeat match goal with
      | |- context [match ?v with VInt _ => _ | _ => _ end] => destruct v
      | |- context [match Py.as_int ?v with _ => _ end] =>
          destruct (Py.as_int v)
      end;
    try discriminate;
    try (intros [= <-]; right; left; reflexivity);
    intros H; right; right;
    first [exact (str_mul_errors _ _ _ H)|exact (str_add_errors _ _ _ H)].
Qed.

Lemma evaluate_errors (it : t) (e : expr) (err : exn) :
  evaluate_node it e = Raise err -> run_time_error err.
Proof.
  revert err.
  induction e as [v|name|op l r IHl IHr] using expr_induction; intros err.
  - discriminate.
  - cbn. destruct (str_eq name "sense").
    { destruct (grid it); [discriminate|]. intros [= <-]. left; eauto. }
    destruct (str_eq name "dirt"); [intros [= <-]; left; eauto|].
    intros H. apply environment_get_error in H. subst. left; eauto.
  - rewrite evaluate_binary_unfold. unfold evaluate_binary_expr.
    assert (Hl : forall err, evaluate_expr it l = Raise err -> run_time_error err)
      by (destruct l; [exact IHl|discriminate]).
    assert (Hr : forall err, evaluate_expr it r = Raise err -> run_time_error err)
      by (destruct r; [exact IHr|discriminate]).
    destruct (str_eq op "not");
      destruct (evaluate_expr it l) as [vl|el]; cbn [bind];
      try discriminate; try (intros [= <-]; now apply Hl).
    destruct (evaluate_expr it r) as [vr|er]; cbn [bind];
      [|intros [= <-]; now apply Hr].
    apply apply_operator_errors.
Qed.

Lemma evaluate_expr_errors (it : t) (slot : option expr) (err : exn) :
  evaluate_expr it slot = Raise err -> run_time_error err.
Proof. destruct slot; [apply evaluate_errors|discriminate]. Qed.

End RunFacts.

Section RunExtras.
Import Interpreter RunSpec.

(** X8.  An exception raised by [evaluate_expr] is a [RuntimeError], the
    [TypeError] of an operator applied to operands it is not defined on,
    or the [OverflowError] or [MemoryError] of a string that [*] or [+]
    would make too long.  In particular it is never [ZeroDivisionError]:
    the test [right == 0] catches every zero divisor ([0] and [False])
    before the integer division. *)
Theorem evaluation_raises_run_time_errors (it : t) (slot : option expr)
    (err : exn) :
  evaluate_expr it slot = Raise err ->
  run_time_error err /\ err <> ZeroDivisionError.
Proof.
  intros H. apply evaluate_expr_errors in H.
  split; [exact H|]. destruct H as [[msg ->]|[->|[->| ->]]]; discriminate.
Qed.

Lemma evaluation_raises_run_time_errors_witness :
  run_time_error division_by_zero /\ division_by_zero <> ZeroDivisionError.
Proof.
  apply (evaluation_raises_run_time_errors (Examples.counter_at 1)
           Examples.n_over_zero).
  reflexivity.
Defined.

(** X9.  There is no short-circuit evaluation.  If an expression has a
    value, so has every operand in it, at any depth: the left operand of
    every operator and the right operand of every operator but [not],
    also those of [and] and [or] whose left operand alone decides the
    result. *)
Theorem operands_are_always_evaluated (it : t) (e sub : expr) (v : value) :
  evaluate_node it e = Ok v ->
  operand_of sub e ->
  exists w, evaluate_node it sub = Ok w.
Proof.
  revert v.
  induction e as [v0|name|op l r IHl IHr] using expr_induction;
    intros v Hv Hsub.
  - destruct Hsub as [->|[]]. eauto.
  - destruct Hsub as [->|[]]. eauto.
  - cbn [operand_of] in Hsub. destruct Hsub as [->|Hsub]; [eauto|].
    rewrite evaluate_binary_unfold in Hv. unfold evaluate_binary_expr in Hv.
    destruct Hsub as [Hsub|[Hop Hsub]].
    + destruct l as [l|]; [|destruct Hsub].
      cbn [evaluate_expr] in Hv.
      destruct (evaluate_node it l) as [vl|el] eqn:El.
      * now apply (IHl vl).
      * destruct (str_eq op "not"); discriminate.
    + destruct r as [r|]; [|destruct Hsub].
      apply String.eqb_neq in Hop. unfold str_eq in Hv. rewrite Hop in Hv.
      destruct (evaluate_expr it l) as [vl|el]; [|discriminate].
      cbn [bind evaluate_expr] in Hv.
      destruct (evaluate_node it r) as [vr|er] eqn:Er; [|discriminate].
      now apply (IHr vr).
Qed.

Lemma operands_are_always_evaluated_witness :
  exists w, evaluate_node init (Literal (VInt 7)) = Ok w.
Proof.
  apply (operands_are_always_evaluated init
           (BinaryExpr "or" (Some (Literal (VBool true)))
                            (Some (Literal (VInt 7))))
           (Literal (VInt 7)) (VBool true)).
  - reflexivity.
  - cbn. right. right. split; [discriminate|now left].
Defined.

(** X10.  A declaration, an assignment or an action that raises leaves the
    interpreter exactly as it was: its environment, its constants and its
    grid world. *)
Theorem failed_simple_statement_changes_nothing (s : stmt) (it it' : t)
    (e : exn) :
  simple s = true ->
  execute_stmt s it = (it', Raise e) ->
  it' = it.
Proof.
  destruct s as [id ty v|id ty v|target v|? ? ?|? ?|action|?|];
    try discriminate; intros _; cbn [execute_stmt].
  - unfold execute_const_decl. destruct (evaluate_expr it v);
      [discriminate|now intros [= <- _]].
  - unfold execute_var_decl.
    match goal with |- context [match ?v with Ok _ => _ | Raise _ => _ end] =>
      destruct v end; [discriminate|now intros [= <- _]].
  - unfold execute_assign. case_bool_decide; [now intros [= <- _]|].
    destruct (evaluate_expr it v); [|now intros [= <- _]].
    destruct (Environment.set _ _ _); [discriminate|now intros [= <- _]].
  - unfold execute_action. destruct (grid it) as [g|] eqn:Eg;
      [|now intros [= <- _]].
    assert (Hsame : set_grid (Some g) it = it)
      by (destruct it; cbn in *; now subst).
    unfold on_grid.
    repeat match goal with
           | |- context [if str_eq ?a ?b then _ else _] => destruct (str_eq a b)
           end; try discriminate; try (now intros [= <- _]).
    + rewrite move_ahead. destruct (GridSpec.ahead g).
      destruct (_ && _); [discriminate|]. intros [= <- _]. exact Hsame.
    + unfold GridWorld.turn_left. destruct (GridWorld.index _ _);
        [|intros [= <- _]; exact Hsame].
      destruct (subscript _ _); [discriminate|intros [= <- _]; exact Hsame].
    + unfold GridWorld.turn_right. destruct (GridWorld.index _ _);
        [|intros [= <- _]; exact Hsame].
      destruct (subscript _ _); [discriminate|intros [= <- _]; exact Hsame].
    + unfold GridWorld.clean. case_bool_decide; discriminate.
Qed.

Lemma failed_simple_statement_changes_nothing_witness :
  set_grid (Some (GridWorld.init 5 5)) init
  = set_grid (Some (GridWorld.init 5 5)) init.
Proof.
  apply (failed_simple_statement_changes_nothing (ActionStmt "move")
           (set_grid (Some (GridWorld.init 5 5)) init)
           (set_grid (Some (GridWorld.init 5 5)) init)
           (RuntimeError (GridWorld.off_grid_msg 0 (-1)))).
  - reflexivity.
  - reflexivity.
Defined.

(** X11.  When the execution of [name = e;] returns, the name is no
    constant and was bound before, it now reads as the value that [e] had
    in the state before the assignment, every other variable reads as
    before, and the grid world and the set of constants are unchanged. *)
Theorem assignment_updates_one_variable (name : string) (e : option expr)
    (it it' : t) :
  execute_stmt (Assign name e) it = (it', Ok tt) ->
  (name ∉ const_vars it)
  /\ EnvSpec.bound name (env it) = true
  /\ Environment.get name (env it') = evaluate_expr it e
  /\ (forall other, other <> name ->
        Environment.get other (env it') = Environment.get other (env it))
  /\ grid it' = grid it
  /\ const_vars it' = const_vars it.
Proof.
  cbn [execute_stmt]. unfold execute_assign.
  case_bool_decide as Hc; [discriminate|].
  destruct (evaluate_expr it e) as [v|err]; [|discriminate].
  destruct (Environment.set name v (env it)) as [env'|err] eqn:Eset;
    [|discriminate].
  intros [= <-]. cbn.
  destruct (set_effect name v _ _ Eset) as (Hg & Ho & Hb).
  split; [exact Hc|]. split.
  - destruct (EnvSpec.bound name (env it)) eqn:Ebd; [reflexivity|].
    apply (proj2 (set_bound name v (env it))) in Ebd. congruence.
  - split; [exact Hg|]. split; [exact Ho|]. split; reflexivity.
Qed.

Lemma assignment_updates_one_variable_witness :
  Environment.get "n" (env (Examples.counter_at 2))
  = evaluate_expr (Examples.counter_at 1)
      (Some (BinaryExpr "+" (Some (Identifier "n")) (Some (Literal (VInt 1))))).
Proof.
  apply (assignment_updates_one_variable "n"
           (Some (BinaryExpr "+" (Some (Identifier "n"))
                                 (Some (Literal (VInt 1)))))
           (Examples.counter_at 1) (Examples.counter_at 2)).
  vm_compute. reflexivity.
Defined.

(** X12.  Once a name is in [const_vars], running any program that does
    not declare the name again, at any depth, leaves it there and leaves
    its value as it is, whether the run returns or raises; afterwards
    every assignment to the name still raises
    [RuntimeError("Cannot assign to constant: ...")] and changes
    nothing. *)
Theorem constants_keep_their_value (name : string) (ast : Program) (it : t) :
  name ∈ const_vars it ->
  existsb (redeclares name) (prog_body ast) = false ->
  let it' := fst (run ast it) in
  name ∈ const_vars it'
  /\ Environment.get name (env it') = Environment.get name (env it)
  /\ forall e,
       execute_stmt (Assign name e) it'
       = (it', Raise (RuntimeError ("Cannot assign to constant: " +:+ name))).
Proof.
  intros Hc Hno. cbn zeta.
  set (P := fun it' : t =>
              name ∈ const_vars it'
              /\ Environment.get name (env it') = Environment.get name (env it)).
  assert (Hstmt : forall s, redeclares name s = false ->
                            keeps P (fun _ => True) (execute_stmt s)).
  { clear Hno. intros s.
    assert (Hlist : forall l : list stmt,
               Forall (fun s => redeclares name s = false ->
                                keeps P (fun _ => True) (execute_stmt s)) l ->
               existsb (redeclares name) l = false ->
               keeps P (fun _ => True) (for_each execute_stmt l)).
    { intros l Hl Hex. apply keeps_for_each.
      induction Hl as [|s0 l Hs0 _ IH]; [constructor|].
      cbn in Hex. apply orb_false_iff in Hex as [H0 Hl'].
      apply List.Forall_cons; [now apply Hs0|now apply IH]. }
    induction s as [id ty v|id ty v|target v|test consequent alternate IHc IHa
                   |test body IHb|action|stmts _|]
      using stmt_induction; cbn [redeclares]; intros Hr it0 [Hc0 Hg0];
      cbn [execute_stmt].
    - unfold execute_const_decl. destruct (evaluate_expr it0 v);
        cbn [fst snd]; (split; [|easy]); [|now split].
      split; cbn; [set_solver|].
      rewrite get_define_ne; [exact Hg0|].
      apply String.eqb_neq in Hr. congruence.
    - unfold execute_var_decl.
      match goal with |- context [match ?v with Ok _ => _ | Raise _ => _ end] =>
        destruct v end; cbn [fst snd]; (split; [|easy]); [|now split].
      split; cbn; [exact Hc0|].
      rewrite get_define_ne; [exact Hg0|].
      apply String.eqb_neq in Hr. congruence.
    - unfold execute_assign. case_bool_decide as Ht; [now split|].
      destruct (evaluate_expr it0 v) as [val|]; [|now split].
      destruct (Environment.set target val (env it0)) as [env'|] eqn:Eset;
        [|now split].
      cbn [fst snd]. split; [|easy]. split; cbn; [exact Hc0|].
      destruct (set_effect _ _ _ _ Eset) as (_ & Ho & _).
      rewrite Ho; [exact Hg0|]. intros ->. contradiction.
    - apply orb_false_iff in Hr as [Hrc Hra].
      destruct (evaluate_expr it0 test) as [c|]; [|now split].
      destruct (Py.truthy c); [now apply (Hlist consequent)|].
      destruct alternate as [[|s0 alt]|]; [now split| |now split].
      now apply (Hlist (s0 :: alt)).
    - unfold execute_while_with.
      apply keeps_while_loop;
        [now apply Hlist|easy|easy|unfold max_iterations; lia
        |unfold max_iterations; lia|exact (conj Hc0 Hg0)].
    - unfold execute_action. destruct (grid it0) as [g|]; [|now split].
      unfold on_grid.
      repeat match goal with
             | |- context [if str_eq ?a ?b then _ else _] => destruct (str_eq a b)
             end; try (now split);
        match goal with |- context [let '(_, _) := ?m in _] => destruct m end;
        now split.
    - now split.
    - now split. }
  assert (Hrun : P (fst (run ast it))).
  { unfold run. apply (keeps_for_each P (fun _ => True)); [|now split].
    induction (prog_body ast) as [|s l IH]; [constructor|].
    cbn in Hno. apply orb_false_iff in Hno as [H0 Hl].
    apply List.Forall_cons; [now apply Hstmt|now apply IH]. }
  destruct Hrun as [Hc' Hg']. split; [exact Hc'|]. split; [exact Hg'|].
  intros e. cbn [execute_stmt]. unfold execute_assign.
  now rewrite bool_decide_eq_true_2.
Qed.

Lemma constants_keep_their_value_witness :
  Environment.get "x"
    (env (fst (run (mkProgram "p" [VarDecl "y" "int" (Some (Identifier "x"))])
                 (Build (Environment.Env {[ "x" := VInt 5 ]} None) None {[ "x" ]}))))
  = Ok (VInt 5).
Proof.
  refine (proj1 (proj2 (constants_keep_their_value "x"
           (mkProgram "p" [VarDecl "y" "int" (Some (Identifier "x"))])
           (Build (Environment.Env {[ "x" := VInt 5 ]} None) None {[ "x" ]})
           _ _))).
  - set_solver.
  - reflexivity.
Defined.

(** X13.  Running a body is running its first part and then, if that
    returns, the rest on the state it left; if the first part raises, the
    run ends there, in the state of the raise, and nothing of the rest is
    executed. *)
Theorem run_in_sequence (name : string) (first rest : list stmt) (it : t) :
  run (mkProgram name (first ++ rest)%list) it
  = match run (mkProgram name first) it with
    | (it', Ok _) => run (mkProgram name rest) it'
    | (it', Raise e) => (it', Raise e)
    end.
Proof.
  unfold run. cbn [prog_body]. revert it.
  induction first as [|s first IH]; intros it; [reflexivity|].
  change ((s :: first) ++ rest)%list with (s :: (first ++ rest)%list).
  rewrite !for_each_cons.
  destruct (execute_stmt s it) as [it' [[]|e]]; [apply IH|reflexivity].
Qed.

End RunExtras.

Section DeclarationExtras.
Import Interpreter RunSpec.

(** X14.  When the execution of a declaration returns, the declared name
    reads as the value of the initializer in the state before the
    declaration, or, for a [var] without initializer, as the default of
    its type (0, [False], ['north'], [None] for any other type); every
    other variable reads as before; the variable is defined in the
    current scope; the grid world is unchanged; and the name joins
    [const_vars] exactly for a [const], so that a [var] that declares the
    name of a constant again changes its value and leaves it constant. *)
Theorem declarations_define (s : stmt) (name : string) (it it' : t) :
  SemSpec.declared_name s = Some name ->
  execute_stmt s it = (it', Ok tt) ->
  Environment.get name (env it') = declared_value s it
  /\ (exists v, declared_value s it = Ok v)
  /\ (forall other, other <> name ->
        Environment.get other (env it') = Environment.get other (env it))
  /\ Environment.parent (env it') = Environment.parent (env it)
  /\ grid it' = grid it
  /\ const_vars it'
     = (if str_eq (SemSpec.category s) "const"
        then const_vars it ∪ {[ name ]} else const_vars it).
Proof.
  destruct s as [id ty v|id ty v|target v|? ? ?|? ?|action|?|];
    try discriminate; intros [= ->]; cbn [execute_stmt declared_value].
  - unfold execute_const_decl.
    destruct (evaluate_expr it v) as [val|e]; [|discriminate].
    intros [= <-]. cbn.
    split; [apply get_define_eq|]. split; [eauto|].
    split; [intros other Hne; now apply get_define_ne|].
    split; [now destruct (env it)|]. now split.
  - unfold execute_var_decl.
    assert (Hv : match v with
                 | Some _ => evaluate_expr it v
                 | None =>
                     if str_eq ty "int" then Ok (VInt 0)
                     else if str_eq ty "bool" then Ok (VBool false)
                     else if str_eq ty "direction" then Ok (VStr "north")
                     else Ok VNone
                 end
                 = match v with
                   | Some e => evaluate_expr it (Some e)
                   | None => Ok (default_value ty)
                   end).
    { destruct v; [reflexivity|]. unfold default_value.
      now repeat destruct (str_eq _ _). }
    rewrite Hv. clear Hv.
    destruct (match v with
              | Some e => evaluate_expr it (Some e)
              | None => Ok (default_value ty)
              end) as [val|e]; [|discriminate].
    intros [= <-]. cbn.
    split; [apply get_define_eq|]. split; [eauto|].
    split; [intros other Hne; now apply get_define_ne|].
    split; [now destruct (env it)|]. now split.
Qed.

Lemma declarations_define_witness :
  Environment.get "n" (env (Examples.counter_at 0))
  = declared_value (VarDecl "n" "int" None) init.
Proof.
  apply (declarations_define (VarDecl "n" "int" None) "n" init
           (Examples.counter_at 0)).
  - reflexivity.
  - vm_compute. reflexivity.
Defined.

End DeclarationExtras.

Section GridRunFacts.
Import Interpreter RunSpec AstSpec.

Lemma action_keeps_grid (action : string) :
  keeps grid_ok run_time_error (execute_action action).
Proof.
  intros it (g & Eg & Hw & Hh & Hin & Hd & Hs).
  unfold execute_action, on_grid. rewrite Eg.
  assert (Hsame : forall g', grid (set_grid (Some g') it) = Some g')
    by reflexivity.
  repeat match goal with
         | |- context [if str_eq ?a ?b then _ else _] => destruct (str_eq a b)
         end.
  - rewrite move_ahead. destruct (GridSpec.ahead g) as [x y].
    destruct (_ && _) eqn:E; cbn [fst snd].
    + split; [|discriminate]. apply bounds_check_spec in E.
      eexists. split; [apply Hsame|]. cbn. auto.
    + split; [exists g; auto 10|]. intros e [= <-]. left; eauto.
  - destruct (turn_left_valid g Hd) as (d & -> & Hd'). cbn [fst snd].
    split; [|discriminate]. eexists. split; [apply Hsame|]. cbn. auto 10.
  - destruct (turn_right_valid g Hd) as (d & -> & Hd'). cbn [fst snd].
    split; [|discriminate]. eexists. split; [apply Hsame|]. cbn. auto 10.
  - unfold GridWorld.clean. case_bool_decide; cbn [fst snd];
      (split; [|discriminate]); (eexists; split; [apply Hsame|]); cbn;
      auto 10.
    split; [exact Hw|]. split; [exact Hh|]. split; [exact Hin|].
    split; [exact Hd|]. set_solver.
  - cbn [fst snd]. split; [exists g; auto 10|discriminate].
  - cbn [fst snd]. split; [exists g; auto 10|].
    intros e [= <-]. left; eauto.
Qed.

Lemma grid_ok_env (it : t) (e : Environment.t) (c : gset string) :
  grid_ok it -> grid_ok (Build e (grid it) c).
Proof. intros (g & Eg & H). exists g. now split. Qed.

Lemma statement_keeps_grid (E : exn -> Prop) :
  (forall e, run_time_error e -> E e) ->
  forall s, (dict_nodes s = false -> E AttributeError) ->
            keeps grid_ok E (execute_stmt s).
Proof.
  intros HE.
  assert (Hlist : forall l : list stmt,
             Forall (fun s => (dict_nodes s = false -> E AttributeError) ->
                              keeps grid_ok E (execute_stmt s)) l ->
             (forallb dict_nodes l = false -> E AttributeError) ->
             keeps grid_ok E (for_each execute_stmt l)).
  { intros l Hl Hd. apply keeps_for_each.
    induction Hl as [|s0 l Hs0 _ IH]; [constructor|].
    apply List.Forall_cons.
    - apply Hs0. intros H0. apply Hd. cbn. now rewrite H0.
    - apply IH. intros Hl'. apply Hd. cbn. rewrite Hl'. apply andb_false_r. }
  assert (Hev : forall it slot e, evaluate_expr it slot = Raise e -> E e).
  { intros it slot e H. apply HE. now apply (evaluate_expr_errors it slot). }
  induction s as [id ty v|id ty v|target v|test consequent alternate IHc IHa
                 |test body IHb|action|stmts _|]
    using stmt_induction; cbn [dict_nodes]; intros Hd it Hit;
    cbn [execute_stmt].
  - unfold execute_const_decl.
    destruct (evaluate_expr it v) eqn:Ev; cbn [fst snd].
    + split; [now apply grid_ok_env|discriminate].
    + split; [exact Hit|]. intros e' [= <-]. now apply (Hev it v).
  - unfold execute_var_decl.
    match goal with |- context [match ?x with Ok _ => _ | Raise _ => _ end] =>
      destruct x eqn:Ev end; cbn [fst snd].
    + split; [now apply grid_ok_env|discriminate].
    + split; [exact Hit|]. intros e' [= <-].
      destruct v as [v|]; [now apply (Hev it (Some v))|].
      repeat match type of Ev with
             | (if ?b then _ else _) = _ => destruct b
             end; discriminate.
  - unfold execute_assign. case_bool_decide.
    { split; [exact Hit|]. intros e' [= <-]. apply HE. left; eauto. }
    destruct (evaluate_expr it v) as [val|] eqn:Ev.
    2:{ split; [exact Hit|]. intros e' [= <-]. now apply (Hev it v). }
    destruct (Environment.set target val (env it)) as [env'|] eqn:Eset;
      cbn [fst snd].
    + split; [now apply grid_ok_env|discriminate].
    + split; [exact Hit|]. intros e' [= <-].
      apply environment_set_error in Eset. subst. apply HE. left; eauto.
  - destruct (evaluate_expr it test) as [c|] eqn:Ev.
    2:{ split; [exact Hit|]. intros e' [= <-]. now apply (Hev it test). }
    destruct (Py.truthy c).
    + apply (Hlist consequent); [exact IHc| |exact Hit].
      intros H. apply Hd. now rewrite H.
    + destruct alternate as [[|s0 alt]|]; try (split; [exact Hit|discriminate]).
      apply (Hlist (s0 :: alt)); [exact IHa| |exact Hit].
      intros H. apply Hd. rewrite H. apply andb_false_r.
  - unfold execute_while_with.
    apply keeps_while_loop;
      [now apply Hlist|intros it0 e; apply Hev|apply HE; left; eexists; reflexivity
      |unfold max_iterations; lia|unfold max_iterations; lia|exact Hit].
  - destruct (action_keeps_grid action it Hit) as [HP Herr].
    split; [exact HP|]. intros e He. apply HE. now apply Herr.
  - split; [exact Hit|]. intros e [= <-]. now apply Hd.
  - split; [exact Hit|]. intros e [= <-]. now apply Hd.
Qed.

Lemma run_keeps_grid (E : exn -> Prop) (ast : Program) :
  (forall e, run_time_error e -> E e) ->
  (forallb dict_nodes (prog_body ast) = false -> E AttributeError) ->
  keeps grid_ok E (run ast).
Proof.
  intros HE Hd. unfold run. apply keeps_for_each.
  induction (prog_body ast) as [|s l IH]; [constructor|].
  apply List.Forall_cons.
  - apply statement_keeps_grid; [exact HE|].
    intros Hs. apply Hd. cbn. now rewrite Hs.
  - apply IH. intros H. apply Hd. cbn. rewrite H. apply andb_false_r.
Qed.

(** The interpreter that [main] creates. *)
Lemma fresh_interpreter_on_grid :
  grid_ok (set_grid (Some (GridWorld.init 5 5)) init).
Proof.
  eexists. split; [reflexivity|]. cbn. unfold GridSpec.inside. cbn.
  split; [reflexivity|]. split; [reflexivity|]. split; [lia|].
  split; [tauto|set_solver].
Qed.

End GridRunFacts.


Section GridRunExtras.
Import Interpreter RunSpec AstSpec.

(** X15.  Whatever the program, an AST with the keys that the converter
    writes, [main] leaves the interpreter, after success as after an
    error, with its 5 by 5 grid world, the agent on a cell of the grid
    and facing one of the four directions, and dirt only where the fresh
    grid had some.  The run raises nothing but [RuntimeError],
    [TypeError], the [OverflowError] or [MemoryError] of a string too
    long to build, and [AttributeError] when a statement of the program
    is not a node. *)
Theorem run_ends_on_the_grid (ast : Program) :
  match Main.interpret ast with
  | Main.Success it => grid_ok it
  | Main.RuntimeExit e it =>
      grid_ok it
      /\ (run_time_error e
          \/ (e = AttributeError /\ forallb dict_nodes (prog_body ast) = false))
  | Main.Uncaught _ | Main.SemanticExit _ => False
  end.
Proof.
  unfold Main.interpret.
  destruct (run_keeps_grid
              (fun e => run_time_error e
                        \/ (e = AttributeError
                            /\ forallb dict_nodes (prog_body ast) = false))
              ast) with (it := set_grid (Some (GridWorld.init 5 5)) init)
    as [HP Herr].
  - intros e He. now left.
  - intros Hd. right. now split.
  - apply fresh_interpreter_on_grid.
  - destruct (run ast _) as [it [[]|e]]; cbn [fst snd] in *; [exact HP|].
    split; [exact HP|]. now apply Herr.
Qed.

End GridRunExtras.


(* ====================================================================== *)
(** ** Further properties of the semantic analysis *)
(* ====================================================================== *)

Section SemanticMoreFacts.
Import Semantic AstSpec SemSpec.

Lemma for_each_appends
    (f : stmt -> list diagnostic -> list diagnostic * outcome unit)
    (l : list stmt) :
  Forall (fun s => exists extra r, appends (f s) extra r) l ->
  exists extra r, appends (for_each f l) extra r.
Proof.
  induction 1 as [|s l (e1 & r1 & Hs) _ (e2 & r2 & IH)].
  - exists [], (Ok tt). intros errors. cbn. now rewrite app_nil_r.
  - destruct r1 as [[]|x].
    + exists (e1 ++ e2)%list, r2. intros errors.
      rewrite for_each_cons, Hs, IH. now rewrite app_assoc.
    + exists e1, (Raise x). intros errors. now rewrite for_each_cons, Hs.
Qed.

(** With nothing found in a list of statements, nothing is found in any
    of them. *)
Lemma for_each_nothing
    (f : stmt -> list diagnostic -> list diagnostic * outcome unit)
    (l : list stmt) :
  Forall (fun s => exists extra r, appends (f s) extra r) l ->
  for_each f l [] = ([], Ok tt) ->
  Forall (fun s => f s [] = ([], Ok tt)) l.
Proof.
  induction 1 as [|s l (e1 & r1 & Hs) Hl IH]; intros Hrun; [constructor|].
  rewrite for_each_cons, Hs in Hrun. cbn [app] in Hrun.
  destruct r1 as [[]|x]; [|discriminate].
  destruct (for_each_appends f l Hl) as (e2 & r2 & Hl2).
  rewrite Hl2 in Hrun. injection Hrun as Happ ->.
  apply app_eq_nil in Happ as [-> ->].
  apply List.Forall_cons; [now rewrite Hs|].
  apply IH. now rewrite Hl2.
Qed.

Lemma for_each_found
    (f : stmt -> list diagnostic -> list diagnostic * outcome unit)
    (l : list stmt) :
  Forall (fun s => f s [] = ([], Ok tt)) l ->
  Forall (fun s => exists extra r, appends (f s) extra r) l ->
  for_each f l [] = ([], Ok tt).
Proof.
  induction 1 as [|s l Hs _ IH]; intros Hall; [reflexivity|].
  apply Forall_cons in Hall as [_ Hall].
  rewrite for_each_cons, Hs. now apply IH.
Qed.

Lemma check_target_appends (target : string) (scope : Scope.t) :
  exists extra,
    (forall errors,
        check_target target scope errors = (errors ++ extra)%list)
    /\ Forall unresolved extra
    /\ (extra = [] <->
        exists sym, Scope.resolve target scope = Some sym
                    /\ str_eq (sym_category sym) "const" = false).
Proof.
  unfold check_target. destruct (Scope.resolve target scope) as [sym|].
  - destruct (str_eq (sym_category sym) "const") eqn:Ec.
    + eexists. split; [reflexivity|]. split.
      * apply List.Forall_cons; [now right|constructor].
      * split; [discriminate|]. intros (sym' & [= <-] & H). congruence.
    + exists []. split; [intros; now rewrite app_nil_r|].
      split; [constructor|]. split; [eauto|reflexivity].
  - eexists. split; [reflexivity|]. split.
    + apply List.Forall_cons; [now left|constructor].
    + split; [discriminate|]. intros (sym' & [=] & _).
Qed.

Lemma resolve_node_unresolved (scope : Scope.t) (e : expr) :
  Forall unresolved (resolve_node scope e []).
Proof.
  induction e as [v|name|op l r IHl IHr] using expr_induction;
    cbn [resolve_node].
  - constructor.
  - destruct (Scope.resolve name scope); [constructor|].
    apply List.Forall_cons; [now left|constructor].
  - destruct l as [l|], r as [r|]; cbn; try assumption; try constructor.
    rewrite resolve_node_app. apply Forall_app. now split.
Qed.

Lemma resolve_expr_unresolved (scope : Scope.t) (slot : option expr) :
  Forall unresolved (resolve_expr slot scope []).
Proof.
  destruct slot; [apply resolve_node_unresolved|constructor].
Qed.

Lemma resolve_expr_appends (scope : Scope.t) (slot : option expr) :
  forall errors,
    resolve_expr slot scope errors
    = (errors ++ resolve_expr slot scope [])%list.
Proof. intros errors. apply resolve_expr_app. Qed.

(** What the resolution pass does on any statement. *)
Lemma check_statement_appends (scope : Scope.t) (s : stmt) :
  exists extra r,
    appends (check_statement scope s) extra r
    /\ Forall unresolved extra
    /\ (dict_nodes s = true -> r = Ok tt)
    /\ (dict_nodes s = false -> r = Raise AttributeError).
Proof.
  assert (Hlist : forall l : list stmt,
             Forall (fun s => exists extra r,
                         appends (check_statement scope s) extra r
                         /\ Forall unresolved extra
                         /\ (dict_nodes s = true -> r = Ok tt)
                         /\ (dict_nodes s = false -> r = Raise AttributeError)) l ->
             exists extra r,
               appends (for_each (check_statement scope) l) extra r
               /\ Forall unresolved extra
               /\ (forallb dict_nodes l = true -> r = Ok tt)
               /\ (forallb dict_nodes l = false -> r = Raise AttributeError)).
  { induction 1 as [|s0 l (e1 & r1 & Hs & Hu1 & Ht1 & Hf1) _
                      (e2 & r2 & IH & Hu2 & Ht2 & Hf2)].
    - exists [], (Ok tt). split; [intros errors; cbn; now rewrite app_nil_r|].
      split; [constructor|]. split; [reflexivity|discriminate].
    - cbn [forallb]. destruct (dict_nodes s0).
      + rewrite (Ht1 eq_refl) in Hs. exists (e1 ++ e2)%list, r2. split.
        * intros errors. rewrite for_each_cons, Hs, IH. now rewrite app_assoc.
        * split; [apply Forall_app; now split|]. now split.
      + rewrite (Hf1 eq_refl) in Hs. exists e1, (Raise AttributeError). split.
        * intros errors. now rewrite for_each_cons, Hs.
        * split; [exact Hu1|]. split; [discriminate|reflexivity]. }
  induction s as [id ty v|id ty v|target v|test consequent alternate IHc IHa
                 |test body IHb|action|stmts _|]
    using stmt_induction; cbn [dict_nodes].
  - exists [], (Ok tt). split; [intros errors; cbn; now rewrite app_nil_r|].
    split; [constructor|]. split; [reflexivity|discriminate].
  - exists [], (Ok tt). split; [intros errors; cbn; now rewrite app_nil_r|].
    split; [constructor|]. split; [reflexivity|discriminate].
  - destruct (check_target_appends target scope) as (e1 & Ht & Hu & _).
    exists (e1 ++ resolve_expr v scope [])%list, (Ok tt). split.
    + intros errors. cbn [check_statement].
      rewrite resolve_expr_appends, Ht. now rewrite app_assoc.
    + split; [apply Forall_app; split; [exact Hu|apply resolve_expr_unresolved]|].
      split; [reflexivity|discriminate].
  - destruct (Hlist consequent IHc) as (e1 & r1 & H1 & Hu1 & Ht1 & Hf1).
    destruct (forallb dict_nodes consequent).
    2:{ rewrite (Hf1 eq_refl) in H1.
        exists (resolve_expr test scope [] ++ e1)%list, (Raise AttributeError).
        split.
        - intros errors. cbn [check_statement].
          rewrite resolve_expr_appends, H1. now rewrite app_assoc.
        - split; [apply Forall_app; split;
                  [apply resolve_expr_unresolved|exact Hu1]|].
          split; [discriminate|reflexivity]. }
    rewrite (Ht1 eq_refl) in H1. cbn [andb].
    assert (Halt : exists e2 r2,
               appends (fun errors =>
                          match alternate with
                          | Some (s0 :: alt) =>
                              for_each (check_statement scope) (s0 :: alt) errors
                          | Some [] | None => (errors, Ok tt)
                          end) e2 r2
               /\ Forall unresolved e2
               /\ (match alternate with
                   | Some alt => forallb dict_nodes alt
                   | None => true
                   end = true -> r2 = Ok tt)
               /\ (match alternate with
                   | Some alt => forallb dict_nodes alt
                   | None => true
                   end = false -> r2 = Raise AttributeError)).
    { destruct alternate as [[|s0 alt]|].
      - exists [], (Ok tt). split; [intros errors; now rewrite app_nil_r|].
        split; [constructor|]. split; [reflexivity|discriminate].
      - apply (Hlist (s0 :: alt) IHa).
      - exists [], (Ok tt). split; [intros errors; now rewrite app_nil_r|].
        split; [constructor|]. split; [reflexivity|discriminate]. }
    destruct Halt as (e2 & r2 & H2 & Hu2 & Ht2 & Hf2).
    exists ((resolve_expr test scope [] ++ e1) ++ e2)%list, r2. split.
    + intros errors. cbn [check_statement].
      rewrite resolve_expr_appends, H1.
      rewrite (H2 ((errors ++ resolve_expr test scope []) ++ e1)%list).
      now rewrite !app_assoc.
    + split; [|now split].
      apply Forall_app; split; [apply Forall_app; split|];
        [apply resolve_expr_unresolved|exact Hu1|exact Hu2].
  - destruct (Hlist body IHb) as (e1 & r1 & H1 & Hu1 & Ht1 & Hf1).
    exists (resolve_expr test scope [] ++ e1)%list, r1. split.
    + intros errors. cbn [check_statement].
      rewrite resolve_expr_appends, H1. now rewrite app_assoc.
    + split; [|now split].
      apply Forall_app; split; [apply resolve_expr_unresolved|exact Hu1].
  - exists [], (Ok tt). split; [intros errors; cbn; now rewrite app_nil_r|].
    split; [constructor|]. split; [reflexivity|discriminate].
  - exists [], (Raise AttributeError).
    split; [intros errors; cbn; now rewrite app_nil_r|].
    split; [constructor|]. split; [discriminate|reflexivity].
  - exists [], (Raise AttributeError).
    split; [intros errors; cbn; now rewrite app_nil_r|].
    split; [constructor|]. split; [discriminate|reflexivity].
Qed.

Lemma check_statements_appends (scope : Scope.t) (l : list stmt) :
  exists extra r,
    appends (for_each (check_statement scope) l) extra r
    /\ Forall unresolved extra
    /\ (forallb dict_nodes l = true -> r = Ok tt)
    /\ (forallb dict_nodes l = false -> r = Raise AttributeError).
Proof.
  induction l as [|s0 l (e2 & r2 & IH & Hu2 & Ht2 & Hf2)].
  - exists [], (Ok tt). split; [intros errors; cbn; now rewrite app_nil_r|].
    split; [constructor|]. split; [reflexivity|discriminate].
  - destruct (check_statement_appends scope s0) as (e1 & r1 & Hs & Hu1 & Ht1 & Hf1).
    cbn [forallb]. destruct (dict_nodes s0).
    + rewrite (Ht1 eq_refl) in Hs. exists (e1 ++ e2)%list, r2. split.
      * intros errors. rewrite for_each_cons, Hs, IH. now rewrite app_assoc.
      * split; [apply Forall_app; now split|]. now split.
    + rewrite (Hf1 eq_refl) in Hs. exists e1, (Raise AttributeError). split.
      * intros errors. now rewrite for_each_cons, Hs.
      * split; [exact Hu1|]. split; [discriminate|reflexivity].
Qed.

End SemanticMoreFacts.

Section DeclarationPassFacts.
Import Semantic AstSpec SemSpec.

Lemma str_in_In (x : string) (l : list string) :
  str_in x l = true <-> x ∈ l.
Proof.
  unfold str_in. rewrite existsb_exists, list_elem_of_In. split.
  - intros (y & Hy & E). apply String.eqb_eq in E. now subst.
  - intros H. exists x. split; [exact H|apply String.eqb_refl].
Qed.

Lemma duplicates_none (names seen : list string) :
  duplicates seen names = []
  <-> NoDup names /\ forall n, n ∈ names -> n ∉ seen.
Proof.
  revert seen. induction names as [|n names IH]; intros seen; cbn.
  - split; [intros _; split; [constructor|]|reflexivity].
    intros n Hn. now apply elem_of_nil in Hn.
  - destruct (str_in n seen) eqn:E.
    + split; [discriminate|]. intros [_ H]. apply str_in_In in E.
      destruct (H n); [apply list_elem_of_here|exact E].
    + rewrite IH. assert (Hn : n ∉ seen).
      { intros H. apply str_in_In in H. congruence. }
      rewrite NoDup_cons. split.
      * intros [Hnd Hfresh]. split; [split; [|exact Hnd]|].
        -- intros Hin. apply (Hfresh n Hin). apply list_elem_of_here.
        -- intros m Hm. apply elem_of_cons in Hm as [->|Hm]; [exact Hn|].
           intros Hs. apply (Hfresh m Hm). now apply list_elem_of_further.
      * intros [[Hni Hnd] Hfresh].
        split; [exact Hnd|]. intros m Hm Hs.
        apply elem_of_cons in Hs as [->|Hs]; [contradiction|].
        apply (Hfresh m); [now apply list_elem_of_further|exact Hs].
Qed.

Lemma duplicates_are_duplicates (names seen : list string) :
  Forall duplicate (duplicates seen names).
Proof.
  revert seen. induction names as [|n names IH]; intros seen; cbn;
    [constructor|].
  destruct (str_in n seen); [|apply IH].
  apply List.Forall_cons; [reflexivity|apply IH].
Qed.

Lemma declared_names_cons (s : stmt) (body : list stmt) :
  declared_names (s :: body)
  = match declared_name s with
    | Some id => id :: declared_names body
    | None => declared_names body
    end.
Proof. reflexivity. Qed.

(** The declaration pass for one statement. *)
Lemma declare_stmt_step (s : stmt) (scope scope1 : Scope.t)
    (errors errors1 : list diagnostic) :
  declare_stmt s (scope, errors) = ((scope1, errors1), Ok tt) ->
  match declared_name s with
  | None => scope1 = scope /\ errors1 = errors
  | Some id =>
      match Scope.names scope !! id with
      | Some _ =>
          scope1 = scope
          /\ errors1
             = (errors ++ [mkDiag "E_DUP_DECL"
                             (str_of_key_error (Scope.duplicate_msg id))])%list
      | None =>
          errors1 = errors
          /\ Scope.parent scope1 = Scope.parent scope
          /\ exists sym,
               Scope.names scope1 = <[id := sym]> (Scope.names scope)
               /\ sym_category sym = category s
      end
  end.
Proof.
  destruct s as [id ty v|id ty v|target v|? ? ?|? ?|action|?|];
    cbn [declare_stmt declared_name]; try discriminate;
    try (now intros [= <- <-]);
    unfold Scope.declare; destruct (Scope.names scope !! id);
    intros [= <- <-]; try (now split);
    (split; [reflexivity|]; split; [reflexivity|]; eexists;
     split; reflexivity).
Qed.

Lemma declaration_pass_result (body : list stmt) :
  forall (seen : list string) (scope scope' : Scope.t)
         (errors errors' : list diagnostic),
    (forall n, n ∈ seen <-> is_Some (Scope.names scope !! n)) ->
    for_each declare_stmt body (scope, errors) = ((scope', errors'), Ok tt) ->
    Scope.parent scope' = Scope.parent scope
    /\ errors' = (errors ++ duplicates seen (declared_names body))%list
    /\ (forall n sym, Scope.names scope !! n = Some sym ->
                      Scope.names scope' !! n = Some sym)
    /\ (forall n, Scope.names scope !! n = None ->
                  sym_category <$> Scope.names scope' !! n
                  = category <$> find (declares n) body).
Proof.
  induction body as [|s body IH]; intros seen scope scope' errors errors' Hseen.
  - intros [= <- <-]. cbn. rewrite app_nil_r.
    split; [reflexivity|]. split; [reflexivity|]. split; [easy|].
    intros n ->. reflexivity.
  - rewrite for_each_cons.
    destruct (declare_stmt s (scope, errors)) as [[scope1 errors1] [[]|e]] eqn:Es;
      [|discriminate].
    apply declare_stmt_step in Es. intros Hrest.
    rewrite declared_names_cons. cbn [find].
    destruct (declared_name s) as [id|] eqn:Eid.
    2:{ destruct Es as [-> ->].
        assert (Hnd : forall n, declares n s = false)
          by (intros n; destruct s; try reflexivity; discriminate).
        destruct (IH seen scope scope' errors errors' Hseen Hrest)
          as (Hp & He & Hold & Hnew).
        split; [exact Hp|]. split; [exact He|]. split; [exact Hold|].
        intros n Hn. rewrite Hnd. now apply Hnew. }
    assert (Hdecl : forall n, declares n s = str_eq id n)
      by (intros n; destruct s; try discriminate; now injection Eid as ->).
    cbn [duplicates]. destruct (Scope.names scope !! id) as [sym0|] eqn:Elook.
    + destruct Es as [-> ->].
      assert (Hin : str_in id seen = true)
        by (apply str_in_In, Hseen; eauto).
      rewrite Hin.
      destruct (IH seen scope scope' _ errors' Hseen Hrest)
        as (Hp & He & Hold & Hnew).
      split; [exact Hp|]. split; [now rewrite He, <- app_assoc|].
      split; [exact Hold|]. intros n Hn. rewrite Hdecl. unfold str_eq.
      destruct (String.eqb_spec id n) as [->|Hne]; [congruence|].
      now apply Hnew.
    + destruct Es as (-> & Hp1 & sym & Hnames & Hcat).
      assert (Hin : str_in id seen = false).
      { destruct (str_in id seen) eqn:E; [|reflexivity].
        apply str_in_In, Hseen in E. destruct E as [? E]. congruence. }
      rewrite Hin.
      assert (Hseen1 : forall n, n ∈ id :: seen
                                 <-> is_Some (Scope.names scope1 !! n)).
      { intros n. rewrite Hnames, elem_of_cons.
        destruct (decide (id = n)) as [->|Hne].
        - rewrite lookup_insert_eq. split; [eauto|now left].
        - rewrite lookup_insert_ne by exact Hne. rewrite <- Hseen.
          split; [intros [->|H]; [contradiction|exact H]|now right]. }
      destruct (IH (id :: seen) scope1 scope' errors errors' Hseen1 Hrest)
        as (Hp & He & Hold & Hnew).
      split; [congruence|]. split; [exact He|]. split.
      * intros n sym' Hn. apply Hold. rewrite Hnames.
        rewrite lookup_insert_ne; [exact Hn|congruence].
      * intros n Hn. rewrite Hdecl. unfold str_eq.
        destruct (String.eqb_spec id n) as [->|Hne].
        -- rewrite (Hold n sym); [cbn; now rewrite Hcat|].
           rewrite Hnames. apply lookup_insert_eq.
        -- apply Hnew. rewrite Hnames. now rewrite lookup_insert_ne.
Qed.

(** The declaration pass from the empty global scope. *)
Lemma declaration_pass_global (body : list stmt) (scope' : Scope.t)
    (errors' : list diagnostic) :
  for_each declare_stmt body (Scope.init None 0, []) = ((scope', errors'), Ok tt) ->
  errors' = duplicates [] (declared_names body)
  /\ forall n, sym_category <$> Scope.resolve n scope'
               = category <$> find (declares n) body.
Proof.
  intros Hrun.
  apply (declaration_pass_result body [] (Scope.init None 0)) in Hrun
    as (Hp & He & _ & Hnew).
  - split; [exact He|]. intros n. rewrite resolve_global by exact Hp.
    apply Hnew. reflexivity.
  - intros n. cbn. rewrite lookup_empty. split.
    + intros Hn. now apply elem_of_nil in Hn.
    + intros [? ?]. discriminate.
Qed.

Lemma find_declares (n : string) (body : list stmt) :
  (find (declares n) body = None <-> n ∉ declared_names body)
  /\ (forall s, find (declares n) body = Some s ->
                declares n s = true /\ In s body).
Proof.
  split.
  - induction body as [|s body IH].
    { cbn. split; [intros _ H; now apply elem_of_nil in H|reflexivity]. }
    rewrite declared_names_cons. cbn [find].
    assert (Hid : forall id, (if str_eq id n then Some s
                              else find (declares n) body) = None
                             <-> n ∉ id :: declared_names body).
    { intros id. unfold str_eq. rewrite not_elem_of_cons.
      destruct (String.eqb_spec id n) as [->|Hne].
      - split; [discriminate|]. intros [H _]. now destruct H.
      - rewrite IH. split; [intros H; split; [congruence|exact H]|].
        now intros [_ ?]. }
    destruct s as [id ty v|id ty v|target v|? ? ?|? ?|action|?|];
      cbn [declares declared_name]; try exact IH; apply Hid.
  - intros s H. apply find_some in H. tauto.
Qed.

End DeclarationPassFacts.

Section ResolutionPassFacts.
Import Semantic AstSpec SemSpec.

Lemma all_append (scope : Scope.t) (l : list stmt) :
  Forall (fun s => exists extra r, appends (check_statement scope s) extra r) l.
Proof.
  induction l as [|s l IH]; [constructor|].
  apply List.Forall_cons; [|exact IH].
  destruct (check_statement_appends scope s) as (e & r & H & _). eauto.
Qed.

Lemma accepts_assign (scope : Scope.t) (target : string) (v : option expr) :
  accepts scope (Assign target v)
  <-> (exists sym, Scope.resolve target scope = Some sym
                   /\ str_eq (sym_category sym) "const" = false)
      /\ resolve_expr v scope [] = [].
Proof.
  unfold accepts. cbn [check_statement].
  destruct (check_target_appends target scope) as (e1 & Ht & _ & Hiff).
  rewrite resolve_expr_app, (Ht []). cbn [app]. rewrite <- Hiff. split.
  - intros [= H]. apply app_eq_nil in H. tauto.
  - now intros [-> ->].
Qed.

Lemma accepts_while (scope : Scope.t) (test : option expr) (body : list stmt) :
  accepts scope (WhileStmt test body)
  <-> resolve_expr test scope [] = [] /\ Forall (accepts scope) body.
Proof.
  unfold accepts. cbn [check_statement].
  destruct (for_each_appends _ body (all_append scope body)) as (e1 & r1 & H1).
  split.
  - intros H. rewrite H1 in H. injection H as Happ ->.
    apply app_eq_nil in Happ as [Ht ->]. split; [exact Ht|].
    apply for_each_nothing; [apply all_append|]. now rewrite H1.
  - intros [-> Hb]. apply for_each_found; [exact Hb|apply all_append].
Qed.

Lemma accepts_if (scope : Scope.t) (test : option expr)
    (consequent : list stmt) (alternate : option (list stmt)) :
  accepts scope (IfStmt test consequent alternate)
  <-> resolve_expr test scope [] = []
      /\ Forall (accepts scope) consequent
      /\ match alternate with
         | Some alt => Forall (accepts scope) alt
         | None => True
         end.
Proof.
  unfold accepts. cbn [check_statement].
  destruct (for_each_appends _ consequent (all_append scope consequent))
    as (e1 & r1 & H1).
  split.
  - rewrite H1. destruct r1 as [[]|x]; [|discriminate].
    assert (Hc : forall t0, t0 = [] -> e1 = [] ->
                            resolve_expr test scope [] = t0 ->
                            resolve_expr test scope [] = []
                            /\ Forall (accepts scope) consequent).
    { intros t0 -> -> Ht. split; [exact Ht|].
      apply for_each_nothing; [apply all_append|]. now rewrite H1. }
    destruct alternate as [[|s0 alt]|].
    + intros [= Happ]. apply app_eq_nil in Happ as [Ht ->].
      destruct (Hc _ Ht eq_refl eq_refl) as [? ?].
      split; [assumption|]. split; [assumption|constructor].
    + destruct (for_each_appends _ (s0 :: alt) (all_append scope (s0 :: alt)))
        as (e2 & r2 & H2).
      rewrite H2. intros [= Happ ->].
      apply app_eq_nil in Happ as [Happ ->].
      apply app_eq_nil in Happ as [Ht ->].
      destruct (Hc _ Ht eq_refl eq_refl) as [? ?].
      split; [assumption|]. split; [assumption|].
      apply for_each_nothing; [apply all_append|]. now rewrite H2.
    + intros [= Happ]. apply app_eq_nil in Happ as [Ht ->].
      destruct (Hc _ Ht eq_refl eq_refl) as [? ?]. now split.
  - intros (-> & Hc & Ha).
    rewrite (for_each_found _ consequent Hc (all_append scope consequent)).
    destruct alternate as [[|s0 alt]|]; try reflexivity.
    apply for_each_found; [exact Ha|apply all_append].
Qed.

Lemma resolve_node_nothing (scope : Scope.t) (e : expr) :
  resolve_node scope e [] = []
  <-> forall name, expr_mentions name e = true ->
                   Scope.resolve name scope <> None.
Proof.
  split.
  - intros Hn name Hm Hres.
    pose proof (resolve_node_undefined name scope e Hres Hm) as Hex.
    rewrite Hn in Hex. now apply Exists_nil in Hex.
  - induction e as [v|n|op l r IHl IHr] using expr_induction;
      cbn [resolve_node expr_mentions]; intros H.
    + reflexivity.
    + specialize (H n (String.eqb_refl n)).
      now destruct (Scope.resolve n scope).
    + assert (Hl : match l with
                   | Some l' => resolve_node scope l' []
                   | None => []
                   end = []).
      { destruct l as [l|]; [|reflexivity]. apply IHl. intros name Hm.
        apply H. now rewrite Hm. }
      rewrite Hl. destruct r as [r|]; [|reflexivity]. apply IHr.
      intros name Hm. apply H. rewrite Hm. apply orb_true_r.
Qed.

Lemma resolve_expr_nothing (scope : Scope.t) (slot : option expr) :
  resolve_expr slot scope [] = []
  <-> forall name, in_slot (expr_mentions name) slot = true ->
                   Scope.resolve name scope <> None.
Proof.
  destruct slot as [e|]; cbn; [apply resolve_node_nothing|].
  split; [discriminate|reflexivity].
Qed.

Lemma well_scoped_list (scope : Scope.t) (l : list stmt) :
  Forall (well_scoped scope) l
  <-> forallb dict_nodes l = true
      /\ (forall name, existsb (walked_mentions name) l = true ->
                       Scope.resolve name scope <> None)
      /\ (forall name, existsb (assigns name) l = true ->
                       exists sym, Scope.resolve name scope = Some sym
                                   /\ str_eq (sym_category sym) "const" = false).
Proof.
  induction l as [|s l IH]; cbn [forallb existsb].
  - split; [|constructor]. intros _.
    split; [reflexivity|]. split; discriminate.
  - rewrite Forall_cons, IH. unfold well_scoped at 1.
    rewrite andb_true_iff. split.
    + intros [(Hd & Hw & Ha) (Hdl & Hwl & Hal)].
      split; [now split|]. split; intros name Hm;
        apply orb_true_iff in Hm as [Hm|Hm]; auto.
    + intros ([Hd Hdl] & Hw & Ha). split; split; try assumption;
        split; intros name Hm; (apply Hw || apply Ha); rewrite Hm;
        auto using orb_true_r.
Qed.

Lemma Forall_equiv {A : Type} (P Q : A -> Prop) (l : list A) :
  Forall (fun a => P a <-> Q a) l -> (Forall P l <-> Forall Q l).
Proof.
  induction 1 as [|a l Ha _ IH]; [split; constructor|].
  rewrite !Forall_cons. tauto.
Qed.

(** The resolution pass reports nothing exactly on the statements in
    which every name resolves and no constant is assigned. *)
Lemma accepts_well_scoped (scope : Scope.t) (s : stmt) :
  accepts scope s <-> well_scoped scope s.
Proof.
  induction s as [id ty v|id ty v|target v|test consequent alternate IHc IHa
                 |test body IHb|action|stmts _|]
    using stmt_induction.
  - unfold accepts, well_scoped. cbn. split; [|reflexivity]. intros _.
    split; [reflexivity|]. split; discriminate.
  - unfold accepts, well_scoped. cbn. split; [|reflexivity]. intros _.
    split; [reflexivity|]. split; discriminate.
  - rewrite accepts_assign, resolve_expr_nothing. unfold well_scoped.
    cbn [dict_nodes walked_mentions assigns]. split.
    + intros [(sym & Hs & Hc) Hv]. split; [reflexivity|].
      split; [exact Hv|]. intros name Hn. apply String.eqb_eq in Hn.
      subst. eauto.
    + intros (_ & Hv & Ht). split; [|exact Hv]. apply Ht, String.eqb_refl.
  - rewrite accepts_if, resolve_expr_nothing.
    rewrite (Forall_equiv _ _ _ IHc), well_scoped_list.
    assert (Halt : match alternate with
                   | Some alt => Forall (accepts scope) alt
                   | None => True
                   end
                   <-> match alternate with
                       | Some alt => Forall (well_scoped scope) alt
                       | None => True
                       end).
    { destruct alternate as [alt|]; [|reflexivity].
      apply Forall_equiv, IHa. }
    rewrite Halt. clear Halt. unfold well_scoped at 2.
    cbn [dict_nodes walked_mentions assigns]. split.
    + intros (Ht & (Hd & Hw & Ha) & Halt).
      assert (Halt' : match alternate with
                      | Some alt => forallb dict_nodes alt
                      | None => true
                      end = true
                      /\ (forall name,
                            match alternate with
                            | Some alt => existsb (walked_mentions name) alt
                            | None => false
                            end = true -> Scope.resolve name scope <> None)
                      /\ (forall name,
                            match alternate with
                            | Some alt => existsb (assigns name) alt
                            | None => false
                            end = true ->
                            exists sym, Scope.resolve name scope = Some sym
                                        /\ str_eq (sym_category sym) "const" = false)).
      { destruct alternate as [alt|].
        - now apply well_scoped_list.
        - split; [reflexivity|]. split; discriminate. }
      destruct Halt' as (Hda & Hwa & Haa).
      split; [now rewrite Hd, Hda|]. split.
      * intros name Hm. apply orb_true_iff in Hm as [Hm|Hm]; [|auto].
        apply orb_true_iff in Hm as [Hm|Hm]; auto.
      * intros name Hm. apply orb_true_iff in Hm as [Hm|Hm]; auto.
    + intros (Hd & Hw & Ha). apply andb_true_iff in Hd as [Hd Hda].
      split; [intros name Hm; apply Hw; now rewrite Hm|]. split.
      * split; [exact Hd|]. split; intros name Hm.
        -- apply Hw. rewrite Hm. now rewrite orb_true_r.
        -- apply Ha. now rewrite Hm.
      * destruct alternate as [alt|]; [|exact I].
        apply well_scoped_list. split; [exact Hda|].
        split; intros name Hm; [apply Hw|apply Ha]; rewrite Hm;
          apply orb_true_r.
  - rewrite accepts_while, resolve_expr_nothing.
    rewrite (Forall_equiv _ _ _ IHb), well_scoped_list.
    unfold well_scoped. cbn [dict_nodes walked_mentions assigns]. split.
    + intros (Ht & Hd & Hw & Ha). split; [exact Hd|]. split; [|exact Ha].
      intros name Hm. apply orb_true_iff in Hm as [Hm|Hm]; auto.
    + intros (Hd & Hw & Ha).
      split; [intros name Hm; apply Hw; now rewrite Hm|].
      split; [exact Hd|]. split; [|exact Ha].
      intros name Hm. apply Hw. rewrite Hm. apply orb_true_r.
  - unfold accepts, well_scoped. cbn. split; [|reflexivity]. intros _.
    split; [reflexivity|]. split; discriminate.
  - unfold accepts, well_scoped. cbn. split; [discriminate|].
    intros [? _]. discriminate.
  - unfold accepts, well_scoped. cbn. split; [discriminate|].
    intros [? _]. discriminate.
Qed.

Lemma declaration_pass_outcome (body : list stmt) :
  forall st,
    snd (for_each declare_stmt body st)
    = if forallb is_node body then Ok tt else Raise AttributeError.
Proof.
  induction body as [|s body IH]; intros [scope errors]; [reflexivity|].
  rewrite for_each_cons. cbn [forallb].
  destruct s as [id ty v|id ty v|target v|? ? ?|? ?|action|?|];
    cbn [declare_stmt is_node andb]; try apply IH; try reflexivity;
    unfold Scope.declare; destruct (Scope.names scope !! id); apply IH.
Qed.

Lemma dict_nodes_are_nodes (body : list stmt) :
  forallb dict_nodes body = true -> forallb is_node body = true.
Proof.
  induction body as [|s body IH]; [reflexivity|]. cbn.
  rewrite !andb_true_iff. intros [Hs Hb]. split; [|now apply IH].
  destruct s; try reflexivity; discriminate.
Qed.

Lemma var_declaration_found (name : string) (body : list stmt) :
  NoDup (declared_names body) ->
  existsb (declares_var name) body = true ->
  exists s, find (declares name) body = Some s /\ category s = "var".
Proof.
  induction body as [|s body IH]; [discriminate|].
  rewrite declared_names_cons. cbn [existsb find]. intros Hnd Hex.
  destruct (declares name s) eqn:Ed.
  - exists s. split; [reflexivity|].
    destruct s as [id ty v|id ty v|target v|? ? ?|? ?|action|?|];
      try discriminate; [|reflexivity].
    cbn in Hex, Ed, Hnd. apply String.eqb_eq in Ed. subst id.
    apply NoDup_cons in Hnd as [Hni _]. exfalso. apply Hni.
    clear -Hex. induction body as [|s body IH]; [discriminate|].
    rewrite declared_names_cons. cbn in Hex.
    apply orb_true_iff in Hex as [Hs|Hb].
    + destruct s; try discriminate. cbn in *. apply String.eqb_eq in Hs.
      subst. apply list_elem_of_here.
    + destruct (declared_name s); [apply list_elem_of_further|]; now apply IH.
  - assert (Hv : declares_var name s = false).
    { destruct s; try reflexivity; try discriminate. exact Ed. }
    rewrite Hv in Hex. apply IH; [|exact Hex].
    destruct (declared_name s); [now apply NoDup_cons in Hnd as [_ ?]|exact Hnd].
Qed.

End ResolutionPassFacts.

Section SemanticExtras.
Import Semantic AstSpec SemSpec.

(** X16.  [analyze] returns the empty list of errors exactly for the
    programs in which every statement is a node, no name is declared twice
    at the top level, every identifier in an assigned value or in the test
    of an [if] or [while], at any depth of the blocks, is declared at the
    top level (before or after its use), and every assigned name is
    declared with [var]. *)
Theorem analysis_accepts_exactly_well_scoped (ast : Program) :
  analyze ast = Ok []
  <-> forallb dict_nodes (prog_body ast) = true
      /\ NoDup (declared_names (prog_body ast))
      /\ (forall name, existsb (walked_mentions name) (prog_body ast) = true ->
                       name ∈ declared_names (prog_body ast))
      /\ (forall name, existsb (assigns name) (prog_body ast) = true ->
                       existsb (declares_var name) (prog_body ast) = true).
Proof.
  unfold analyze, check_statements. set (body := prog_body ast).
  destruct (for_each declare_stmt body (Scope.init None 0, []))
    as [[scope' errors'] [[]|e]] eqn:Ed.
  2:{ split; [discriminate|]. intros (Hd & _).
      pose proof (declaration_pass_outcome body (Scope.init None 0, [])) as Ho.
      rewrite Ed, (dict_nodes_are_nodes body Hd) in Ho. discriminate. }
  apply declaration_pass_global in Ed as [-> Hcat].
  destruct (check_statements_appends scope' body)
    as (extra & r & Happ & _ & Ht & Hf).
  rewrite Happ.
  assert (Hres : forall name,
             Scope.resolve name scope' <> None <-> name ∈ declared_names body).
  { intros name. specialize (Hcat name).
    pose proof (proj1 (find_declares name body)) as Hfind.
    destruct (Scope.resolve name scope'), (find (declares name) body);
      try discriminate.
    - split; [intros _|discriminate].
      destruct (decide (name ∈ declared_names body)) as [H|H]; [exact H|].
      apply Hfind in H. discriminate.
    - split; [congruence|]. intros H. exfalso.
      now apply (proj1 Hfind). }
  split.
  - intros Hok.
    assert (Hr : r = Ok tt) by (destruct r; [now destruct a|discriminate]).
    subst r. injection Hok as Hnil. apply app_eq_nil in Hnil as [Hdup ->].
    assert (Hd : forallb dict_nodes body = true).
    { destruct (forallb dict_nodes body); [reflexivity|].
      specialize (Hf eq_refl). discriminate. }
    split; [exact Hd|].
    split; [now apply duplicates_none in Hdup as [? _]|].
    assert (Hws : Forall (well_scoped scope') body).
    { apply (Forall_equiv _ _ _
               (proj2 (Forall_forall _ _)
                  (fun s _ => accepts_well_scoped scope' s))).
      apply for_each_nothing; [apply all_append|]. now rewrite Happ. }
    apply well_scoped_list in Hws as (_ & Hw & Ha). split.
    + intros name Hm. apply Hres. now apply Hw.
    + intros name Hm. destruct (Ha name Hm) as (sym & Hs & Hc).
      specialize (Hcat name). rewrite Hs in Hcat. cbn in Hcat.
      destruct (find (declares name) body) as [s|] eqn:Ef; [|discriminate].
      injection Hcat as Hcat.
      apply (proj2 (find_declares name body)) in Ef as [Hds Hin].
      apply existsb_exists. exists s. split; [exact Hin|].
      destruct s; try discriminate; [|exact Hds].
      cbn in Hcat. rewrite Hcat in Hc. discriminate.
  - intros (Hd & Hnd & Hw & Ha).
    rewrite (Ht Hd) in Happ |- *.
    assert (Hdup : duplicates [] (declared_names body) = []).
    { apply duplicates_none. split; [exact Hnd|].
      intros n _ Hn. now apply elem_of_nil in Hn. }
    rewrite Hdup. cbn [app].
    assert (Hacc : Forall (accepts scope') body).
    { apply (Forall_equiv _ _ _
               (proj2 (Forall_forall _ _)
                  (fun s _ => accepts_well_scoped scope' s))).
      apply well_scoped_list. split; [exact Hd|]. split.
      - intros name Hm. apply Hres. now apply Hw.
      - intros name Hm.
        destruct (var_declaration_found name body Hnd (Ha name Hm))
          as (s & Ef & Hc).
        specialize (Hcat name). rewrite Ef in Hcat. cbn in Hcat.
        destruct (Scope.resolve name scope') as [sym|]; [|discriminate].
        exists sym. split; [reflexivity|]. injection Hcat as ->.
        now rewrite Hc. }
    pose proof (for_each_found _ body Hacc (all_append scope' body)) as Hrun.
    rewrite Happ in Hrun. injection Hrun as ->. reflexivity.
Qed.

(** X17.  [analyze] returns a list of errors when every statement of the
    program, at any depth of the blocks, is a node, and raises
    [AttributeError] otherwise, that is when the converter has left a bare
    list (for a nested block) or [None] among the statements. *)
Theorem analysis_raises_exactly_on_non_nodes (ast : Program) :
  (forallb dict_nodes (prog_body ast) = true ->
   exists errors, analyze ast = Ok errors)
  /\ (forallb dict_nodes (prog_body ast) = false ->
      analyze ast = Raise AttributeError).
Proof.
  unfold analyze, check_statements. set (body := prog_body ast).
  pose proof (declaration_pass_outcome body (Scope.init None 0, [])) as Ho.
  destruct (for_each declare_stmt body (Scope.init None 0, []))
    as [[scope' errors'] r0].
  cbn [snd] in Ho. subst r0.
  destruct (check_statements_appends scope' body)
    as (extra & r & Happ & _ & Ht & Hf).
  rewrite Happ. split.
  - intros Hd. rewrite (dict_nodes_are_nodes body Hd), (Ht Hd). eauto.
  - intros Hd. rewrite (Hf Hd). now destruct (forallb is_node body).
Qed.

(** X18.  The errors that [analyze] returns are the [E_DUP_DECL] errors
    of the declaration pass, one for every declaration of a name that an
    earlier declaration has declared, in the order of the declarations,
    followed by the errors of the resolution pass, which are
    [E_UNDEFINED] and [E_CONST_ASSIGN] errors.  There is no [E_DUP_DECL]
    error exactly when no name is declared twice. *)
Theorem duplicates_come_first (ast : Program) (errors : list diagnostic) :
  analyze ast = Ok errors ->
  exists found,
    errors = (duplicates [] (declared_names (prog_body ast)) ++ found)%list
    /\ Forall duplicate (duplicates [] (declared_names (prog_body ast)))
    /\ Forall unresolved found
    /\ (NoDup (declared_names (prog_body ast))
        <-> duplicates [] (declared_names (prog_body ast)) = []).
Proof.
  unfold analyze, check_statements. set (body := prog_body ast).
  destruct (for_each declare_stmt body (Scope.init None 0, []))
    as [[scope' errors'] [[]|e]] eqn:Ed; [|discriminate].
  apply declaration_pass_global in Ed as [-> _].
  destruct (check_statements_appends scope' body)
    as (extra & r & Happ & Hu & _).
  rewrite Happ. destruct r as [[]|x]; [|discriminate]. intros [= <-].
  exists extra. split; [reflexivity|].
  split; [apply duplicates_are_duplicates|]. split; [exact Hu|].
  rewrite duplicates_none. split; [|tauto]. intros Hnd.
  split; [exact Hnd|]. intros n _ Hn. now apply elem_of_nil in Hn.
Qed.

Lemma duplicates_come_first_witness :
  exists found,
    [mkDiag "E_DUP_DECL" "'Duplicate declaration: x'";
     mkDiag "E_UNDEFINED" "Undefined variable: y"]
    = (duplicates [] (declared_names
                        [VarDecl "x" "int" None; ConstDecl "x" "int" None;
                         Assign "y" None]) ++ found)%list
    /\ Forall duplicate
         (duplicates [] (declared_names
                           [VarDecl "x" "int" None; ConstDecl "x" "int" None;
                            Assign "y" None]))
    /\ Forall unresolved found
    /\ (NoDup (declared_names
                 [VarDecl "x" "int" None; ConstDecl "x" "int" None;
                  Assign "y" None])
        <-> duplicates [] (declared_names
                             [VarDecl "x" "int" None; ConstDecl "x" "int" None;
                              Assign "y" None]) = []).
Proof.
  apply (duplicates_come_first
           (mkProgram "p" [VarDecl "x" "int" None; ConstDecl "x" "int" None;
                           Assign "y" None])).
  vm_compute. reflexivity.
Defined.

End SemanticExtras.

Section InitializerFacts.
Import Semantic AstSpec SemSpec.

Lemma same_categories_resolved (a b : Scope.t) (name : string) :
  same_categories a b ->
  (Scope.resolve name a = None <-> Scope.resolve name b = None).
Proof.
  intros H. specialize (H name).
  destruct (Scope.resolve name a), (Scope.resolve name b); try discriminate;
    split; congruence.
Qed.

Lemma resolve_node_same (a b : Scope.t) (e : expr) :
  same_categories a b ->
  forall errors, resolve_node a e errors = resolve_node b e errors.
Proof.
  intros H.
  induction e as [v|name|op l r IHl IHr] using expr_induction;
    intros errors; cbn [resolve_node].
  - reflexivity.
  - pose proof (same_categories_resolved a b name H) as Hn.
    destruct (Scope.resolve name a), (Scope.resolve name b); try reflexivity.
    + discriminate (proj2 Hn eq_refl).
    + discriminate (proj1 Hn eq_refl).
  - destruct l as [l|], r as [r|]; cbn; rewrite ?IHl, ?IHr; reflexivity.
Qed.

Lemma resolve_expr_same (a b : Scope.t) (slot : option expr) :
  same_categories a b ->
  forall errors, resolve_expr slot a errors = resolve_expr slot b errors.
Proof.
  intros H errors. destruct slot; [now apply resolve_node_same|reflexivity].
Qed.

Lemma check_target_same (a b : Scope.t) (target : string) :
  same_categories a b ->
  forall errors, check_target target a errors = check_target target b errors.
Proof.
  intros H errors. unfold check_target. specialize (H target).
  destruct (Scope.resolve target a), (Scope.resolve target b);
    try discriminate; [|reflexivity].
  cbn in H. injection H as ->. reflexivity.
Qed.

Lemma for_each_same {A S : Type} (f g : A -> S -> S * outcome unit)
    (l : list A) :
  Forall (fun a => forall st, f a st = g a st) l ->
  forall st, for_each f l st = for_each g l st.
Proof.
  induction 1 as [|a l Ha _ IH]; intros st; [reflexivity|].
  rewrite !for_each_cons, Ha. destruct (g a st) as [st' [[]|e]];
    [apply IH|reflexivity].
Qed.

(** The resolution pass sees of a scope only which names it binds and
    in which category. *)
Lemma check_statement_same (a b : Scope.t) (s : stmt) :
  same_categories a b ->
  forall errors, check_statement a s errors = check_statement b s errors.
Proof.
  intros H.
  induction s as [id ty v|id ty v|target v|test consequent alternate IHc IHa
                 |test body IHb|action|stmts _|]
    using stmt_induction; intros errors; cbn [check_statement];
    try reflexivity.
  - now rewrite (check_target_same a b target H), (resolve_expr_same a b v H).
  - rewrite (resolve_expr_same a b test H).
    rewrite (for_each_same _ _ consequent IHc).
    destruct (for_each (check_statement b) consequent _) as [errors' [[]|e]];
      [|reflexivity].
    destruct alternate as [[|s0 alt]|]; try reflexivity.
    apply (for_each_same _ _ (s0 :: alt) IHa).
  - rewrite (resolve_expr_same a b test H).
    apply (for_each_same _ _ body IHb).
Qed.

Lemma forget_initializer_facts (s : stmt) :
  declared_name (forget_initializer s) = declared_name s
  /\ category (forget_initializer s) = category s
  /\ is_node (forget_initializer s) = is_node s
  /\ (forall n, declares n (forget_initializer s) = declares n s)
  /\ (forall scope errors,
        check_statement scope (forget_initializer s) errors
        = check_statement scope s errors).
Proof. destruct s; repeat split; reflexivity. Qed.

Lemma forgotten_declarations (body : list stmt) :
  declared_names (map forget_initializer body) = declared_names body
  /\ forallb is_node (map forget_initializer body) = forallb is_node body
  /\ forall n,
       category <$> find (declares n) (map forget_initializer body)
       = category <$> find (declares n) body.
Proof.
  induction body as [|s body (IHn & IHd & IHf)]; [now repeat split|].
  destruct (forget_initializer_facts s) as (Hn & Hc & Hd & Hdecl & _).
  cbn [map]. rewrite !declared_names_cons, Hn, IHn. cbn [forallb find].
  rewrite Hd, IHd. split; [reflexivity|]. split; [reflexivity|].
  intros n. rewrite Hdecl. destruct (declares n s); [cbn; now rewrite Hc|].
  apply IHf.
Qed.

Lemma check_forgotten (sa sb : Scope.t) (body : list stmt) :
  same_categories sb sa ->
  forall errors,
    for_each (check_statement sb) (map forget_initializer body) errors
    = for_each (check_statement sa) body errors.
Proof.
  intros Hsame. induction body as [|s l IH]; intros errors; [reflexivity|].
  cbn [map]. rewrite !for_each_cons.
  rewrite (proj2 (proj2 (proj2 (proj2 (forget_initializer_facts s))))).
  rewrite (check_statement_same sb sa s Hsame).
  destruct (check_statement sa s errors) as [errors' [[]|e]];
    [apply IH|reflexivity].
Qed.

End InitializerFacts.

Section InitializerExtras.
Import Semantic AstSpec SemSpec.

(** X19.  [analyze] never looks at the initializer of a declaration: the
    result is the same for the program in which every top-level
    declaration has lost its initializer. *)
Theorem initializers_are_not_analyzed (ast : Program) :
  analyze (mkProgram (prog_name ast) (map forget_initializer (prog_body ast)))
  = analyze ast.
Proof.
  unfold analyze, check_statements. cbn [prog_body].
  set (body := prog_body ast).
  destruct (forgotten_declarations body) as (Hn & Hd & Hf).
  pose proof (declaration_pass_outcome body (Scope.init None 0, [])) as Ha.
  pose proof (declaration_pass_outcome (map forget_initializer body)
                (Scope.init None 0, [])) as Hb.
  rewrite Hd in Hb.
  destruct (for_each declare_stmt body (Scope.init None 0, []))
    as [[sa ea] ra] eqn:Ea.
  destruct (for_each declare_stmt (map forget_initializer body)
              (Scope.init None 0, [])) as [[sb eb] rb] eqn:Eb.
  cbn [snd] in Ha, Hb. subst ra rb.
  destruct (forallb is_node body); [|reflexivity].
  apply declaration_pass_global in Ea as [-> Hca].
  apply declaration_pass_global in Eb as [-> Hcb].
  rewrite Hn.
  assert (Hsame : same_categories sb sa).
  { intros n. now rewrite Hca, Hcb, Hf. }
  now rewrite (check_forgotten sa sb body Hsame).
Qed.

End InitializerExtras.


(* ====================================================================== *)
(** ** Further properties of the lexer *)
(* ====================================================================== *)

Section TokenFacts.
Import Lexer LexerSpec TokenSpec.

Lemma length_append (a b : string) :
  String.length (a +:+ b) = (String.length a + String.length b)%nat.
Proof.
  induction a as [|c a IH]; [reflexivity|].
  change (String c a +:+ b) with (String c (a +:+ b)). cbn. now rewrite IH.
Qed.

Lemma words_value (alts : list string) (prev : option ascii)
    (s v r : string) :
  words alts prev s = Some (v, r) -> In v alts.
Proof.
  unfold words. destruct (boundary prev (head s)); [|discriminate].
  induction alts as [|w alts IH]; [discriminate|].
  destruct (strip_prefix w s) as [rest|].
  - destruct (boundary _ _).
    + intros [= <- _]. now left.
    + intros H. right. now apply IH.
  - intros H. right. now apply IH.
Qed.

Lemma lit_value (text : string) (prev : option ascii) (s v r : string) :
  lit text prev s = Some (v, r) -> In v [text].
Proof.
  unfold lit. destruct (strip_prefix text s); [|discriminate].
  intros [= <- _]. now left.
Qed.

Lemma span_all (p : ascii -> bool) (s : string) :
  all_chars p (fst (span p s)) = true.
Proof.
  induction s as [|c s IH]; [reflexivity|]. cbn.
  destruct (p c) eqn:E; [|reflexivity].
  destruct (span p s) as [m r]. cbn in *. now rewrite E, IH.
Qed.

Lemma some_of_value (p : ascii -> bool) (prev : option ascii)
    (s v r : string) :
  some_of p prev s = Some (v, r) -> v <> "" /\ all_chars p v = true.
Proof.
  unfold some_of. pose proof (span_all p s) as Hall.
  destruct (span p s) as [[|c m] rest]; [discriminate|].
  intros [= <- _]. split; [discriminate|exact Hall].
Qed.

Lemma all_digits_chars (s : string) :
  Converter.all_digits s = all_chars is_digit s.
Proof. induction s as [|c s IH]; [reflexivity|]. cbn. now rewrite IH. Qed.

Lemma one_of_value (p : ascii -> bool) (prev : option ascii) (s v r : string) :
  one_of p prev s = Some (v, r) ->
  exists c, v = String c EmptyString /\ p c = true.
Proof.
  destruct s as [|c s]; cbn; [discriminate|].
  destruct (p c) eqn:E; [|discriminate]. intros [= <- _]. eauto.
Qed.

(** The text of a match is a text of its kind. *)
Lemma get_token_spelling (prev : option ascii) (s kind value rest : string) :
  get_token prev s = Some (kind, value, rest) -> spelling kind value.
Proof.
  unfold get_token, token_specification, word. cbn [first_match].
  repeat lazymatch goal with
    | |- match words ?alts prev s with _ => _ end = _ -> _ =>
        let E := fresh "E" in
        destruct (words alts prev s) as [[v r]|] eqn:E;
        [intros [= <- <- <-]; apply words_value in E; exact E|clear E]
    | |- match lit ?text prev s with _ => _ end = _ -> _ =>
        let E := fresh "E" in
        destruct (lit text prev s) as [[v r]|] eqn:E;
        [intros [= <- <- <-]; apply lit_value in E; exact E|clear E]
    end.
  - (* string literal, then the rest *)
    destruct (string_literal prev s) as [[v r]|] eqn:E.
    { intros [= <- <- <-]. unfold string_literal in E.
      destruct s as [|q s]; [discriminate|].
      destruct (Ascii.eqb_spec q dquote) as [->|]; [|discriminate].
      pose proof (span_all is_string_char s) as Hall.
      destruct (span is_string_char s) as [body [|q' rest']]; [discriminate|].
      destruct (Ascii.eqb_spec q' dquote) as [->|]; [|discriminate].
      injection E as <- _. exists body. now split. }
    clear E.
    repeat lazymatch goal with
      | |- match words ?alts prev s with _ => _ end = _ -> _ =>
          let E := fresh "E" in
          destruct (words alts prev s) as [[v r]|] eqn:E;
          [intros [= <- <- <-]; apply words_value in E; exact E|clear E]
      end.
    destruct (some_of is_digit prev s) as [[v r]|] eqn:E.
    { intros [= <- <- <-]. apply some_of_value in E as [Hne Hall].
      unfold spelling. cbn. unfold Converter.isdigit.
      rewrite all_digits_chars, Hall.
      destruct v; [now destruct Hne|reflexivity]. }
    clear E.
    repeat lazymatch goal with
      | |- match lit ?text prev s with _ => _ end = _ -> _ =>
          let E := fresh "E" in
          destruct (lit text prev s) as [[v r]|] eqn:E;
          [intros [= <- <- <-]; apply lit_value in E; exact E|clear E]
      end.
    destruct (comment prev s) as [[v r]|]; [now intros [= <- <- <-]|].
    destruct (identifier prev s) as [[v r]|] eqn:E.
    { intros [= <- <- <-]. unfold identifier in E.
      destruct s as [|c s]; [discriminate|].
      destruct (is_id_start c) eqn:Ec; [|discriminate].
      pose proof (span_all is_word s) as Hall.
      destruct (span is_word s) as [body rest']. injection E as <- _.
      cbn. now split. }
    clear E.
    destruct (one_of (Ascii.eqb newline) prev s) as [[v r]|] eqn:E.
    { intros [= <- <- <-]. apply one_of_value in E as (c & -> & Hc).
      apply Ascii.eqb_eq in Hc. subst c. now left. }
    clear E.
    destruct (some_of is_blank prev s) as [[v r]|]; [now intros [= <- <- <-]|].
    destruct (one_of is_dot prev s) as [[v r]|]; [now intros [= <- <- <-]|].
    discriminate.
Qed.

(** Induction over the turns of the scanning loop. *)
Lemma scan_induction (P : option ascii -> string -> Z -> list token -> Prop) :
  (forall prev line, P prev "" line []) ->
  (forall prev s kind value rest line,
      get_token prev s = Some (kind, value, rest) ->
      s = value +:+ rest ->
      value <> "" ->
      (forall line', P (last_char prev value) rest line'
                       (scan (last_char prev value) rest 0 line')) ->
      P prev s line (scan prev s 0 line)) ->
  forall prev s line, P prev s line (scan prev s 0 line).
Proof.
  intros Hend Hstep prev s.
  remember (String.length s) as n eqn:Hn. revert prev s Hn.
  induction n as [n IH] using lt_wf_ind. intros prev s Hn line.
  destruct s as [|c s]; [apply Hend|].
  destruct (get_token prev (String c s)) as [[[kind value] rest]|] eqn:Hget;
    [|now apply get_token_total in Hget].
  destruct (get_token_sound _ _ _ _ _ Hget) as [Hs Hne].
  apply (Hstep prev (String c s) kind value rest line Hget Hs Hne).
  intros line'. apply (IH (String.length rest)); [|reflexivity].
  subst n. rewrite Hs, length_append.
  destruct value; [now destruct Hne|cbn; lia].
Qed.

End TokenFacts.

Section TokenStreamFacts.
Import Lexer LexerSpec TokenSpec.

Lemma chars_append (a b : string) :
  list_ascii_of_string (a +:+ b)
  = (list_ascii_of_string a ++ list_ascii_of_string b)%list.
Proof.
  induction a as [|c a IH]; [reflexivity|].
  change (String c a +:+ b) with (String c (a +:+ b)). cbn. now rewrite IH.
Qed.

Lemma newlines_append (a b : string) :
  newlines (a +:+ b) = newlines a + newlines b.
Proof.
  induction a as [|c a IH]; [reflexivity|].
  change (String c a +:+ b) with (String c (a +:+ b)). cbn [newlines].
  rewrite IH. lia.
Qed.

Lemma newlines_nonneg (s : string) : 0 <= newlines s.
Proof.
  induction s as [|c s IH]; cbn [newlines]; [lia|].
  destruct (Ascii.eqb c newline); lia.
Qed.

Lemma ascending_weaken (line line' : Z) (tokens : list token) :
  line <= line' -> ascending line' tokens -> ascending line tokens.
Proof. destruct tokens; cbn; [easy|]. intros ? [? ?]. split; [lia|assumption]. Qed.

Lemma kept_kind (kind : string) :
  str_eq kind "NEWLINE" = false ->
  str_eq kind "SKIP" || str_eq kind "COMMENT" = false ->
  str_eq kind "MISMATCH" = false ->
  str_in kind dropped = false.
Proof.
  intros H1 H2 H3. apply orb_false_iff in H2 as [H2 H4].
  unfold str_in, dropped. cbn [existsb]. now rewrite H1, H2, H3, H4.
Qed.

End TokenStreamFacts.

Section TokenStreamExtras.
Import Lexer LexerSpec TokenSpec.

(** X20.  Every token of [get_token_stream] has the text of its kind: a
    keyword, operator or punctuation token is spelled as the keyword or
    sign (a [CONST] token is [const], a [NOT] token is [not], ...), a
    [BOOL_LITERAL] is [true] or [false], a [DIRECTION_LITERAL] one of the
    four directions, an [INT_LITERAL] a non-empty string of digits (so
    [isdigit] holds and the converter reads it as a number), an [ID] a
    letter or underscore followed by letters, digits and underscores, a
    [STRING_LITERAL] a quoted string.  No token has kind [NEWLINE],
    [SKIP], [COMMENT] or [MISMATCH]. *)
Theorem tokens_carry_the_text_of_their_kind (code : string) :
  Forall (fun t => spelling (tok_kind t) (tok_value t)
                   /\ str_in (tok_kind t) dropped = false)
    (get_token_stream code).
Proof.
  unfold get_token_stream.
  apply (scan_induction
           (fun _ _ _ tokens =>
              Forall (fun t => spelling (tok_kind t) (tok_value t)
                               /\ str_in (tok_kind t) dropped = false) tokens)).
  - constructor.
  - intros prev s kind value rest line Hget _ _ IH.
    rewrite (scan_step _ _ _ _ _ _ Hget).
    destruct (str_eq kind "NEWLINE") eqn:E1; [apply IH|].
    destruct (str_eq kind "SKIP" || str_eq kind "COMMENT") eqn:E2; [apply IH|].
    destruct (str_eq kind "MISMATCH") eqn:E3; [apply IH|].
    apply List.Forall_cons; [|apply IH]. cbn. split.
    + now apply (get_token_spelling prev s kind value rest).
    + now apply kept_kind.
Qed.

(** X21.  The texts of the tokens of [get_token_stream], one after the
    other, are characters of the source in their order (what is dropped
    is dropped between tokens); the line numbers start at 1, never
    decrease along the stream and never exceed one plus the number of
    newlines of the source. *)
Theorem tokens_follow_the_source (code : string) :
  sublist (texts (get_token_stream code)) (list_ascii_of_string code)
  /\ ascending 1 (get_token_stream code)
  /\ Forall (fun t => tok_line t <= 1 + newlines code) (get_token_stream code).
Proof.
  unfold get_token_stream.
  apply (scan_induction
           (fun _ s line tokens =>
              sublist (texts tokens) (list_ascii_of_string s)
              /\ ascending line tokens
              /\ Forall (fun t => tok_line t <= line + newlines s) tokens)).
  - intros prev line. split; [constructor|]. split; [exact I|constructor].
  - intros prev s kind value rest line Hget Hs Hne IH.
    rewrite (scan_step _ _ _ _ _ _ Hget). subst s.
    rewrite chars_append, newlines_append.
    pose proof (newlines_nonneg value) as Hv.
    pose proof (newlines_nonneg rest) as Hr.
    assert (Hdrop : forall line',
               line <= line' ->
               line' + newlines rest <= line + (newlines value + newlines rest) ->
               let tokens := scan (last_char prev value) rest 0 line' in
               sublist (texts tokens)
                 (list_ascii_of_string value ++ list_ascii_of_string rest)%list
               /\ ascending line tokens
               /\ Forall (fun t => tok_line t
                                   <= line + (newlines value + newlines rest))
                    tokens).
    { intros line' Hle Hup. destruct (IH line') as (Hsub & Hasc & Hbound).
      split; [now apply sublist_inserts_l|].
      split; [now apply (ascending_weaken line line')|].
      eapply Forall_impl; [exact Hbound|]. cbn. intros t Ht. lia. }
    destruct (str_eq kind "NEWLINE") eqn:E1.
    { apply String.eqb_eq in E1. subst kind. apply Hdrop; [lia|].
      apply get_token_spelling in Hget. destruct Hget as [<-|[]].
      cbn. lia. }
    destruct (str_eq kind "SKIP" || str_eq kind "COMMENT");
      [apply Hdrop; lia|].
    destruct (str_eq kind "MISMATCH"); [apply Hdrop; lia|].
    destruct (IH line) as (Hsub & Hasc & Hbound).
    split; [|split].
    + unfold texts. cbn [map concat]. now apply sublist_app.
    + cbn. split; [lia|exact Hasc].
    + apply List.Forall_cons; [cbn; lia|].
      eapply Forall_impl; [exact Hbound|]. cbn. intros t Ht. lia.
Qed.

End TokenStreamExtras.

Section LiteralFacts.
Import Lexer Converter TokenSpec.

Lemma int_of_nonneg (s : string) :
  forall acc, 0 <= acc -> all_chars is_digit s = true -> 0 <= int_of acc s.
Proof.
  induction s as [|c s IH]; intros acc Hacc; cbn [int_of all_chars];
    [easy|].
  intros H. apply andb_true_iff in H as [Hc Hs]. apply IH; [|exact Hs].
  unfold is_digit, in_range in Hc. apply andb_true_iff in Hc as [Hlo _].
  apply Nat.leb_le in Hlo.
  change (nat_of_ascii "0") with 48%nat in Hlo. lia.
Qed.

End LiteralFacts.

Section LiteralExtras.
Import Lexer Converter TokenSpec.

(** X22.  The converter reads the text of a literal token as the lexer
    classified it: the text of an [INT_LITERAL] of at most 4300 digits is
    converted to a number that is not negative, and [int] raises
    [ValueError] on a longer one; the text of a [BOOL_LITERAL] is
    converted to the truth value of its being [true]; the text of a
    [DIRECTION_LITERAL] or of a [STRING_LITERAL] stays a string (the
    quotes of a string literal are part of it). *)
Theorem literal_tokens_convert (kind value : string) :
  spelling kind value ->
  (kind = "INT_LITERAL" ->
   ((String.length value <= int_max_str_digits)%nat ->
    literal_of value = Ok (Literal (VInt (int_of 0 value)))
    /\ 0 <= int_of 0 value)
   /\ ((int_max_str_digits < String.length value)%nat ->
       literal_of value = Raise ValueError))
  /\ (kind = "BOOL_LITERAL" ->
      literal_of value = Ok (Literal (VBool (str_eq value "true"))))
  /\ (kind = "DIRECTION_LITERAL" \/ kind = "STRING_LITERAL" ->
      literal_of value = Ok (Literal (VStr value))).
Proof.
  intros Hs. split; [|split].
  - intros ->. cbn in Hs. unfold literal_of, int. rewrite Hs. split.
    + intros Hlen. apply Nat.ltb_ge in Hlen. rewrite Hlen.
      split; [reflexivity|]. unfold isdigit in Hs.
      apply andb_true_iff in Hs as [_ Hd]. rewrite all_digits_chars in Hd.
      now apply int_of_nonneg.
    + intros Hlen. apply Nat.ltb_lt in Hlen. now rewrite Hlen.
  - intros ->. cbn in Hs. destruct Hs as [<-|[<-|[]]]; reflexivity.
  - intros [->| ->]; cbn in Hs.
    + destruct Hs as [<-|[<-|[<-|[<-|[]]]]]; reflexivity.
    + destruct Hs as (body & -> & _). reflexivity.
Qed.

Lemma literal_tokens_convert_witness :
  (literal_of "42" = Ok (Literal (VInt (int_of 0 "42")))
   /\ 0 <= int_of 0 "42")
  /\ literal_of (Py.str_repeat "9" 4301) = Raise ValueError.
Proof.
  split.
  - apply (literal_tokens_convert "INT_LITERAL" "42");
      [reflexivity|reflexivity|].
    unfold int_max_str_digits. cbn. lia.
  - apply (literal_tokens_convert "INT_LITERAL" (Py.str_repeat "9" 4301));
      [vm_compute; reflexivity|reflexivity|].
    vm_compute. lia.
Defined.

End LiteralExtras.

Section WordFacts.
Import Lexer LexerSpec TokenSpec WordSpec.

Lemma span_whole (p : ascii -> bool) (s : string) :
  all_chars p s = true -> span p s = (s, "").
Proof.
  induction s as [|c s IH]; [reflexivity|]. cbn.
  intros H. apply andb_true_iff in H as [-> Hs]. now rewrite (IH Hs).
Qed.

Lemma all_chars_append (p : ascii -> bool) (a b : string) :
  all_chars p (a +:+ b) = all_chars p a && all_chars p b.
Proof.
  induction a as [|c a IH]; [reflexivity|].
  change (String c a +:+ b) with (String c (a +:+ b)). cbn.
  now rewrite IH, andb_assoc.
Qed.

Lemma last_char_word (w : string) (prev : option ascii) :
  w <> "" -> all_chars is_word w = true -> word_at (last_char prev w) = true.
Proof.
  revert prev. induction w as [|c w IH]; intros prev Hne; [now destruct Hne|].
  cbn [all_chars last_char]. intros H. apply andb_true_iff in H as [Hc Hw].
  destruct w as [|c' w']; [exact Hc|]. apply IH; [discriminate|exact Hw].
Qed.

(** Inside a longer word no keyword is found. *)
Lemma words_no_match (alts : list string) (prev : option ascii) (s : string) :
  all_chars is_word s = true ->
  Forall (fun w => w <> "" /\ all_chars is_word w = true /\ w <> s) alts ->
  words alts prev s = None.
Proof.
  intros Hs Halts. unfold words. destruct (boundary prev (head s)); [|reflexivity].
  induction Halts as [|w alts (Hne & Hw & Hdiff) _ IH]; [reflexivity|].
  destruct (strip_prefix w s) as [rest|] eqn:E; [|exact IH].
  apply strip_prefix_app in E. subst s.
  rewrite all_chars_append in Hs. apply andb_true_iff in Hs as [_ Hrest].
  destruct rest as [|r rest].
  - destruct Hdiff. clear. induction w as [|c w IHw]; [reflexivity|].
    change (String c w +:+ "") with (String c (w +:+ "")). now rewrite <- IHw.
  - cbn [head]. unfold boundary. rewrite (last_char_word w prev Hne Hw).
    cbn in Hrest. apply andb_true_iff in Hrest as [Hr _].
    cbn [word_at]. rewrite Hr. exact IH.
Qed.

Lemma lit_no_match (text : string) (prev : option ascii) (c : ascii)
    (body : string) :
  is_id_start c = true ->
  match text with
  | String o _ => is_id_start o = false
  | EmptyString => False
  end ->
  lit text prev (String c body) = None.
Proof.
  intros Hc. destruct text as [|o text]; [easy|]. intros Ho.
  unfold lit. cbn [strip_prefix].
  destruct (Ascii.eqb_spec o c) as [->|]; [congruence|reflexivity].
Qed.

Lemma id_start_not_digit (c : ascii) :
  is_id_start c = true -> is_digit c = false.
Proof.
  unfold is_id_start, is_digit, in_range. intros H.
  apply orb_true_iff in H as [H|H]; [apply orb_true_iff in H as [H|H]|].
  - apply andb_true_iff in H as [H _]. apply Nat.leb_le in H.
    change (nat_of_ascii "A") with 65%nat in H.
    apply andb_false_iff. right. apply Nat.leb_gt.
    change (nat_of_ascii "9") with 57%nat. lia.
  - apply andb_true_iff in H as [H _]. apply Nat.leb_le in H.
    change (nat_of_ascii "a") with 97%nat in H.
    apply andb_false_iff. right. apply Nat.leb_gt.
    change (nat_of_ascii "9") with 57%nat. lia.
  - apply Ascii.eqb_eq in H. now subst c.
Qed.

(** At the start of a word that is not reserved, the first pattern that
    matches is the one of identifiers, and it matches the word. *)
Lemma get_token_identifier (prev : option ascii) (s : string) :
  identifier_text s = true -> ~ In s reserved ->
  get_token prev s = Some ("ID", s, "").
Proof.
  destruct s as [|c body]; [discriminate|]. cbn [identifier_text].
  intros H Hres. apply andb_true_iff in H as [Hc Hbody].
  assert (Hs : all_chars is_word (String c body) = true).
  { cbn. unfold is_word at 1. now rewrite Hc, Hbody. }
  assert (Hword : forall alts,
             Forall (fun w => In w reserved) alts ->
             words alts prev (String c body) = None).
  { intros alts Halts. apply words_no_match; [exact Hs|].
    eapply Forall_impl; [exact Halts|]. cbn beta. intros w Hw.
    split; [|split].
    - intros ->. revert Hw. clear. cbn. intuition discriminate.
    - revert Hw. clear. cbn. intuition (subst; reflexivity).
    - intros ->. contradiction. }
  unfold get_token, token_specification, word. cbn [first_match].
  repeat (rewrite Hword
            by (repeat (apply List.Forall_cons; [cbn; tauto|]);
                apply List.Forall_nil)).
  assert (Hstr : string_literal prev (String c body) = None).
  { cbn. destruct (Ascii.eqb_spec c dquote) as [->|]; [discriminate|reflexivity]. }
  rewrite Hstr.
  repeat (rewrite Hword
            by (repeat (apply List.Forall_cons; [cbn; tauto|]);
                apply List.Forall_nil)).
  assert (Hint : some_of is_digit prev (String c body) = None).
  { unfold some_of. cbn [span]. now rewrite (id_start_not_digit c Hc). }
  rewrite Hint.
  rewrite !(lit_no_match _ prev c body Hc) by reflexivity.
  assert (Hcom : comment prev (String c body) = None).
  { cbn. destruct (Ascii.eqb_spec c "#") as [->|]; [discriminate|reflexivity]. }
  rewrite Hcom. unfold identifier. rewrite Hc, (span_whole _ _ Hbody).
  reflexivity.
Qed.

End WordFacts.

Section WordExtras.
Import Lexer LexerSpec TokenSpec WordSpec.

(** X23.  A keyword is only recognised as a whole word: a text made of a
    letter or underscore followed by letters, digits and underscores that
    is not itself one of the reserved words is one [ID] token, also when
    it begins with a reserved word or contains one. *)
Theorem unreserved_words_are_identifiers (s : string) :
  identifier_text s = true ->
  ~ In s reserved ->
  get_token_stream s = [("ID", s, 1)].
Proof.
  intros Hid Hres. unfold get_token_stream.
  pose proof (get_token_identifier None s Hid Hres) as Hget.
  rewrite (scan_step _ _ _ _ _ _ Hget). cbn.
  now destruct (last_char None s).
Qed.

Lemma unreserved_words_are_identifiers_witness :
  get_token_stream "sensed_not" = [("ID", "sensed_not", 1)].
Proof.
  apply unreserved_words_are_identifiers.
  - reflexivity.
  - cbn. intuition discriminate.
Defined.

End WordExtras.


(* ====================================================================== *)
(** ** Further properties of the parser and of the concrete syntax trees *)
(* ====================================================================== *)

(** An induction principle for the parser: a property of the methods that
    return a tree holds of all of them when it holds of [eat] and is kept
    by the ways in which the methods are put together. *)
Section ParserInduction.
Import Parser.

Variable R : M CSTNode -> Prop.
Hypothesis R_eat : forall kind, R (eat kind).
Hypothesis R_eat_peek : R eat_peek.
Hypothesis R_production :
  forall node_type ms, Forall R ms -> R (production node_type ms).
Hypothesis R_choice :
  forall kinds (m1 m2 : M CSTNode),
    R m1 -> R m2 -> R (fun p => if peek_in kinds p then m1 p else m2 p).
Hypothesis R_error :
  forall f : t -> string, R (fun p => (p, Raise (SyntaxError (f p)))).
Hypothesis R_depth : R (raise RecursionError).
Hypothesis R_repeat :
  forall node_type kinds item depth,
    R item ->
    R (cs <~ repeat_while kinds item depth ;; ret (Node node_type None cs)).

Ltac parts :=
  apply R_production;
  repeat (apply List.Forall_cons; [first [apply R_eat | apply R_eat_peek | assumption]|]);
  apply List.Forall_nil.

Lemma R_one (node_type : string) : R (production node_type [eat_peek]).
Proof. parts. Qed.

Lemma R_world_def : R parse_world_def.
Proof. unfold parse_world_def. parts. Qed.

Lemma R_type : R parse_type.
Proof.
  unfold parse_type.
  apply (R_choice _ (production "TYPE" [eat_peek])
           (fun p => (p, Raise (SyntaxError _)))); [parts|].
  apply (R_error (fun p => "Expected Type, found " +:+
                           match peek p with Some k => k | None => "None" end)).
Qed.

Lemma R_action : R parse_action.
Proof.
  unfold parse_action.
  apply (R_choice _ (production "ACTION" [eat_peek; eat "SEMICOLON"])
           (fun p => (p, Raise (SyntaxError _)))); [parts|].
  apply (R_error (fun _ => "Expected Action Statement")).
Qed.

Lemma R_expressions (d : nat) :
  R (parse_expression d) /\ R (parse_expression_tail d) /\ R (parse_term d)
  /\ R (parse_term_tail d) /\ R (parse_factor d).
Proof.
  induction d as [|d (He & Het & Ht & Htt & Hf)];
    [repeat split; exact R_depth|].
  pose proof (R_one "LITERAL") as Hlit. fold parse_literal in Hlit.
  pose proof (R_one "ADD_OP") as Hadd. fold parse_additive_op in Hadd.
  pose proof (R_one "MUL_OP") as Hmul. fold parse_multiplicative_op in Hmul.
  split; [|split; [|split; [|split]]];
    cbn [parse_expression parse_expression_tail parse_term parse_term_tail
         parse_factor].
  - parts.
  - apply (R_choice _ (production _ _) (production _ _)); parts.
  - parts.
  - apply (R_choice _ (production _ _) (production _ _)); parts.
  - unfold peek_is, unexpected_in_factor.
    apply (R_choice _ (production _ _)); [parts|].
    apply (R_choice _ (production _ _)); [parts|].
    apply (R_choice _ (production _ _)); [parts|].
    apply (R_choice _ (production _ _)); [parts|].
    apply (R_choice _ (production _ _)); [parts|].
    apply (R_error (fun p => "Unexpected token in factor: " +:+
                             match peek p with Some k => k | None => "None" end)).
Qed.

Lemma R_expression (d : nat) : R (parse_expression d).
Proof. apply R_expressions. Qed.

Lemma R_condition (d : nat) : R (parse_condition d).
Proof.
  pose proof (R_expression d) as He.
  pose proof (R_one "REL_OP") as Hrel. fold parse_relational_op in Hrel.
  assert (Htail : R (parse_condition_tail d)).
  { unfold parse_condition_tail.
    apply (R_choice _ (production _ _) (production _ _)); parts. }
  unfold parse_condition. parts.
Qed.

Lemma R_declaration (d : nat) : R (parse_declaration d).
Proof.
  pose proof (R_expression d) as He. pose proof R_type as Hty.
  assert (Htail : R (parse_var_tail d)).
  { unfold parse_var_tail, peek_is.
    apply (R_choice _ (production _ _)); [parts|].
    apply (R_choice _ (production _ _)); [parts|].
    apply (R_error (fun _ => "Invalid Variable Declaration Tail")). }
  unfold parse_declaration, peek_is.
  apply (R_choice _ (production _ _)); [parts|].
  apply (R_choice _ (production _ _)); [parts|].
  apply (R_error (fun _ => "Expected CONST or VAR")).
Qed.

Lemma R_declarations (d : nat) : R (parse_declarations d).
Proof. unfold parse_declarations. apply R_repeat, R_declaration. Qed.

Lemma R_statements (d : nat) :
  R (parse_statements d) /\ R (parse_statement d) /\ R (parse_block d)
  /\ R (parse_if d) /\ R (parse_else_part d) /\ R (parse_while d).
Proof.
  induction d as [|d (Hss & Hs & Hb & Hi & He & Hw)];
    [repeat split; exact R_depth|].
  pose proof (R_expression d) as Hx. pose proof (R_condition d) as Hc.
  split; [|split; [|split; [|split; [|split]]]];
    cbn [parse_statements parse_statement parse_block parse_if parse_else_part
         parse_while].
  - apply R_repeat, Hs.
  - unfold peek_is.
    apply (R_choice _ (parse_assignment d)); [unfold parse_assignment; parts|].
    apply (R_choice _ (parse_if d)); [exact Hi|].
    apply (R_choice _ (parse_while d)); [exact Hw|].
    apply (R_choice _ (parse_block d)); [exact Hb|].
    apply (R_choice _ parse_action); [exact R_action|].
    apply (R_error (fun p => "Unexpected token in statement: " +:+
                             match peek p with Some k => k | None => "None" end)).
  - parts.
  - parts.
  - unfold peek_is. apply (R_choice _ (production _ _) (production _ _)); parts.
  - parts.
Qed.

(** The parts of a program, in the order of [parse_program]. *)
Lemma R_program_parts (d : nat) :
  Forall R [eat "PROGRAM"; eat "ID"; eat "LBRACE"; parse_world_def;
            parse_declarations d; parse_statements d].
Proof.
  repeat (apply List.Forall_cons;
          [first [apply R_eat | apply R_world_def | apply R_declarations
                 | apply R_statements]|]).
  apply List.Forall_nil.
Qed.

Lemma R_program (d : nat) : R (parse_program_at d).
Proof.
  unfold parse_program_at. apply R_production.
  pose proof (R_program_parts d) as H.
  repeat (apply Forall_cons in H as [? H]).
  repeat (apply List.Forall_cons; [first [assumption | apply R_eat]|]).
  apply List.Forall_nil.
Qed.

End ParserInduction.

Section ParserReadFacts.
Import Parser ParserSpec TreeSpec.

Lemma between_app (i j k : nat) (l : list token) :
  (i <= j <= k)%nat -> between i k l = (between i j l ++ between j k l)%list.
Proof.
  intros H. unfold between.
  replace (k - i)%nat with ((j - i) + (k - j))%nat by lia.
  rewrite <- take_take_drop, drop_drop.
  now replace (i + (j - i))%nat with j by lia.
Qed.

Lemma between_same (i : nat) (l : list token) : between i i l = [].
Proof. unfold between. now rewrite Nat.sub_diag. Qed.

Lemma between_one (i : nat) (l : list token) (tok : token) :
  nth_error l i = Some tok -> between i (S i) l = [tok].
Proof.
  intros H. apply nth_error_split in H as (l1 & l2 & -> & <-).
  unfold between. replace (S (length l1) - length l1)%nat with 1%nat by lia.
  now rewrite drop_app_length.
Qed.

Lemma leaves_node (node_type : string) (value : option string)
    (children : list CSTNode) :
  leaves (Node node_type value children)
  = (match value with Some v => [v] | None => [] end
     ++ leaves_of children)%list.
Proof.
  cbn [leaves]. f_equal. unfold leaves_of.
  induction children as [|c l IH]; [reflexivity|]. cbn. now rewrite IH.
Qed.

Lemma nth_error_extend (l extra : list token) (i : nat) :
  (i < length l)%nat -> nth_error (l ++ extra) i = nth_error l i.
Proof. intros H. now apply nth_error_app1. Qed.

(** A successful [eat] moves over the current token, also when more
    tokens follow. *)
Lemma eat_extend (kind : string) (p p' : t) (c : CSTNode) :
  wf p -> eat kind p = (p', Ok c) ->
  exists tok,
    nth_error (tokens p) (pos p) = Some tok
    /\ c = Node "TERMINAL" (Some (tok_value tok)) []
    /\ p' = Build (tokens p) (S (pos p)) (nth_error (tokens p) (S (pos p)))
    /\ forall extra, eat kind (extend extra p) = (extend extra p', Ok c).
Proof.
  intros Hwf. unfold eat.
  destruct (current_token p) as [tok|] eqn:E; [|discriminate].
  destruct (str_eq (tok_kind tok) kind) eqn:Ek; [|discriminate].
  cbn. intros [= <- <-]. exists tok. unfold wf in Hwf. rewrite <- Hwf.
  split; [exact E|]. split; [reflexivity|]. split; [reflexivity|].
  intros extra. unfold extend. cbn.
  rewrite nth_error_extend, <- Hwf, E, Ek; [reflexivity|].
  apply nth_error_Some. congruence.
Qed.

Lemma reads_eat (kind : string) : reads leaves (eat kind).
Proof.
  intros p p' c Hwf He.
  destruct (eat_extend kind p p' c Hwf He) as (tok & Htok & -> & -> & Hext).
  assert (Hlt : (pos p < length (tokens p))%nat)
    by (apply nth_error_Some; congruence).
  split; [reflexivity|]. split; [reflexivity|].
  cbn [pos tokens]. split; [lia|].
  split; [now rewrite (between_one _ _ _ Htok), leaves_node|].
  intros extra _. apply Hext.
Qed.

Lemma reads_eat_peek : reads leaves eat_peek.
Proof.
  intros p p' c Hwf. unfold eat_peek. destruct (peek p) as [k|] eqn:Ek;
    [|discriminate].
  intros He. destruct (reads_eat k p p' c Hwf He) as (H1 & H2 & H3 & H4 & H5).
  split; [exact H1|]. split; [exact H2|]. split; [exact H3|].
  split; [exact H4|]. intros extra Hlt.
  destruct (eat_extend k p p' c Hwf He) as (tok & Htok & _ & _ & Hext).
  assert (Hk : peek (extend extra p) = Some k).
  { unfold peek in *. unfold extend. cbn.
    rewrite nth_error_extend by (apply nth_error_Some; congruence).
    unfold wf in Hwf. now rewrite <- Hwf. }
  rewrite Hk. apply Hext.
Qed.

Lemma peek_in_extend (kinds : list string) (extra : list token) (p : t) :
  wf p -> (pos p < length (tokens p))%nat ->
  peek_in kinds (extend extra p) = peek_in kinds p.
Proof.
  intros Hwf Hlt. unfold peek_in, peek, extend. cbn.
  rewrite nth_error_extend by exact Hlt. unfold wf in Hwf. now rewrite Hwf.
Qed.

Lemma reads_choice {A : Type} (texts : A -> list string) (kinds : list string)
    (m1 m2 : M A) :
  reads texts m1 -> reads texts m2 ->
  reads texts (fun p => if peek_in kinds p then m1 p else m2 p).
Proof.
  intros H1 H2 p p' a Hwf Hm.
  assert (H : reads texts (if peek_in kinds p then m1 else m2))
    by (destruct (peek_in kinds p); assumption).
  assert (Hm' : (if peek_in kinds p then m1 else m2) p = (p', Ok a))
    by (destruct (peek_in kinds p); exact Hm).
  destruct (H p p' a Hwf Hm') as (Hw & Ht & Hp & Hl & Hext).
  split; [exact Hw|]. split; [exact Ht|]. split; [exact Hp|].
  split; [exact Hl|]. intros extra Hlt.
  rewrite peek_in_extend by (exact Hwf || lia).
  specialize (Hext extra Hlt). now destruct (peek_in kinds p).
Qed.

Lemma reads_nil : reads leaves_of (ret []).
Proof.
  intros p p' a Hwf [= <- <-]. split; [exact Hwf|]. split; [reflexivity|].
  split; [lia|]. split; [now rewrite between_same|reflexivity].
Qed.

Lemma reads_cons (m : M CSTNode) (rest : M (list CSTNode)) :
  reads leaves m -> reads leaves_of rest ->
  reads leaves_of (c <~ m ;; cs <~ rest ;; ret (c :: cs)).
Proof.
  intros Hm Hrest p p' a Hwf. unfold mbind, ret.
  destruct (m p) as [p1 [c|e]] eqn:E1; [|discriminate].
  destruct (rest p1) as [p2 [cs|e]] eqn:E2; [|discriminate].
  intros [= <- <-].
  destruct (Hm p p1 c Hwf E1) as (Hw1 & Ht1 & Hp1 & Hl1 & Hx1).
  destruct (Hrest p1 p2 cs Hw1 E2) as (Hw2 & Ht2 & Hp2 & Hl2 & Hx2).
  rewrite Ht1 in *.
  split; [exact Hw2|]. split; [congruence|]. split; [lia|]. split.
  - rewrite (between_app (pos p) (pos p1) (pos p2)) by lia.
    rewrite map_app, Hl1, Hl2. reflexivity.
  - intros extra Hlt.
    rewrite (Hx1 extra) by lia.
    assert (Ee : extend extra p1 = Build (tokens p ++ extra) (pos p1)
                                     (nth_error (tokens p ++ extra) (pos p1)))
      by (unfold extend; now rewrite Ht1).
    specialize (Hx2 extra Hlt). now rewrite Hx2.
Qed.

Lemma reads_children (ms : list (M CSTNode)) :
  Forall (reads leaves) ms -> reads leaves_of (children_of ms).
Proof.
  induction 1 as [|m ms Hm _ IH]; cbn [children_of];
    [apply reads_nil|now apply reads_cons].
Qed.

Lemma reads_node (node_type : string) (ms : M (list CSTNode)) :
  reads leaves_of ms ->
  reads leaves (cs <~ ms ;; ret (Node node_type None cs)).
Proof.
  intros Hms p p' a Hwf. unfold mbind, ret.
  destruct (ms p) as [p1 [cs|e]] eqn:E1; [|discriminate].
  intros [= <- <-].
  destruct (Hms p p1 cs Hwf E1) as (Hw1 & Ht1 & Hp1 & Hl1 & Hx1).
  split; [exact Hw1|]. split; [exact Ht1|]. split; [exact Hp1|].
  split; [now rewrite leaves_node|].
  intros extra Hlt. now rewrite (Hx1 extra Hlt).
Qed.

Lemma reads_repeat (kinds : list string) (item : M CSTNode) :
  reads leaves item ->
  forall depth, reads leaves_of (repeat_while kinds item depth).
Proof.
  intros Hitem. induction depth as [|d IH]; [discriminate|].
  cbn [repeat_while].
  apply (reads_choice leaves_of kinds
           (c <~ item ;; cs <~ repeat_while kinds item d ;; ret (c :: cs))
           (ret [])); [now apply reads_cons|apply reads_nil].
Qed.

(** Every method of the parser that returns a tree reads the tokens
    that the tree spells. *)
Lemma reads_program_parts (d : nat) :
  Forall (reads leaves)
    [eat "PROGRAM"; eat "ID"; eat "LBRACE"; parse_world_def;
     parse_declarations d; parse_statements d].
Proof.
  apply R_program_parts.
  - apply reads_eat.
  - apply reads_eat_peek.
  - intros node_type ms Hms. unfold production.
    now apply reads_node, reads_children.
  - intros kinds m1 m2. apply reads_choice.
  - discriminate.
  - discriminate.
  - intros node_type kinds item depth Hitem.
    now apply reads_node, reads_repeat.
Qed.

(** A production that ends with [eat] does not look beyond what it
    reads. *)
Lemma reads_then_eat (kind : string) (ms : list (M CSTNode)) :
  Forall (reads leaves) ms ->
  forall p p' cs,
    wf p -> children_of (ms ++ [eat kind]) p = (p', Ok cs) ->
    tokens p' = tokens p
    /\ (pos p < pos p' <= length (tokens p))%nat
    /\ map tok_value (between (pos p) (pos p') (tokens p)) = leaves_of cs
    /\ forall extra,
         children_of (ms ++ [eat kind]) (extend extra p) = (extend extra p', Ok cs).
Proof.
  induction 1 as [|m ms Hm _ IH]; intros p p' cs Hwf; cbn [app children_of];
    unfold mbind, ret.
  - destruct (eat kind p) as [p1 [c|e]] eqn:E1; [|discriminate].
    intros [= <- <-].
    destruct (reads_eat kind p p1 c Hwf E1) as (_ & Ht & Hp & Hl & _).
    destruct (eat_extend kind p p1 c Hwf E1) as (tok & Htok & _ & Hp1 & Hext).
    assert (Hlt : (pos p < length (tokens p))%nat)
      by (apply nth_error_Some; congruence).
    split; [exact Ht|]. split; [subst p1; cbn [pos] in *; lia|]. split.
    + unfold leaves_of. cbn. rewrite app_nil_r. exact Hl.
    + intros extra. now rewrite Hext.
  - destruct (m p) as [p1 [c|e]] eqn:E1; [|discriminate].
    destruct (children_of (ms ++ [eat kind]) p1) as [p2 [cs'|e]] eqn:E2;
      [|discriminate].
    intros [= <- <-].
    destruct (Hm p p1 c Hwf E1) as (Hw1 & Ht1 & Hp1 & Hl1 & Hx1).
    destruct (IH p1 p2 cs' Hw1 E2) as (Ht2 & Hp2 & Hl2 & Hx2).
    rewrite Ht1 in *.
    split; [exact Ht2|]. split; [lia|]. split.
    + rewrite (between_app (pos p) (pos p1) (pos p2)) by lia.
      rewrite map_app, Hl1, Hl2. reflexivity.
    + intros extra. rewrite (Hx1 extra) by lia. now rewrite (Hx2 extra).
Qed.

Lemma extend_init (tokens extra : list token) :
  extend extra (init tokens) = init (tokens ++ extra)%list.
Proof. reflexivity. Qed.

(** A successful run of the parser. *)
Lemma parse_program_reads (d : nat) (tokens extra : list token)
    (p' : t) (cst : CSTNode) :
  parse_program_at d (init tokens) = (p', Ok cst) ->
  tokens = (between 0 (pos p') tokens ++ drop (pos p') tokens)%list
  /\ (0 < pos p')%nat
  /\ leaves cst = map tok_value (between 0 (pos p') tokens)
  /\ (exists cs, cst = Node "PROGRAM" None cs)
  /\ parse_program_at d (init (tokens ++ extra)%list)
     = (extend extra p', Ok cst).
Proof.
  assert (Hshape : forall q,
             parse_program_at d q
             = match children_of
                       ([eat "PROGRAM"; eat "ID"; eat "LBRACE"; parse_world_def;
                         parse_declarations d; parse_statements d]
                        ++ [eat "RBRACE"])%list q with
               | (q', Ok cs) => (q', Ok (Node "PROGRAM" None cs))
               | (q', Raise e) => (q', Raise e)
               end) by reflexivity.
  rewrite !Hshape.
  destruct (children_of _ (init tokens)) as [p1 [cs|e]] eqn:E; [|discriminate].
  intros [= <- <-].
  destruct (reads_then_eat "RBRACE" _ (reads_program_parts d)
              (init tokens) p1 cs eq_refl E) as (Ht & Hp & Hl & Hx).
  cbn [pos Parser.tokens init] in *.
  split; [unfold between; now rewrite Nat.sub_0_r, take_drop|].
  split; [lia|]. split; [now rewrite leaves_node|]. split; [eauto|].
  rewrite <- extend_init. now rewrite (Hx extra).
Qed.

End ParserReadFacts.

Section ParserFailFacts.
Import Parser ParserSpec TreeSpec.

Lemma fails_bind {A B : Type} (m : M A) (f : A -> M B) :
  fails_as_syntax m -> (forall a, fails_as_syntax (f a)) ->
  fails_as_syntax (mbind m f).
Proof.
  intros Hm Hf p e. unfold mbind. specialize (Hm p).
  destruct (m p) as [p1 [a|e1]]; [apply Hf|]. cbn in *.
  intros [= <-]. now apply Hm.
Qed.

Lemma fails_ret {A : Type} (a : A) : fails_as_syntax (ret a).
Proof. discriminate. Qed.

Lemma fails_eat (kind : string) : fails_as_syntax (eat kind).
Proof.
  intros p e. unfold eat. destruct (current_token p); [|intros [= <-]; eauto].
  destruct (str_eq _ _); [discriminate|intros [= <-]; eauto].
Qed.

Lemma fails_eat_peek : fails_as_syntax eat_peek.
Proof.
  intros p e. unfold eat_peek. destruct (peek p); [apply fails_eat|].
  intros [= <-]; eauto.
Qed.

Lemma fails_children (ms : list (M CSTNode)) :
  Forall fails_as_syntax ms -> fails_as_syntax (children_of ms).
Proof.
  induction 1 as [|m ms Hm _ IH]; cbn [children_of]; [apply fails_ret|].
  apply fails_bind; [exact Hm|]. intros c.
  apply fails_bind; [exact IH|]. intros cs. apply fails_ret.
Qed.

Lemma fails_repeat (kinds : list string) (item : M CSTNode) :
  fails_as_syntax item ->
  forall depth, fails_as_syntax (repeat_while kinds item depth).
Proof.
  intros Hitem. induction depth as [|d IH]; [intros p e [= <-]; now left|].
  cbn [repeat_while]. intros p. destruct (peek_in kinds p); [|discriminate].
  revert p. apply fails_bind; [exact Hitem|]. intros c.
  apply fails_bind; [exact IH|]. intros cs. apply fails_ret.
Qed.

Lemma fails_program (d : nat) : fails_as_syntax (parse_program_at d).
Proof.
  apply R_program.
  - apply fails_eat.
  - apply fails_eat_peek.
  - intros node_type ms Hms. unfold production.
    apply fails_bind; [now apply fails_children|]. intros cs. apply fails_ret.
  - intros kinds m1 m2 H1 H2 p. destruct (peek_in kinds p); [apply H1|apply H2].
  - intros f p e [= <-]. eauto.
  - intros p e [= <-]. now left.
  - intros node_type kinds item depth Hitem.
    apply fails_bind; [now apply fails_repeat|]. intros cs. apply fails_ret.
Qed.

Lemma parse_program_errors (tokens : list token) (e : exn) :
  parse_program tokens = Raise e -> exists msg, e = SyntaxError msg.
Proof.
  intros H. pose proof (parse_program_total tokens) as Htotal.
  destruct (fails_program (depth_for tokens) (init tokens) e H) as [->|Hs];
    [now destruct Htotal|exact Hs].
Qed.

End ParserFailFacts.

Section ParserExtras.
Import Parser ParserSpec TreeSpec.

(** X24.  On every list of tokens, also the empty one and one that ends
    in the middle of a production, and under every bound on the nesting
    of its calls, the parser returns a tree whose root has type
    [PROGRAM], or raises [SyntaxError], or raises [RecursionError]
    because the bound is exhausted: no indexing or attribute error
    escapes from the parser.  The tree and the [SyntaxError] do not
    depend on the bound, they are those of [parse_program], and a bound
    of four times the number of tokens plus sixteen is never exhausted.
    (The bound [depth] is the budget of [parse_program_at], which counts
    the turns of the loops of [parse_declarations] and [parse_statements]
    with the nested calls.) *)
Theorem parser_raises_only_syntax_errors (depth : nat) (tokens : list token) :
  match snd (parse_program_at depth (init tokens)) with
  | Ok cst =>
      (exists children, cst = Node "PROGRAM" None children)
      /\ parse_program tokens = Ok cst
  | Raise e =>
      ((exists msg, e = SyntaxError msg) /\ parse_program tokens = Raise e)
      \/ (e = RecursionError /\ (depth < depth_for tokens)%nat)
  end.
Proof.
  pose proof (parse_program_total tokens) as Htotal.
  assert (Hsame : snd (parse_program_at depth (init tokens))
                  <> Raise RecursionError ->
                  parse_program tokens
                  = snd (parse_program_at depth (init tokens))).
  { intros Hd. destruct (Nat.le_gt_cases depth (depth_for tokens)) as [Hle|Hgt].
    - unfold parse_program.
      now rewrite (program_depth _ _ Hle (init tokens) Hd).
    - symmetry. apply parse_program_depth; [lia|exact Htotal]. }
  destruct (parse_program_at depth (init tokens)) as [p' [cst|e]] eqn:E;
    cbn [snd] in *.
  - split; [|now apply Hsame].
    now destruct (parse_program_reads _ tokens [] p' cst E) as (_ & _ & _ & H & _).
  - destruct (fails_program depth (init tokens) e) as [->|Hs];
      [now rewrite E| |].
    + right. split; [reflexivity|].
      destruct (Nat.le_gt_cases (depth_for tokens) depth) as [Hle|Hgt];
        [|exact Hgt].
      pose proof (parse_program_depth tokens depth Hle Htotal) as Hd.
      rewrite E in Hd. cbn [snd] in Hd. now rewrite <- Hd in Htotal.
    + left. split; [exact Hs|]. apply Hsame. destruct Hs as [msg ->].
      discriminate.
Qed.

(** X25.  The tree that [parse_program] returns spells the tokens it has
    read: the values of its terminals, from left to right, are the texts
    of a non-empty prefix of the token list. *)
Theorem the_tree_spells_the_tokens (tokens : list token) (cst : CSTNode) :
  parse_program tokens = Ok cst ->
  exists consumed rest,
    tokens = (consumed ++ rest)%list
    /\ consumed <> []
    /\ leaves cst = map tok_value consumed.
Proof.
  unfold parse_program.
  destruct (parse_program_at (depth_for tokens) (init tokens))
    as [p' [c|e]] eqn:E; [|discriminate].
  intros [= ->].
  destruct (parse_program_reads _ tokens [] p' cst E) as (Hs & Hp & Hl & _).
  exists (between 0 (pos p') tokens), (drop (pos p') tokens).
  split; [exact Hs|]. split; [|exact Hl].
  intros Hnil. rewrite Hnil in Hs. cbn in Hs.
  assert (Hlen : length tokens = length (drop (pos p') tokens)) by congruence.
  rewrite length_drop in Hlen.
  assert (length tokens = 0)%nat by lia.
  destruct tokens; [|discriminate].
  unfold parse_program_at, production, mbind in E. cbn in E. discriminate.
Qed.

Lemma the_tree_spells_the_tokens_witness :
  exists consumed rest,
    ParseExamples.tiny_tokens = (consumed ++ rest)%list
    /\ consumed <> []
    /\ leaves ParseExamples.tiny_cst = map tok_value consumed.
Proof.
  apply (the_tree_spells_the_tokens ParseExamples.tiny_tokens
           ParseExamples.tiny_cst).
  vm_compute. reflexivity.
Defined.

(** X26.  [parse_program] does not check that the input ends with the
    program: when it returns a tree for a list of tokens, it returns the
    same tree for that list followed by any other tokens. *)
Theorem tokens_after_the_program_are_ignored (tokens extra : list token)
    (cst : CSTNode) :
  parse_program tokens = Ok cst ->
  parse_program (tokens ++ extra)%list = Ok cst.
Proof.
  unfold parse_program.
  destruct (parse_program_at (depth_for tokens) (init tokens))
    as [p' [c|e]] eqn:E; [|discriminate].
  intros [= ->].
  destruct (parse_program_reads _ tokens extra p' cst E) as (_ & _ & _ & _ & Hx).
  rewrite (program_depth (depth_for tokens) (depth_for (tokens ++ extra)%list)).
  - now rewrite Hx.
  - unfold depth_for. rewrite length_app. lia.
  - now rewrite Hx.
Qed.

Lemma tokens_after_the_program_are_ignored_witness :
  parse_program (ParseExamples.tiny_tokens ++ ParseExamples.trailing_tokens)%list
  = Ok ParseExamples.tiny_cst.
Proof.
  apply (tokens_after_the_program_are_ignored ParseExamples.tiny_tokens).
  vm_compute. reflexivity.
Defined.

End ParserExtras.

Section CstExtras.

Lemma to_dict_injective (a : CSTNode) :
  forall b, to_dict a = to_dict b -> a = b.
Proof.
  induction a as [ty v cs IH] using cst_induction. intros [ty' v' cs'].
  cbn [to_dict]. intros [= -> -> Hc]. f_equal.
  assert (Hmap : map to_dict cs = map to_dict cs').
  { destruct cs, cs'; try discriminate; [reflexivity|].
    cbn in Hc |- *. congruence. }
  clear Hc. revert cs' Hmap.
  induction IH as [|c cs Hc _ IHcs]; intros [|c' cs']; try discriminate;
    [reflexivity|].
  cbn [map]. intros [= Hhd Htl]. f_equal; [now apply Hc|now apply IHcs].
Qed.

(** X27.  [to_dict] loses nothing: two trees with the same dictionary are
    the same tree.  The dictionary has the type of the node; reading its
    children with [get("children", [])] gives the dictionaries of the
    children, while [node["children"]] raises [KeyError] exactly for a
    node without children and [node["value"]] exactly for a node without
    value. *)
Theorem to_dict_keeps_the_tree :
  (forall a b, to_dict a = to_dict b <-> a = b)
  /\ forall node_type value children,
       Converter.type_of (to_dict (Node node_type value children)) = node_type
       /\ Converter.get_children (to_dict (Node node_type value children))
          = map to_dict children
       /\ (Converter.children_of (to_dict (Node node_type value children))
           = Raise (KeyError "children") <-> children = [])
       /\ (Converter.value_of (to_dict (Node node_type value children))
           = Raise (KeyError "value") <-> value = None).
Proof.
  split.
  - intros a b. split; [apply to_dict_injective|now intros ->].
  - intros ty v cs. cbn [to_dict Converter.type_of].
    split; [reflexivity|]. split; [now destruct cs|]. split.
    + destruct cs; cbn; split; try reflexivity; discriminate.
    + destruct v; cbn; split; try reflexivity; discriminate.
Qed.

End CstExtras.


(* ====================================================================== *)
(** ** The parser and the converter *)
(* ====================================================================== *)

Section ConverterFacts.
Import Converter ConvSpec.

Lemma height_children (type : string) (value : option string)
    (cs : list cst_dict) :
  height (Dict type value (Some cs)) = S (highest cs).
Proof. reflexivity. Qed.

Lemma highest_cons (c : cst_dict) (cs : list cst_dict) :
  highest (c :: cs) = Nat.max (height c) (highest cs).
Proof. reflexivity. Qed.

Lemma highest_in (c : cst_dict) (cs : list cst_dict) :
  In c cs -> (height c <= highest cs)%nat.
Proof.
  induction cs as [|c' cs IH]; [easy|]. rewrite highest_cons.
  intros [->|H]; [lia|]. specialize (IH H). lia.
Qed.

Lemma subscript_in {A : Type} (l : list A) (i : nat) (a : A) :
  subscript l i = Ok a -> In a l.
Proof.
  unfold subscript. destruct (nth_error l i) eqn:E; [|discriminate].
  intros [= <-]. now apply nth_error_In in E.
Qed.

Lemma subscript_errors {A : Type} (l : list A) (i : nat) (e : exn) :
  subscript l i = Raise e -> lookup_error e.
Proof.
  unfold subscript. destruct (nth_error l i); [discriminate|].
  intros [= <-]. now left.
Qed.

Lemma value_of_errors (node : cst_dict) (e : exn) :
  value_of node = Raise e -> lookup_error e.
Proof. destruct node as [? [?|] ?]; [discriminate|]. intros [= <-]. right; eauto. Qed.

Lemma child_errors (node : cst_dict) (i : nat) (e : exn) :
  child node i = Raise e -> lookup_error e.
Proof.
  unfold child. destruct node as [? ? [cs|]]; cbn.
  - apply subscript_errors.
  - intros [= <-]. right; eauto.
Qed.

(** A child is lower than the node. *)
Lemma child_height (node c : cst_dict) (i : nat) :
  child node i = Ok c -> (height c < height node)%nat.
Proof.
  unfold child. destruct node as [ty v [cs|]]; cbn [children_of bind];
    [|discriminate].
  intros H. apply subscript_in, highest_in in H.
  rewrite height_children. lia.
Qed.

Lemma get_children_height (node c : cst_dict) :
  In c (get_children node) -> (height c < height node)%nat.
Proof.
  destruct node as [ty v [cs|]]; cbn [get_children]; [|easy].
  intros H. apply highest_in in H. rewrite height_children. lia.
Qed.

Lemma bind_raises {A B : Type} (m : outcome A) (k : A -> outcome B) (e : exn) :
  bind m k = Raise e -> m = Raise e \/ exists a, m = Ok a /\ k a = Raise e.
Proof.
  destruct m as [a|e0]; cbn; intros H; [right; eauto|left].
  now injection H as <-.
Qed.

Lemma map_outcome_raises {A B : Type} (f : A -> outcome B) (l : list A)
    (e : exn) :
  map_outcome f l = Raise e -> exists a, In a l /\ f a = Raise e.
Proof.
  induction l as [|a l IH]; [discriminate|]. cbn [map_outcome].
  intros H. apply bind_raises in H as [H|(b & _ & H)].
  - exists a. split; [now left|exact H].
  - apply bind_raises in H as [H|(bs & _ & H)]; [|discriminate].
    destruct (IH H) as (a' & Hin & Ha). exists a'. split; [now right|exact Ha].
Qed.

(** Splits the hypotheses that a sequence of steps raises into the step
    that raises. *)
Ltac raised :=
  repeat match goal with
    | H : bind _ _ = Raise _ |- _ =>
        apply bind_raises in H as [H|(? & ? & H)]
    | H : (if ?b then _ else _) = Raise _ |- _ => destruct b
    | H : match ?x with _ => _ end = Raise _ |- _ => destruct x
    | H : Ok _ = Raise _ |- _ => discriminate H
    | H : Raise _ = Raise _ |- _ => injection H as <-
    end.

Lemma literal_of_errors (val : string) (e : exn) :
  literal_of val = Raise e -> e = ValueError.
Proof.
  unfold literal_of, int. destruct (isdigit val).
  - destruct (int_max_str_digits <? String.length val)%nat;
      [now intros [= <-]|discriminate].
  - destruct (str_in val ["true"; "false"]); discriminate.
Qed.

Ltac lookup_failed :=
  match goal with
  | H : child _ _ = Raise _ |- _ => left; exact (child_errors _ _ _ H)
  | H : value_of _ = Raise _ |- _ => left; exact (value_of_errors _ _ H)
  | H : subscript _ _ = Raise _ |- _ => left; exact (subscript_errors _ _ _ H)
  | H : literal_of _ = Raise _ |- _ => right; exact (literal_of_errors _ _ H)
  | |- conversion_error IndexError => left; now left
  | |- conversion_error (KeyError _) => left; right; eauto
  end.

Lemma flatten_errors (n : nat) :
  forall node e,
    (height node <= n)%nat ->
    flatten_expression node = Raise e -> conversion_error e.
Proof.
  induction n as [|n IH]; intros [ty v children] e Hh; cbn [flatten_expression].
  - destruct children as [cs|]; [rewrite height_children in Hh; lia|].
    destruct (str_eq ty "FACTOR"); [|discriminate]. intros [= <-]. lookup_failed.
  - intros H.
    assert (Hsub : forall sub e',
               (height sub < height (Dict ty v children))%nat ->
               flatten_expression sub = Raise e' -> conversion_error e').
    { intros sub e' Hlt. apply IH. lia. }
    clear IH Hh.
    raised; try lookup_failed;
      match goal with
      | H : flatten_expression ?sub = Raise _ |- _ =>
          apply (Hsub sub _); [|exact H]
      end;
      rewrite ?height_children, ?highest_cons in *; cbn [height]; lia.
Qed.

Lemma convert_expression_errors (node : cst_dict) (e : exn) :
  convert_expression node = Raise e -> conversion_error e.
Proof. apply (flatten_errors (height node)). lia. Qed.

Lemma convert_condition_errors (node : cst_dict) (e : exn) :
  convert_condition node = Raise e -> conversion_error e.
Proof.
  unfold convert_condition. intros H.
  raised; try lookup_failed;
    match goal with
    | H : flatten_expression _ = Raise _ |- _ =>
        exact (convert_expression_errors _ _ H)
    end.
Qed.

Lemma convert_declaration_errors (node : cst_dict) (e : exn) :
  convert_declaration node = Raise e -> conversion_error e.
Proof.
  unfold convert_declaration. intros H.
  raised; try lookup_failed;
    match goal with
    | H : convert_expression _ = Raise _ |- _ =>
        exact (convert_expression_errors _ _ H)
    end.
Qed.

Lemma convert_statement_errors (n : nat) :
  forall node e,
    (height node <= n)%nat ->
    convert_statement node = Raise e -> conversion_error e.
Proof.
  induction n as [|n IH]; intros [ty v children] e Hh.
  - destruct children as [cs|]; [rewrite height_children in Hh; lia|].
    cbn. unfold convert_assignment, convert_action, convert_if_with,
      convert_while_with, convert_block_with, child. cbn.
    intros H. raised; lookup_failed.
  - assert (Hblock : forall block e',
               (height block <= height (Dict ty v children))%nat ->
               convert_block_with convert_statement block = Raise e' ->
               conversion_error e').
    { intros [bt bv bc] e' Hb. unfold convert_block_with. intros H.
      assert (Hb' : (height (Dict bt bv bc) <= S n)%nat) by lia.
      clear Hb. rename Hb' into Hb.
      destruct bc as [[|c0 [|[st sv sc] cs]]|]; try discriminate.
      destruct sc as [stmts|]; [|discriminate].
      apply map_outcome_raises in H as (s & Hin & Hs).
      apply (IH s e'); [|exact Hs]. apply highest_in in Hin.
      rewrite !height_children, !highest_cons, height_children in Hb. lia. }
    cbn [convert_statement type_of].
    unfold convert_assignment, convert_action, convert_if_with,
      convert_while_with.
    intros H. clear IH Hh.
    raised; try lookup_failed;
      try match goal with
        | H : convert_expression _ = Raise _ |- _ =>
            exact (convert_expression_errors _ _ H)
        | H : convert_condition _ = Raise _ |- _ =>
            exact (convert_condition_errors _ _ H)
        end;
      match goal with
      | H : convert_block_with convert_statement ?b = Raise _ |- _ =>
          apply (Hblock b _); [|exact H]
      end;
      cbn [height]; lia.
Qed.

(** The converter raises nothing but the errors of its lookups and of
    [int]. *)
Lemma convert_cst_to_ast_errors (cst : cst_dict) (e : exn) :
  convert_cst_to_ast cst = Raise e -> conversion_error e.
Proof.
  unfold convert_cst_to_ast. intros H.
  destruct (str_eq (type_of cst) "PROGRAM"); [|discriminate].
  destruct cst as [ty v [children|]]; [|discriminate].
  raised; try lookup_failed.
  - match goal with
    | H : map_outcome convert_declaration _ = Raise _ |- _ =>
        apply map_outcome_raises in H as (d & _ & H);
        exact (convert_declaration_errors _ _ H)
    end.
  - match goal with
    | H : map_outcome convert_statement _ = Raise _ |- _ =>
        apply map_outcome_raises in H as (d & _ & H);
        exact (convert_statement_errors (height d) d _ (Nat.le_refl _) H)
    end.
Qed.

End ConverterFacts.

Section FrontEndFacts.
Import Parser ParserSpec Converter FrontSpec.
















End FrontEndFacts.

Section FrontEndStatementFacts.
Import Parser ParserSpec Converter FrontSpec.





















End FrontEndStatementFacts.

Section FrontEndExtras.
Import Parser ParserSpec Converter FrontSpec.



End FrontEndExtras.


(* ====================================================================== *)
(** ** The whole pipeline *)
(* ====================================================================== *)

Section PipelineExtras.
Import Semantic AstSpec SemSpec RunSpec ConvSpec PipelineSpec.

(** X29.  How a run of [main] on a source ends, for every source text.  An
    exception of the front end is a [SyntaxError] of the parser, the
    [KeyError] or [IndexError] of a failed lookup in the converter, the
    [ValueError] of an integer literal of more than 4300 digits, the
    [AttributeError] of the analysis of a statement that is not a node,
    or the [RecursionError] of Python on a program nested deeper than its
    recursion limit allows (the definitions here have no such limit and
    do not raise it).  If the analysis reports errors, they are
    [E_DUP_DECL], [E_UNDEFINED] and [E_CONST_ASSIGN] errors and no
    interpreter is created.  Otherwise the program runs, and the run
    ends, after success or after an error ([RuntimeError], which
    [RecursionError] is one of, [TypeError], or the [OverflowError] or
    [MemoryError] of a string too long to build), with the agent on a
    cell of its 5 by 5 grid, facing one of the four directions, and dirt
    only where the fresh grid had some. *)
Theorem how_a_run_on_a_source_ends (source : string) :
  match Main.run_source source with
  | Main.Uncaught e => front_end_error e
  | Main.SemanticExit errors => errors <> [] /\ Forall semantic_error errors
  | Main.RuntimeExit e it => grid_ok it /\ run_time_error e
  | Main.Success it => grid_ok it
  end.
Proof.
  unfold Main.run_source, Main.front_end.
  destruct (Parser.parse_program (Lexer.get_token_stream source))
    as [cst|e] eqn:Eparse; cbn [bind].
  2:{ left. now apply (parse_program_errors _ e Eparse). }
  destruct (Converter.convert_cst_to_ast (to_dict cst)) as [[ast|]|e] eqn:Econv.
  3:{ right. left. now apply (convert_cst_to_ast_errors _ e Econv). }
  2:{ right. right. now left. }
  unfold analyze, check_statements. set (body := prog_body ast).
  pose proof (declaration_pass_outcome body (Scope.init None 0, [])) as Ho.
  destruct (for_each declare_stmt body (Scope.init None 0, []))
    as [[scope' errors'] [[]|e]] eqn:Ed; cbn [snd] in Ho.
  2:{ right. right. left.
      destruct (forallb is_node body); [discriminate|now injection Ho as ->]. }
  apply declaration_pass_global in Ed as [-> _].
  destruct (check_statements_appends scope' body)
    as (extra & r & Happ & Hu & Ht & Hf).
  rewrite Happ.
  destruct (forallb dict_nodes body) eqn:Hd.
  2:{ rewrite (Hf eq_refl). right. right. now left. }
  rewrite (Ht eq_refl).
  destruct (duplicates [] (declared_names body) ++ extra)%list
    as [|d errors] eqn:Eerrors.
  - unfold Main.interpret.
    destruct (run_keeps_grid run_time_error ast)
      with (it := Interpreter.set_grid (Some (GridWorld.init 5 5))
                    Interpreter.init)
      as [HP Herr].
    + now intros e He.
    + fold body. congruence.
    + apply fresh_interpreter_on_grid.
    + destruct (Interpreter.run ast _) as [it [[]|e]]; cbn [fst snd] in *;
        [exact HP|]. split; [exact HP|]. now apply Herr.
  - split; [discriminate|]. rewrite <- Eerrors. apply Forall_app. split.
    + eapply Forall_impl; [apply duplicates_are_duplicates|].
      intros d' Hd'. now left.
    + eapply Forall_impl; [exact Hu|]. intros d' Hd'. now right.
Qed.

End PipelineExtras.
